(** * Gambler's Ruin stepper: a shallow embedding of [script.js]

    The engine of the page is five functions over JavaScript arrays
    ([matrixMultiply], [matrixPower], [generateTransitionMatrix],
    [generateInitialVector], [vectorMatrixMultiply]) and the session
    operation [advanceSteps] over the module-level variables.  Around the
    engine, [getParams] is embedded from the numbers the parsers return,
    and the marks [renderChart] and [renderVectorTable] give to a state
    from the comparisons they make; the page itself (the document, the
    strings built for it, [formatNum]) is not modelled.

    Numbers.  A JavaScript number is an IEEE-754 double (binary64).
    - Matrix and vector entries are elements of a type [R] with a zero, a
      one, a sum, a product and a difference.  What is proved with no law
      of arithmetic assumed holds of the rounded operations of binary64 as
      it is stated, infinities and NaN included; such results are run at
      the binary64 numbers of the kernel ([PrimFloat]).
    - Where an equation between numbers is needed, it is a hypothesis of
      the theorem about the numbers at hand ([finite_like], or
      1 - (1 - p) = p), or the result is stated for doubles under the
      condition that nothing rounds: a run in unrounded arithmetic
      ([unrounded], where an operation whose exact result is not a
      binary64 value has no result) is compared with the run on doubles.
    - The lemmas under the ring hypothesis [Rth] are about exact
      arithmetic.  They serve the results on runs that do not round, and
      the properties of the chain (rows that sum to 1, what the first step
      and an absorbing start give, entries that stay non-negative) that
      are stated for exact entries.
    - The exponent [k] and the step counter are [jsnum]: a rational, an
      infinity or NaN.  The operations the code applies to the exponent
      ([===], [<], [>], [% 2], [/ 2], [Math.floor], [isNaN]) are exact on
      doubles; the sum that advances the counter is rounded to binary64
      ([js_add]).

    Arrays.  A JavaScript array of numbers is a [list R], a matrix a list of
    rows.  Reading a missing row gives [undefined], and reading a property of
    [undefined] throws a [TypeError]: this is modelled.  Reading a missing
    cell of an existing row gives [undefined], which arithmetic turns into
    NaN; NaN is not an element of [R], so that read is given the value zero
    and the theorems about the numbers computed are stated for rectangular
    arrays, where it cannot happen. *)

From Stdlib Require Import ZArith QArith Qround Qcanon Ring Lia.
From Stdlib Require Import PrimFloat.
From stdpp Require Import base option list strings.

Local Open Scope nat_scope.

(** ** Outcomes of a JavaScript call *)

Inductive js_error : Type :=
  | IncompatibleDimensions  (* Error("Matrix dimensions are incompatible for multiplication.") *)
  | TypeError.              (* reading a property of undefined *)

Inductive outcome (A : Type) : Type :=
  | Ret (a : A)             (* normal completion *)
  | Throw (e : js_error)    (* an exception propagates to the caller *)
  | Diverge.                (* the loop did not finish within the fuel given *)

Arguments Ret {A} a.
Arguments Throw {A} e.
Arguments Diverge {A}.

#[global] Instance outcome_ret : MRet outcome := @Ret.
#[global] Instance outcome_bind : MBind outcome := λ A B f m,
  match m with
  | Ret a => f a
  | Throw e => Throw e
  | Diverge => Diverge
  end.

(** Two outcomes of the same kind, the values returned related. *)
Definition outcome_rel {A B : Type} (rel : A → B → Prop)
    (x : outcome A) (y : outcome B) : Prop :=
  match x, y with
  | Ret a, Ret b => rel a b
  | Throw e, Throw e' => e = e'
  | Diverge, Diverge => True
  | _, _ => False
  end.

(** [for (let i = 0; i < n; i++) body], threading the variables the body
    assigns to. *)
Fixpoint for_loop {S : Type} (n : nat) (body : nat → S → outcome S) (s : S) : outcome S :=
  match n with
  | O => Ret s
  | S n' => for_loop n' body s ≫= body n'
  end.

(** ** JavaScript numbers used as counters and exponents *)

Inductive jsnum : Type :=
  | JNum (q : Q)
  | JPosInf
  | JNegInf
  | JNaN.

Definition Qlt_bool (x y : Q) : bool := negb (Qle_bool y x).

(** Rounding toward zero, as the remainder operator does. *)
Definition Qtrunc (x : Q) : Z := Z.quot (Qnum x) (Zpos (Qden x)).

(** [a === b] on numbers. *)
Definition js_strict_eq (a b : jsnum) : bool :=
  match a, b with
  | JNum x, JNum y => Qeq_bool x y
  | JPosInf, JPosInf | JNegInf, JNegInf => true
  | _, _ => false
  end.

(** [a < b]. *)
Definition js_lt (a b : jsnum) : bool :=
  match a, b with
  | JNum x, JNum y => Qlt_bool x y
  | JNegInf, (JNum _ | JPosInf) => true
  | JNum _, JPosInf => true
  | _, _ => false
  end.

(** [a > b]. *)
Definition js_gt (a b : jsnum) : bool := js_lt b a.

Definition js_isNaN (a : jsnum) : bool :=
  match a with JNaN => true | _ => false end.

(** [a % b]: the remainder has the sign of the dividend. *)
Definition js_mod (a b : jsnum) : jsnum :=
  match a, b with
  | JNum x, JNum y =>
      if Qeq_bool y 0 then JNaN
      else JNum (x - y * inject_Z (Qtrunc (x / y)))
  | JNum x, (JPosInf | JNegInf) => JNum x
  | _, _ => JNaN
  end.

(** [a / b] (the sign of a zero is not tracked). *)
Definition js_div (a b : jsnum) : jsnum :=
  match a, b with
  | JNum x, JNum y =>
      if Qeq_bool y 0 then
        (if Qeq_bool x 0 then JNaN else if Qlt_bool 0 x then JPosInf else JNegInf)
      else JNum (x / y)
  | JNum _, (JPosInf | JNegInf) => JNum 0
  | JPosInf, JNum y => if Qlt_bool y 0 then JNegInf else JPosInf
  | JNegInf, JNum y => if Qlt_bool y 0 then JPosInf else JNegInf
  | _, _ => JNaN
  end.

(** [Math.floor(a)]. *)
Definition js_floor (a : jsnum) : jsnum :=
  match a with
  | JNum x => JNum (inject_Z (Qfloor x))
  | other => other
  end.

(** *** Doubles

    A finite JavaScript number is a binary64 value: a multiple of 2^-1074
    with at most 53 significant bits and magnitude below 2^1024.  The two
    zeros are one number here, as they are for [===]; no operation of the
    engine tells them apart. *)

(** [2^e] for an integer [e]. *)
Definition pow2 (e : Z) : Q :=
  if (0 <=? e)%Z then inject_Z (2 ^ e) else 1 # Z.to_pos (2 ^ (- e)).

(** [x] is a binary64 value.  In lowest terms the denominator is a power
    of two, at most 2^1074; the numerator has at most 53 significant
    bits, and when it is longer than 53 bits the bits below the first 53
    are zero. *)
Definition binary64 (x : Q) : bool :=
  let n := Z.abs (Qnum (Qred x)) in
  let d := Zpos (Qden (Qred x)) in
  let j := Z.log2 d in
  (d =? 2 ^ j)%Z && (j <=? 1074)%Z
  && ((n <? 2 ^ 53)%Z
      || ((d =? 1)%Z && (n <? 2 ^ 1024)%Z
          && (n mod 2 ^ (Z.log2 n - 52) =? 0)%Z)).

(** The nearest integer, a tie going to the even one. *)
Definition round_half_even (x : Q) : Z :=
  let f := Qfloor x in
  match (x - inject_Z f ?= 1 # 2)%Q with
  | Lt => f
  | Gt => (f + 1)%Z
  | Eq => if Z.even f then f else (f + 1)%Z
  end.

(** [floor (log2 x)] for a positive [x]. *)
Definition Qlog2 (x : Q) : Z :=
  let e := (Z.log2 (Qnum x) - Z.log2 (Zpos (Qden x)))%Z in
  if Qle_bool (pow2 e) x then e else (e - 1)%Z.

(** Rounding to the nearest binary64 value, ties to even: a value that is
    representable is kept; otherwise the magnitude is rounded to a
    multiple of the spacing of its binade (2^-1074 at least), and what
    reaches 2^1024 is an infinity. *)
Definition round64 (x : Q) : jsnum :=
  if binary64 x then JNum (Qred x)
  else
    let a := (if Qlt_bool x 0 then - x else x)%Q in
    let e := Z.max (Qlog2 a - 52) (-1074) in
    let m := round_half_even (a / pow2 e) in
    let y := (inject_Z m * pow2 e)%Q in
    if Qle_bool (pow2 1024) y then (if Qlt_bool x 0 then JNegInf else JPosInf)
    else JNum (Qred (if Qlt_bool x 0 then - y else y)).

(** [a + b]: the sum of two finite numbers is rounded. *)
Definition js_add (a b : jsnum) : jsnum :=
  match a, b with
  | JNum x, JNum y => round64 (x + y)
  | JNaN, _ | _, JNaN => JNaN
  | JPosInf, JNegInf | JNegInf, JPosInf => JNaN
  | JPosInf, _ | _, JPosInf => JPosInf
  | JNegInf, _ | _, JNegInf => JNegInf
  end.

(** The number written as the integer literal [z]. *)
Definition js_int (z : Z) : jsnum := JNum (inject_Z z).

(** *** Arithmetic without rounding *)

(** Arithmetic that refuses to round: the exact result when it is a
    binary64 value, and nothing otherwise or when an operand is missing. *)
Definition unrounded (op : Qc → Qc → Qc) (a b : option Qc) : option Qc :=
  match a, b with
  | Some x, Some y => if binary64 (op x y) then Some (op x y) else None
  | _, _ => None
  end.

(** What the unrounded arithmetic computed, if anything, is the exact
    number [x]. *)
Definition exact_is (e : option Qc) (x : Qc) : Prop := ∀ q, e = Some q → q = x.

(** What the unrounded arithmetic computed, if anything, is a binary64
    value and is the double [d]. *)
Definition double_is {D : Type} (inj : Qc → D) (e : option Qc) (d : D) : Prop :=
  ∀ q, e = Some q → binary64 q = true ∧ d = inj q.

(** Every number of the list is a binary64 value. *)
Definition all_binary64 (v : list Qc) : Prop :=
  Forall (λ q : Qc, binary64 q = true) v.

(** ** Reading the parameters

    [getParams] (script.js, lines 122-130) reads three form fields, parses
    them with [parseInt] and [parseFloat], replaces a falsy result by a
    default and clamps.  The fields and the parsers belong to the browser;
    the function is embedded from the three numbers the parsers return. *)

(** A number is falsy when it is zero or NaN. *)
Definition js_truthy (a : jsnum) : bool :=
  match a with
  | JNum q => negb (Qeq_bool q 0)
  | JNaN => false
  | JPosInf | JNegInf => true
  end.

(** [a || d] on a number [a]. *)
Definition js_or (a d : jsnum) : jsnum := if js_truthy a then a else d.

(** [Math.max(a, b)]. *)
Definition js_max (a b : jsnum) : jsnum :=
  match a, b with
  | JNaN, _ | _, JNaN => JNaN
  | _, _ => if js_lt a b then b else a
  end.

(** [Math.min(a, b)]. *)
Definition js_min (a b : jsnum) : jsnum :=
  match a, b with
  | JNaN, _ | _, JNaN => JNaN
  | _, _ => if js_lt b a then b else a
  end.

(** The values of [N_global], [n_global] and [p_global] that [getParams]
    leaves, from the results of [parseInt] on the goal and start fields and
    of [parseFloat] on the probability field. *)
Definition getParams (N_goal n_start p_win : jsnum) : jsnum * jsnum * jsnum :=
  let N_global := js_or N_goal (js_int 1) in
  let n_global := js_or n_start (js_int 0) in
  let p_global := js_or p_win (js_int 0) in
  let n_global :=
    if js_lt n_global (js_int 0) || js_gt n_global N_global
    then js_min (js_max (js_int 0) n_global) N_global
    else n_global in
  let p_global :=
    if js_lt p_global (js_int 0) || js_gt p_global (js_int 1)
    then js_min (js_max (js_int 0) p_global) (js_int 1)
    else p_global in
  (N_global, n_global, p_global).

(** ** How a state is marked on the page

    [renderChart] (script.js, lines 198-207) chooses the colour of the bar
    of a state, and [renderVectorTable] (lines 181-185) the class of its
    table cell; both compare the index that [forEach] passes with 0 and
    with [N_global].  The page itself is not modelled. *)

(** The value of [color] when the bar of [state] is created. *)
Definition renderChart_color (N_global : jsnum) (state : nat) : string :=
  let color := "#007bff"%string in
  let color :=
    if js_strict_eq (js_int (Z.of_nat state)) (js_int 0) then "#dc3545"%string
    else color in
  let color :=
    if js_strict_eq (js_int (Z.of_nat state)) N_global then "#28a745"%string
    else color in
  color.

(** The value of [className] for the cell of index [i]. *)
Definition renderVectorTable_className (N_global : jsnum) (i : nat) : string :=
  if js_strict_eq (js_int (Z.of_nat i)) (js_int 0) then "ruin"%string
  else if js_strict_eq (js_int (Z.of_nat i)) N_global then "goal"%string
  else EmptyString.

(** ** The engine over an exact number type *)

Abbreviation vector R := (list R) (only parsing).
Abbreviation matrix R := (list (list R)) (only parsing).

(** A pure loop: [for (let i = 0; i < n; i++) s = body i s]. *)
Fixpoint for_range {S : Type} (n : nat) (body : nat → S → S) (s : S) : S :=
  match n with
  | O => s
  | S n' => body n' (for_range n' body s)
  end.

Section Engine.
Context {R : Type}.
Context (rO rI : R) (radd rmul rsub : R → R → R) (ropp : R → R).

Local Infix "[+]" := radd (at level 50, left associativity).
Local Infix "[*]" := rmul (at level 40, left associativity).
Local Infix "[-]" := rsub (at level 50, left associativity).

(** [M[i]] where a property of it is read next: a missing row throws. *)
Definition js_row (M : matrix R) (i : nat) : outcome (list R) :=
  match M !! i with
  | Some row => Ret row
  | None => Throw TypeError
  end.

(** [row[j]] used as a number.  A cell that is not there reads as zero
    here, where JavaScript computes with NaN (see the head of the file). *)
Definition js_cell (row : list R) (j : nat) : R := default rO (row !! j).

(** [m[i][j] = x], for [i] and [j] inside the array. *)
Definition set2 (i j : nat) (x : R) (m : matrix R) : matrix R :=
  alter (λ row, <[j := x]> row) i m.

(** [m[i][j] += x], for [i] and [j] inside the array. *)
Definition add2 (i j : nat) (x : R) (m : matrix R) : matrix R :=
  alter (λ row, alter (λ y, y [+] x) j row) i m.

(** script.js, lines 6-28. *)
Definition matrixMultiply (A B : matrix R) : outcome (matrix R) :=
  let rowsA := length A in
  a0 ← js_row A 0;
  let colsA := length a0 in
  b0 ← js_row B 0;
  let colsB := length b0 in
  if negb (colsA =? length B) then Throw IncompatibleDimensions
  else
    let result := replicate rowsA (replicate colsB rO) in
    for_loop rowsA (λ i result,
      for_loop colsB (λ j result,
        for_loop colsA (λ k result,
          ai ← js_row A i;
          bk ← js_row B k;
          Ret (add2 i j (js_cell ai k [*] js_cell bk j) result))
        result)
      result)
    result.

(** [Array(n).fill(0).map((_, i) => Array(n).fill(0).map((_, j) => i === j ? 1 : 0))] *)
Definition identity_matrix (n : nat) : matrix R :=
  imap (λ i _, imap (λ j _, if bool_decide (i = j) then rI else rO) (replicate n rO))
       (replicate n rO).

(** The [while (exp > 0)] loop of [matrixPower]. *)
Fixpoint power_loop (fuel : nat) (result base : matrix R) (exp : jsnum)
    : outcome (matrix R) :=
  if js_gt exp (js_int 0) then
    match fuel with
    | O => Diverge
    | S fuel' =>
        result' ← (if js_strict_eq (js_mod exp (js_int 2)) (js_int 1)
                   then matrixMultiply result base
                   else Ret result);
        base' ← matrixMultiply base base;
        power_loop fuel' result' base' (js_floor (js_div exp (js_int 2)))
    end
  else Ret result.

(** Iterations after which the loop has finished when the exponent is
    finite; an infinite exponent either throws in the first iteration or
    never leaves the loop. *)
Definition power_fuel (k : jsnum) : nat :=
  match k with
  | JNum q => S (Z.to_nat (Z.log2 (Qfloor q)))
  | _ => 1
  end.

(** script.js, lines 33-57. *)
Definition matrixPower (M : matrix R) (k : jsnum) : outcome (matrix R) :=
  let n := length M in
  let identity := identity_matrix n in
  if js_strict_eq k (js_int 0) then Ret identity
  else if js_strict_eq k (js_int 1) then Ret M
  else
    let result := identity in
    let base := (λ row : list R, row) <$> M in
    power_loop (power_fuel k) result base k.

(** script.js, lines 62-78.  [N] is a natural number: with a negative or
    fractional [N] the call [Array(size)] throws a [RangeError]. *)
Definition generateTransitionMatrix (N : nat) (p : R) : matrix R :=
  let size := N + 1 in
  let matrix := replicate size (replicate size rO) in
  let q := rI [-] p in
  for_range (N + 1) (λ i matrix,
    if (i =? 0) || (i =? N) then set2 i i rI matrix
    else set2 i (i - 1) q (set2 i (i + 1) p matrix))
  matrix.

(** script.js, lines 83-89. *)
Definition generateInitialVector (N : nat) (n : Z) : vector R :=
  let vector := replicate (N + 1) rO in
  if ((0 <=? n) && (n <=? Z.of_nat N))%Z then <[Z.to_nat n := rI]> vector
  else vector.

(** script.js, lines 94-103. *)
Definition vectorMatrixMultiply (v : vector R) (M : matrix R) : outcome (vector R) :=
  m0 ← js_row M 0;
  let cols := length m0 in
  let result := replicate cols rO in
  for_loop cols (λ j result,
    for_loop (length v) (λ i result,
      mi ← js_row M i;
      Ret (alter (λ y, y [+] js_cell v i [*] js_cell mi j) j result))
    result)
  result.

(** The module-level variables of script.js, lines 112-117. *)
Record session : Type := Session {
  N_global : nat;
  n_global : Z;
  p_global : R;
  currentStep : jsnum;
  transitionMatrix : matrix R;
  currentVector : vector R;
}.

(** The value assigned to [currentVector] by [advanceSteps]
    (script.js, lines 154-157), for the exponent as it is passed on. *)
Definition advanceBySteps (pi : vector R) (M : matrix R) (k : jsnum)
    : outcome (vector R) :=
  Pk ← matrixPower M k;
  vectorMatrixMultiply pi Pk.

(** [if (k < 1 || isNaN(k)) k = 1;] *)
Definition coerce_steps (k : jsnum) : jsnum :=
  if js_lt k (js_int 1) || js_isNaN k then js_int 1 else k.

(** script.js, lines 150-162, without the redrawing of the page. *)
Definition advanceSteps (k : jsnum) (s : session) : outcome session :=
  let k := coerce_steps k in
  v ← advanceBySteps (currentVector s) (transitionMatrix s) k;
  Ret {| N_global := N_global s;
         n_global := n_global s;
         p_global := p_global s;
         currentStep := js_add (currentStep s) k;
         transitionMatrix := transitionMatrix s;
         currentVector := v |}.

(** script.js, lines 135-145, from the parameters [getParams] has read
    and clamped, without the redrawing of the page. *)
Definition resetSimulation (N : nat) (n : Z) (p : R) : session :=
  {| N_global := N;
     n_global := n;
     p_global := p;
     currentStep := js_int 0;
     transitionMatrix := generateTransitionMatrix N p;
     currentVector := generateInitialVector N n |}.

(** ** The two algebra functions over a store of array objects

    JavaScript arrays are objects reached through references, and
    [result[i][j] += x] writes into the row object itself.  To speak about
    what a call does to the arrays of its caller, [matrixMultiply] and
    [matrixPower] are also embedded over an explicit store.  The store is
    typed: an object is an array of numbers or an array of references to
    rows.  Where a row is expected and the array holds numbers, the model
    reports a [TypeError]. *)

Definition loc : Type := nat.

Inductive object : Type :=
  | NumArray (xs : list R)
  | RefArray (rows : list loc).

Local Abbreviation heap := (list object).

(** A computation that reads and writes the store and may throw. *)
Definition hm (A : Type) : Type := heap → heap * outcome A.

#[global] Instance hm_ret : MRet hm := λ A a h, (h, Ret a).
#[global] Instance hm_bind : MBind hm := λ A B f m h,
  match m h with
  | (h', Ret a) => f a h'
  | (h', Throw e) => (h', Throw e)
  | (h', Diverge) => (h', Diverge)
  end.

Definition h_throw {A : Type} (e : js_error) : hm A := λ h, (h, Throw e).

(** A new array object. *)
Definition h_alloc (o : object) : hm loc := λ h, (h ++ [o], Ret (length h)).

(** [a.length] *)
Definition h_length (a : loc) : hm nat := λ h,
  match h !! a with
  | Some (NumArray xs) => (h, Ret (length xs))
  | Some (RefArray rows) => (h, Ret (length rows))
  | None => (h, Throw TypeError)
  end.

(** [a[i]] where a property of it is read next. *)
Definition h_row (a : loc) (i : nat) : hm loc := λ h,
  match h !! a with
  | Some (RefArray rows) =>
      match rows !! i with
      | Some r => (h, Ret r)
      | None => (h, Throw TypeError)
      end
  | _ => (h, Throw TypeError)
  end.

(** [row[j]] used as a number. *)
Definition h_cell (row : loc) (j : nat) : hm R := λ h,
  match h !! row with
  | Some (NumArray xs) => (h, Ret (js_cell xs j))
  | _ => (h, Throw TypeError)
  end.

(** All the numbers of [row], as the spread [[...row]] reads them. *)
Definition h_numbers (row : loc) : hm (list R) := λ h,
  match h !! row with
  | Some (NumArray xs) => (h, Ret xs)
  | _ => (h, Throw TypeError)
  end.

(** [row[j] = x], for [j] inside the array. *)
Definition h_store (row : loc) (j : nat) (x : R) : hm unit := λ h,
  match h !! row with
  | Some (NumArray xs) => (<[row := NumArray (<[j := x]> xs)]> h, Ret tt)
  | _ => (h, Throw TypeError)
  end.

(** [for (let i = 0; i < n; i++) body] over the store. *)
Fixpoint h_for (n : nat) (body : nat → hm unit) : hm unit :=
  match n with
  | O => mret tt
  | S n' => h_for n' body ;; body n'
  end.

(** The callback of [Array.prototype.map] run for the indices below [n],
    its results collected in order. *)
Fixpoint h_tabulate {A : Type} (n : nat) (f : nat → hm A) : hm (list A) :=
  match n with
  | O => mret []
  | S n' => xs ← h_tabulate n' f; x ← f n'; mret (xs ++ [x])
  end.

(** [Array(rows).fill(0).map(() => Array(cols).fill(0))]: the array that
    [fill] fills, one new row for each of its elements, and the array of
    these rows.  (Where the new objects are placed in the store is the
    model's choice; nothing depends on it.) *)
Definition h_zero_matrix (rows cols : nat) : hm loc :=
  _ ← h_alloc (NumArray (replicate rows rO));
  rs ← h_tabulate rows (λ _, h_alloc (NumArray (replicate cols rO)));
  h_alloc (RefArray rs).

(** script.js, lines 6-28, over the store. *)
Definition h_matrixMultiply (A B : loc) : hm loc :=
  rowsA ← h_length A;
  a0 ← h_row A 0;
  colsA ← h_length a0;
  b0 ← h_row B 0;
  colsB ← h_length b0;
  lenB ← h_length B;
  if negb (colsA =? lenB) then h_throw IncompatibleDimensions
  else
    result ← h_zero_matrix rowsA colsB;
    h_for rowsA (λ i,
      h_for colsB (λ j,
        h_for colsA (λ k,
          ri ← h_row result i;
          old ← h_cell ri j;
          ai ← h_row A i;
          x ← h_cell ai k;
          bk ← h_row B k;
          y ← h_cell bk j;
          h_store ri j (old [+] x [*] y))));;
    mret result.

(** The identity matrix of [matrixPower], line 37. *)
Definition h_identity (n : nat) : hm loc :=
  _ ← h_alloc (NumArray (replicate n rO));
  rs ← h_tabulate n (λ i,
    _ ← h_alloc (NumArray (replicate n rO));
    h_alloc (NumArray (imap (λ j _, if bool_decide (i = j) then rI else rO)
                            (replicate n rO))));
  h_alloc (RefArray rs).

(** [M.map(row => [...row])], line 45. *)
Definition h_copy (M : loc) : hm loc :=
  n ← h_length M;
  rs ← h_tabulate n (λ i,
    row ← h_row M i;
    xs ← h_numbers row;
    h_alloc (NumArray xs));
  h_alloc (RefArray rs).

Fixpoint h_power_loop (fuel : nat) (result base : loc) (exp : jsnum) : hm loc :=
  if js_gt exp (js_int 0) then
    match fuel with
    | O => λ h, (h, Diverge)
    | S fuel' =>
        result' ← (if js_strict_eq (js_mod exp (js_int 2)) (js_int 1)
                   then h_matrixMultiply result base
                   else mret result);
        base' ← h_matrixMultiply base base;
        h_power_loop fuel' result' base' (js_floor (js_div exp (js_int 2)))
    end
  else mret result.

(** script.js, lines 33-57, over the store. *)
Definition h_matrixPower (M : loc) (k : jsnum) : hm loc :=
  n ← h_length M;
  identity ← h_identity n;
  if js_strict_eq k (js_int 0) then mret identity
  else if js_strict_eq k (js_int 1) then mret M
  else
    base ← h_copy M;
    h_power_loop (power_fuel k) identity base k.

(** script.js, lines 94-103, over the store.  The bounds [M[0].length]
    and [v.length] of the two loops are read where the loops start; the
    passes write to the new array only. *)
Definition h_vectorMatrixMultiply (v M : loc) : hm loc :=
  m0 ← h_row M 0;
  cols ← h_length m0;
  result ← h_alloc (NumArray (replicate cols rO));
  h_for cols (λ j,
    n ← h_length v;
    h_for n (λ i,
      old ← h_cell result j;
      x ← h_cell v i;
      mi ← h_row M i;
      y ← h_cell mi j;
      h_store result j (old [+] x [*] y)));;
  mret result.

(** The matrix an array of rows stands for in a store. *)
Definition h_matrix (h : heap) (m : loc) (M : matrix R) : Prop :=
  ∃ rows, h !! m = Some (RefArray rows)
          ∧ Forall2 (λ r row, h !! r = Some (NumArray row)) rows M.

(** ** Mathematical vocabulary

    The sums, products and powers the engine is compared with. *)

(** [f 0 + f 1 + ... + f (n-1)], added to zero from the left. *)
Definition sumf (n : nat) (f : nat → R) : R :=
  for_range n (λ k y, y [+] f k) rO.

(** The number in row [i], column [j]. *)
Definition entry (M : matrix R) (i j : nat) : R :=
  js_cell (default [] (M !! i)) j.

(** The number of columns, read from the first row as the code does. *)
Definition cols (M : matrix R) : nat := length (default [] (M !! 0)).

Definition mk_vector (c : nat) (f : nat → R) : vector R := f <$> seq 0 c.

Definition mk_matrix (r c : nat) (f : nat → nat → R) : matrix R :=
  (λ i, mk_vector c (f i)) <$> seq 0 r.

(** [M] has [r] rows, each of [c] numbers. *)
Definition is_matrix (r c : nat) (M : matrix R) : Prop :=
  length M = r ∧ Forall (λ row, length row = c) M.

(** The matrix product: entry [(i, j)] is [Σ_k A[i][k] * B[k][j]]. *)
Definition mmul (A B : matrix R) : matrix R :=
  mk_matrix (length A) (cols B)
    (λ i j, sumf (cols A) (λ k, entry A i k [*] entry B k j)).

(** The row vector times matrix product: entry [j] is [Σ_i v[i] * M[i][j]]. *)
Definition vmul (v : vector R) (M : matrix R) : vector R :=
  mk_vector (cols M) (λ j, sumf (length v) (λ i, js_cell v i [*] entry M i j)).

(** The power by repeated multiplication. *)
Fixpoint mat_pow (M : matrix R) (k : nat) : matrix R :=
  match k with
  | O => identity_matrix (length M)
  | S k' => mmul (mat_pow M k') M
  end.

(** The sum of the entries of a vector. *)
Definition vsum (v : vector R) : R := sumf (length v) (js_cell v).

(** One propagation step after the other, [k] times: the slow reference
    the one-shot advance is compared with. *)
Fixpoint advance_sequentially (k : nat) (pi : vector R) (M : matrix R)
    : outcome (vector R) :=
  match k with
  | O => Ret pi
  | S k' => advance_sequentially k' pi M ≫= λ v, vectorMatrixMultiply v M
  end.

(** The exponent [matrixPower] realises for a finite [k]: zero when [k] is
    not positive, [k] itself when it is a whole number, and otherwise the
    even number [2 * floor (floor k / 2)], because the first pass through
    the loop squares the base without multiplying the result. *)
Definition is_whole (q : Q) : bool := Qeq_bool q (inject_Z (Qfloor q)).

Definition power_exponent (q : Q) : nat :=
  if Qle_bool q 0 then 0
  else if is_whole q then Z.to_nat (Qfloor q)
  else 2 * Z.to_nat (Qfloor q / 2).

(** A session is ready once [resetSimulation] has run; [advanceSteps]
    keeps it so. *)
Inductive Ready : session → Prop :=
  | Ready_reset (N : nat) (n : Z) (p : R) :
      1 ≤ N → Ready (resetSimulation N n p)
  | Ready_advance (k : jsnum) (s s' : session) :
      Ready s → advanceSteps k s = Ret s' → Ready s'.

(** The entry [generateTransitionMatrix] leaves in row [i], column [j]. *)
Definition transition_entry (N : nat) (p : R) (i j : nat) : R :=
  if (i =? 0) || (i =? N) then (if bool_decide (j = i) then rI else rO)
  else if bool_decide (j = i + 1) then p
  else if bool_decide (j = i - 1) then rI [-] p
  else rO.

(** The store after the result of [matrixMultiply] has been created, for
    the contents [res] of that result: the temporary array, the rows, and
    the array of rows. *)
Definition layout (h : heap) (rows : nat) (res : matrix R) : heap :=
  h ++ NumArray (replicate rows rO) :: (NumArray <$> res)
    ++ [RefArray (seq (S (length h)) rows)].

(** A run over the store follows a pure outcome: the store has only
    grown, a thrown error is the same error, and a returned reference
    stands for the returned value. *)
Definition follows {A B : Type} (rel : heap → A → B → Prop) (h : heap)
    (run : heap * outcome A) (pure : outcome B) : Prop :=
  h `prefix_of` run.1
  ∧ match pure with
    | Ret y => ∃ x, run.2 = Ret x ∧ rel run.1 x y
    | Throw e => run.2 = Throw e
    | Diverge => run.2 = Diverge
    end.

(** An array of rows that did not exist when the store held [n0] objects:
    the array and each of its rows were created later. *)
Definition h_new (n0 : nat) (h : heap) (r : loc) : Prop :=
  n0 ≤ r ∧ ∃ rows, h !! r = Some (RefArray rows) ∧ Forall (λ x, n0 ≤ x) rows.

(** A square matrix of the given size whose every row sums to one. *)
Definition stochastic (n : nat) (M : matrix R) : Prop :=
  is_matrix n n M ∧ Forall (λ row, vsum row = rI) M.

(** The vector of the given length with a one at index [i] and zeros
    elsewhere. *)
Definition one_hot (len i : nat) : vector R :=
  mk_vector len (λ j, if bool_decide (j = i) then rI else rO).

(** A number that zero and one treat as they treat a finite number:
    adding zero and multiplying by one leave it, and multiplying it by
    zero gives zero.  On doubles these are the finite numbers (the
    product of zero and an infinity or NaN is NaN). *)
Definition finite_like (x : R) : Prop :=
  rO [+] x = x ∧ x [+] rO = x
  ∧ rI [*] x = x ∧ x [*] rI = x
  ∧ rO [*] x = rO ∧ x [*] rO = rO.

(** The start state lies in the state space. *)
Definition start_in_range (N : nat) (n : Z) : bool :=
  ((0 <=? n) && (n <=? Z.of_nat N))%Z.

(** ** Loops *)

Lemma for_loop_ret {S : Type} (n : nat) (f : nat → S → S) (s : S) :
  for_loop n (λ i s, Ret (f i s)) s = Ret (for_range n f s).
Proof. induction n as [|n IH]; simpl; [done|]. by rewrite IH. Qed.

Lemma for_loop_ext {S : Type} (n : nat) (body body' : nat → S → outcome S) (s : S) :
  (∀ i s, i < n → body i s = body' i s) →
  for_loop n body s = for_loop n body' s.
Proof.
  induction n as [|n IH]; intros Hb; simpl; [done|].
  rewrite IH by (intros; apply Hb; lia).
  destruct (for_loop n body' s); simpl; auto.
Qed.

Lemma for_range_ext {S : Type} (n : nat) (body body' : nat → S → S) (s : S) :
  (∀ i s, i < n → body i s = body' i s) →
  for_range n body s = for_range n body' s.
Proof.
  induction n as [|n IH]; intros Hb; simpl; [done|].
  rewrite IH by (intros; apply Hb; lia). apply Hb; lia.
Qed.

(** A loop whose every pass rewrites the same cell rewrites it once with
    the composed function. *)
Lemma for_range_alter {A : Type} (n : nat) (g : nat → A → A) (j : nat) (l : list A) :
  for_range n (λ k l, alter (g k) j l) l = alter (for_range n g) j l.
Proof.
  induction n as [|n IH]; simpl.
  - symmetry. apply list_eq; intros i.
    destruct (decide (i = j)) as [->|Hne].
    + rewrite list_lookup_alter_eq. by destruct (l !! j).
    + by rewrite list_lookup_alter_ne.
  - rewrite IH. by rewrite list_alter_alter_eq.
Qed.

(** A loop that rewrites cell [i] in pass [i] is a map with index. *)
Lemma for_range_sweep {A : Type} (n : nat) (g : nat → A → A) (l : list A) :
  for_range n (λ i l, alter (g i) i l) l
  = imap (λ i x, if decide (i < n) then g i x else x) l.
Proof.
  induction n as [|n IH]; simpl.
  - apply list_eq; intros i. rewrite list_lookup_imap.
    by destruct (l !! i).
  - rewrite IH. apply list_eq; intros i.
    rewrite !list_lookup_imap.
    destruct (decide (i = n)) as [->|Hne].
    + rewrite list_lookup_alter_eq, list_lookup_imap.
      destruct (l !! n); simpl; [|done].
      repeat case_decide; try lia; done.
    + rewrite list_lookup_alter_ne by done. rewrite list_lookup_imap.
      destruct (l !! i); simpl; [|done].
      repeat case_decide; try lia; done.
Qed.

Lemma imap_replicate {A B : Type} (n : nat) (g : nat → B) (x : A) :
  imap (λ i _, g i) (replicate n x) = g <$> seq 0 n.
Proof.
  apply list_eq; intros i.
  rewrite list_lookup_imap, list_lookup_fmap.
  destruct (decide (i < n)) as [Hlt|Hge].
  - rewrite lookup_replicate_2 by done. by rewrite lookup_seq_lt by done.
  - rewrite (proj1 (lookup_replicate_None n x i)) by lia.
    by rewrite lookup_seq_ge by lia.
Qed.

(** ** What the loops compute *)

Lemma js_row_lt (M : matrix R) (i : nat) :
  i < length M → js_row M i = Ret (default [] (M !! i)).
Proof.
  intros Hi. unfold js_row.
  destruct (lookup_lt_is_Some_2 M i Hi) as [row ->]. done.
Qed.

Lemma js_row_ge (M : matrix R) (i : nat) :
  length M ≤ i → js_row M i = Throw TypeError.
Proof. intros Hi. unfold js_row. by rewrite lookup_ge_None_2. Qed.

Lemma lookup_mk_vector (c : nat) (f : nat → R) (j : nat) :
  mk_vector c f !! j = if decide (j < c) then Some (f j) else None.
Proof.
  unfold mk_vector. rewrite list_lookup_fmap. case_decide.
  - by rewrite lookup_seq_lt.
  - by rewrite lookup_seq_ge by lia.
Qed.

Lemma lookup_mk_matrix (r c : nat) (f : nat → nat → R) (i : nat) :
  mk_matrix r c f !! i = if decide (i < r) then Some (mk_vector c (f i)) else None.
Proof.
  unfold mk_matrix. rewrite list_lookup_fmap. case_decide.
  - by rewrite lookup_seq_lt.
  - by rewrite lookup_seq_ge by lia.
Qed.

Lemma length_mk_vector (c : nat) (f : nat → R) : length (mk_vector c f) = c.
Proof. unfold mk_vector. by rewrite length_fmap, length_seq. Qed.

Lemma length_mk_matrix (r c : nat) (f : nat → nat → R) : length (mk_matrix r c f) = r.
Proof. unfold mk_matrix. by rewrite length_fmap, length_seq. Qed.

(** The three nested loops of [matrixMultiply], once every row read is
    known to succeed. *)
Lemma multiply_loops (r c n : nat) (f : nat → nat → nat → R) :
  for_range r (λ i res,
    for_range c (λ j res,
      for_range n (λ k res, add2 i j (f i j k) res) res) res)
    (replicate r (replicate c rO))
  = mk_matrix r c (λ i j, sumf n (f i j)).
Proof.
  erewrite for_range_ext; last first.
  { intros i res _.
    erewrite for_range_ext; last first.
    { intros j res' _. unfold add2.
      rewrite (for_range_alter n (λ k row, alter (λ y, y [+] f i j k) j row) i res').
      apply list_alter_ext; [|done]. intros row _.
      apply (for_range_alter n (λ k y, y [+] f i j k) j row). }
    rewrite (for_range_alter c _ i res).
    apply list_alter_ext; [|done]. intros row _.
    apply for_range_sweep. }
  rewrite for_range_sweep.
  apply list_eq; intros i.
  rewrite list_lookup_imap, lookup_mk_matrix.
  case_decide as Hi.
  - rewrite lookup_replicate_2 by done. simpl. f_equal.
    apply list_eq; intros j.
    rewrite list_lookup_imap, lookup_mk_vector.
    case_decide as Hj.
    + by rewrite lookup_replicate_2 by done.
    + by rewrite (proj1 (lookup_replicate_None c rO j)) by lia.
  - by rewrite (proj1 (lookup_replicate_None r _ i)) by lia.
Qed.

(** [matrixMultiply] on every pair of arrays of rows (a cell missing from
    a row counting as zero). *)
Lemma matrixMultiply_eq (A B : matrix R) :
  matrixMultiply A B =
    if decide (A = []) then Throw TypeError
    else if decide (B = []) then Throw TypeError
    else if decide (cols A = length B) then Ret (mmul A B)
    else Throw IncompatibleDimensions.
Proof.
  unfold matrixMultiply.
  destruct A as [|a0 A']; [done|].
  destruct B as [|b0 B']; [done|].
  rewrite decide_False by done. rewrite decide_False by done.
  set (A := a0 :: A'). set (B := b0 :: B').
  change (js_row A 0) with (Ret a0).
  change (js_row B 0) with (Ret b0).
  cbn [mbind outcome_bind]. unfold cols. change (A !! 0) with (Some a0).
  change (default [] (Some a0)) with a0. case_decide as Hc.
  - rewrite (proj2 (Nat.eqb_eq _ _) Hc). cbn [negb].
    transitivity (Ret (for_range (length A) (λ i res,
      for_range (length b0) (λ j res,
        for_range (length a0) (λ k res,
          add2 i j (entry A i k [*] entry B k j) res) res) res)
      (replicate (length A) (replicate (length b0) rO)))).
    + rewrite <- for_loop_ret. apply for_loop_ext; intros i res Hi.
      rewrite <- for_loop_ret. apply for_loop_ext; intros j res' Hj.
      rewrite <- for_loop_ret. apply for_loop_ext; intros k res'' Hk.
      rewrite (js_row_lt A i Hi), (js_row_lt B k) by lia. done.
    + f_equal. rewrite multiply_loops. done.
  - rewrite (proj2 (Nat.eqb_neq _ _) Hc). done.
Qed.

(** A loop whose passes all throw the same error throws it, if it runs
    at all. *)
Lemma for_loop_throw {S : Type} (n : nat) (body : nat → S → outcome S)
    (e : js_error) (s : S) :
  0 < n → (∀ i s, body i s = Throw e) → for_loop n body s = Throw e.
Proof.
  intros Hn Hb. induction n as [|n IH]; [lia|]. simpl.
  destruct n as [|n]; [simpl; apply Hb|].
  rewrite IH by lia. done.
Qed.

(** The inner loop of [vectorMatrixMultiply] reads a row that is not
    there when the vector is longer than the matrix has rows. *)
Lemma row_loop_throw {S : Type} (M : matrix R) (n : nat)
    (F : nat → list R → S → S) (s : S) :
  length M < n →
  for_loop n (λ i s, mi ← js_row M i; Ret (F i mi s)) s = Throw TypeError.
Proof.
  induction n as [|n IH]; intros Hn; [lia|]. simpl.
  destruct (decide (length M < n)) as [Hlt|Hge].
  - by rewrite IH.
  - assert (n = length M) as -> by lia.
    erewrite for_loop_ext; last first.
    { intros i s' Hi. rewrite js_row_lt by done.
      cbn [mbind outcome_bind]. reflexivity. }
    rewrite for_loop_ret. cbn [mbind outcome_bind].
    by rewrite js_row_ge.
Qed.

(** [vectorMatrixMultiply] on every vector and every array of rows (a cell
    missing from a row counting as zero). *)
Lemma vectorMatrixMultiply_eq (v : vector R) (M : matrix R) :
  vectorMatrixMultiply v M =
    if decide (M = []) then Throw TypeError
    else if decide (length v ≤ length M ∨ cols M = 0) then Ret (vmul v M)
    else Throw TypeError.
Proof.
  unfold vectorMatrixMultiply.
  destruct M as [|m0 M']; [done|].
  rewrite decide_False by done.
  set (M := m0 :: M').
  change (js_row M 0) with (Ret m0). cbn [mbind outcome_bind].
  unfold vmul, cols. change (M !! 0) with (Some m0).
  change (default [] (Some m0)) with m0.
  destruct (decide (length v ≤ length M)) as [Hle|Hgt].
  - rewrite decide_True by auto.
    erewrite for_loop_ext; last first.
    { intros j res Hj.
      erewrite for_loop_ext; last first.
      { intros i res' Hi. rewrite js_row_lt by lia.
        cbn [mbind outcome_bind]. reflexivity. }
      rewrite for_loop_ret.
      rewrite (for_range_alter (length v)
                 (λ i y, y [+] js_cell v i [*] js_cell (default [] (M !! i)) j) j res).
      reflexivity. }
    rewrite for_loop_ret, for_range_sweep. f_equal.
    apply list_eq; intros j.
    rewrite list_lookup_imap, lookup_mk_vector. case_decide as Hj.
    + by rewrite lookup_replicate_2 by done.
    + by rewrite (proj1 (lookup_replicate_None _ rO j)) by lia.
  - destruct (decide (length m0 = 0)) as [Hz|Hnz].
    + rewrite decide_True by auto. rewrite Hz. done.
    + rewrite decide_False by (intros [?|?]; lia).
      apply for_loop_throw; [lia|]. intros j res.
      apply (row_loop_throw M (length v)
               (λ i mi res, alter (λ y, y [+] js_cell v i [*] js_cell mi j) j res)).
      lia.
Qed.

Lemma identity_matrix_eq (n : nat) :
  identity_matrix n = mk_matrix n n (λ i j, if bool_decide (i = j) then rI else rO).
Proof.
  unfold identity_matrix, mk_matrix. rewrite imap_replicate.
  apply list_fmap_ext; intros _ i _.
  apply (imap_replicate n (λ j, if bool_decide (i = j) then rI else rO) rO).
Qed.

Lemma generateTransitionMatrix_eq (N : nat) (p : R) :
  generateTransitionMatrix N p = mk_matrix (N + 1) (N + 1) (transition_entry N p).
Proof.
  unfold generateTransitionMatrix.
  erewrite for_range_ext; last first.
  { intros i m _.
    instantiate (1 := λ i m, alter (λ row,
      if (i =? 0) || (i =? N) then <[i := rI]> row
      else <[i - 1 := rI [-] p]> (<[i + 1 := p]> row)) i m).
    cbv beta. unfold set2. destruct ((i =? 0) || (i =? N)); [done|].
    by rewrite list_alter_alter_eq. }
  rewrite for_range_sweep.
  apply list_eq; intros i.
  rewrite list_lookup_imap, lookup_mk_matrix. case_decide as Hi.
  - rewrite lookup_replicate_2 by done. simpl. f_equal.
    apply list_eq; intros j. rewrite lookup_mk_vector.
    unfold transition_entry.
    destruct ((i =? 0) || (i =? N)) eqn:Hb.
    + rewrite list_lookup_insert, length_replicate.
      repeat (case_decide || case_bool_decide); try lia; try done.
      * by rewrite lookup_replicate_2 by done.
      * by rewrite (proj1 (lookup_replicate_None _ rO j)) by lia.
    + apply orb_false_iff in Hb as [H0%Nat.eqb_neq HN%Nat.eqb_neq].
      rewrite !list_lookup_insert, length_insert, length_replicate.
      repeat (case_decide || case_bool_decide); try lia; try done.
      * by rewrite lookup_replicate_2 by done.
      * by rewrite (proj1 (lookup_replicate_None _ rO j)) by lia.
  - by rewrite (proj1 (lookup_replicate_None _ _ i)) by lia.
Qed.

(** ** Algebra of sums and products

    From here on, up to the part on doubles, the numbers form a
    commutative ring: exact arithmetic. *)

Context (Rth : ring_theory rO rI radd rmul rsub ropp eq).
Add Ring engine_ring : Rth.

Lemma sumf_S (n : nat) (f : nat → R) : sumf (S n) f = sumf n f [+] f n.
Proof. reflexivity. Qed.

Lemma sumf_ext (n : nat) (f g : nat → R) :
  (∀ k, k < n → f k = g k) → sumf n f = sumf n g.
Proof.
  induction n as [|n IH]; intros H; [done|].
  rewrite !sumf_S, IH by (intros; apply H; lia). by rewrite H by lia.
Qed.

Lemma sumf_zero (n : nat) : sumf n (λ _, rO) = rO.
Proof. induction n as [|n IH]; [done|]. rewrite sumf_S, IH. ring. Qed.

Lemma sumf_add (n : nat) (f g : nat → R) :
  sumf n (λ k, f k [+] g k) = sumf n f [+] sumf n g.
Proof. induction n as [|n IH]; [simpl; unfold sumf; simpl; ring|]. rewrite !sumf_S, IH. ring. Qed.

Lemma sumf_mul_l (n : nat) (c : R) (f : nat → R) :
  sumf n (λ k, c [*] f k) = c [*] sumf n f.
Proof. induction n as [|n IH]; [unfold sumf; simpl; ring|]. rewrite !sumf_S, IH. ring. Qed.

Lemma sumf_mul_r (n : nat) (c : R) (f : nat → R) :
  sumf n (λ k, f k [*] c) = sumf n f [*] c.
Proof. induction n as [|n IH]; [unfold sumf; simpl; ring|]. rewrite !sumf_S, IH. ring. Qed.

Lemma sumf_swap (n m : nat) (f : nat → nat → R) :
  sumf n (λ i, sumf m (λ j, f i j)) = sumf m (λ j, sumf n (λ i, f i j)).
Proof.
  induction n as [|n IH].
  - symmetry. apply (sumf_zero m).
  - rewrite sumf_S, IH, <- sumf_add. apply sumf_ext; intros j _.
    by rewrite sumf_S.
Qed.

(** A sum against a row of the identity picks one term. *)
Lemma sumf_delta_l (n i : nat) (f : nat → R) :
  i < n →
  sumf n (λ k, (if bool_decide (i = k) then rI else rO) [*] f k) = f i.
Proof.
  induction n as [|n IH]; intros Hi; [lia|]. rewrite sumf_S.
  destruct (decide (i = n)) as [->|Hne].
  - rewrite bool_decide_eq_true_2 by done.
    rewrite (sumf_ext n _ (λ _, rO)).
    + rewrite sumf_zero. ring.
    + intros k Hk. rewrite bool_decide_eq_false_2 by lia. ring.
  - rewrite IH by lia. rewrite bool_decide_eq_false_2 by done. ring.
Qed.

Lemma sumf_delta_r (n j : nat) (f : nat → R) :
  j < n →
  sumf n (λ k, f k [*] (if bool_decide (k = j) then rI else rO)) = f j.
Proof.
  intros Hj. rewrite <- (sumf_delta_l n j f Hj).
  apply sumf_ext; intros k _.
  destruct (decide (k = j)) as [->|Hne].
  - rewrite !bool_decide_eq_true_2 by done. ring.
  - rewrite !bool_decide_eq_false_2 by done. ring.
Qed.

(** *** Entries and shapes *)

Lemma entry_mk_matrix (r c : nat) (f : nat → nat → R) (i j : nat) :
  i < r → j < c → entry (mk_matrix r c f) i j = f i j.
Proof.
  intros Hi Hj. unfold entry, js_cell.
  rewrite lookup_mk_matrix, decide_True by done. simpl.
  by rewrite lookup_mk_vector, decide_True by done.
Qed.

Lemma js_cell_mk_vector (c : nat) (f : nat → R) (j : nat) :
  j < c → js_cell (mk_vector c f) j = f j.
Proof. intros Hj. unfold js_cell. by rewrite lookup_mk_vector, decide_True. Qed.

Lemma mk_vector_ext (c : nat) (f g : nat → R) :
  (∀ j, j < c → f j = g j) → mk_vector c f = mk_vector c g.
Proof.
  intros H. apply list_eq; intros j. rewrite !lookup_mk_vector.
  case_decide; [|done]. by rewrite H.
Qed.

Lemma mk_matrix_ext (r c : nat) (f g : nat → nat → R) :
  (∀ i j, i < r → j < c → f i j = g i j) → mk_matrix r c f = mk_matrix r c g.
Proof.
  intros H. apply list_eq; intros i. rewrite !lookup_mk_matrix.
  case_decide; [|done]. f_equal. apply mk_vector_ext; auto.
Qed.

Lemma is_matrix_mk_matrix (r c : nat) (f : nat → nat → R) :
  is_matrix r c (mk_matrix r c f).
Proof.
  split; [apply length_mk_matrix|].
  apply Forall_lookup; intros i row. rewrite lookup_mk_matrix.
  case_decide; [|done]. intros [= <-]. apply length_mk_vector.
Qed.

Lemma cols_mk_matrix (r c : nat) (f : nat → nat → R) :
  0 < r → cols (mk_matrix r c f) = c.
Proof.
  intros Hr. unfold cols. rewrite lookup_mk_matrix, decide_True by done.
  apply length_mk_vector.
Qed.

Lemma is_matrix_cols (r c : nat) (M : matrix R) :
  is_matrix r c M → 0 < r → cols M = c.
Proof.
  intros [Hlen Hrows] Hr. unfold cols.
  destruct M as [|m0 M']; [simpl in Hlen; lia|]. simpl.
  by apply Forall_cons in Hrows as [? _].
Qed.

Lemma is_matrix_nonempty (r c : nat) (M : matrix R) :
  is_matrix r c M → 0 < r → M ≠ [].
Proof. intros [Hlen _] Hr ->. simpl in Hlen. lia. Qed.

Lemma vector_eta (v : vector R) : v = mk_vector (length v) (js_cell v).
Proof.
  apply list_eq; intros j. rewrite lookup_mk_vector. unfold js_cell.
  case_decide as Hj.
  - destruct (lookup_lt_is_Some_2 v j Hj) as [x ->]. done.
  - apply lookup_ge_None_2. lia.
Qed.

Lemma matrix_eta (r c : nat) (M : matrix R) :
  is_matrix r c M → M = mk_matrix r c (entry M).
Proof.
  intros [Hlen Hrows]. apply list_eq; intros i. rewrite lookup_mk_matrix.
  case_decide as Hi.
  - assert (i < length M) as Hi' by lia.
    destruct (lookup_lt_is_Some_2 M i Hi') as [row Hrow]. rewrite Hrow.
    f_equal. rewrite (vector_eta row).
    rewrite (Forall_lookup_1 _ _ _ _ Hrows Hrow).
    apply mk_vector_ext; intros j Hj. unfold entry. by rewrite Hrow.
  - apply lookup_ge_None_2. lia.
Qed.

(** *** Products *)

Lemma length_mmul (A B : matrix R) : length (mmul A B) = length A.
Proof. apply length_mk_matrix. Qed.

Lemma is_matrix_mmul (n : nat) (A B : matrix R) :
  0 < n → is_matrix n n A → is_matrix n n B → is_matrix n n (mmul A B).
Proof.
  intros Hn HA HB. unfold mmul.
  rewrite (is_matrix_cols n n B HB Hn), (proj1 HA).
  apply is_matrix_mk_matrix.
Qed.

Lemma mmul_square (n : nat) (A B : matrix R) :
  0 < n → is_matrix n n A → is_matrix n n B →
  mmul A B = mk_matrix n n (λ i j, sumf n (λ k, entry A i k [*] entry B k j)).
Proof.
  intros Hn HA HB. unfold mmul.
  by rewrite (is_matrix_cols n n A HA Hn), (is_matrix_cols n n B HB Hn), (proj1 HA).
Qed.

Lemma mmul_assoc (n : nat) (A B C : matrix R) :
  0 < n → is_matrix n n A → is_matrix n n B → is_matrix n n C →
  mmul (mmul A B) C = mmul A (mmul B C).
Proof.
  intros Hn HA HB HC.
  rewrite (mmul_square n (mmul A B) C), (mmul_square n A (mmul B C))
    by auto using is_matrix_mmul.
  rewrite (mmul_square n A B), (mmul_square n B C) by done.
  apply mk_matrix_ext; intros i j Hi Hj.
  rewrite (sumf_ext n _
    (λ k, sumf n (λ l, entry A i l [*] (entry B l k [*] entry C k j)))).
  2:{ intros k Hk. rewrite entry_mk_matrix by done.
      rewrite <- sumf_mul_r. apply sumf_ext; intros l _. ring. }
  rewrite sumf_swap. apply sumf_ext; intros l Hl.
  rewrite entry_mk_matrix by done. by rewrite sumf_mul_l.
Qed.

Lemma is_matrix_identity (n : nat) : is_matrix n n (identity_matrix n).
Proof. rewrite identity_matrix_eq. apply is_matrix_mk_matrix. Qed.

Lemma mmul_identity_l (n : nat) (M : matrix R) :
  0 < n → is_matrix n n M → mmul (identity_matrix n) M = M.
Proof.
  intros Hn HM.
  rewrite (mmul_square n) by auto using is_matrix_identity.
  etransitivity; [|symmetry; apply (matrix_eta n n M HM)].
  apply mk_matrix_ext; intros i j Hi Hj.
  rewrite (sumf_ext n _
    (λ k, (if bool_decide (i = k) then rI else rO) [*] entry M k j)).
  - apply (sumf_delta_l n i (λ k, entry M k j) Hi).
  - intros k Hk. rewrite identity_matrix_eq. by rewrite entry_mk_matrix.
Qed.

Lemma mmul_identity_r (n : nat) (M : matrix R) :
  0 < n → is_matrix n n M → mmul M (identity_matrix n) = M.
Proof.
  intros Hn HM.
  rewrite (mmul_square n) by auto using is_matrix_identity.
  etransitivity; [|symmetry; apply (matrix_eta n n M HM)].
  apply mk_matrix_ext; intros i j Hi Hj.
  rewrite (sumf_ext n _
    (λ k, entry M i k [*] (if bool_decide (k = j) then rI else rO))).
  - apply (sumf_delta_r n j (λ k, entry M i k) Hj).
  - intros k Hk. rewrite identity_matrix_eq. by rewrite entry_mk_matrix.
Qed.

(** *** Powers *)

Lemma is_matrix_mat_pow (n : nat) (M : matrix R) (k : nat) :
  0 < n → is_matrix n n M → is_matrix n n (mat_pow M k).
Proof.
  intros Hn HM. induction k as [|k IH]; simpl.
  - rewrite (proj1 HM). apply is_matrix_identity.
  - by apply is_matrix_mmul.
Qed.

Lemma mat_pow_1 (n : nat) (M : matrix R) :
  0 < n → is_matrix n n M → mat_pow M 1 = M.
Proof. intros Hn HM. simpl. rewrite (proj1 HM). by apply mmul_identity_l. Qed.

Lemma mat_pow_add (n : nat) (M : matrix R) (a b : nat) :
  0 < n → is_matrix n n M →
  mat_pow M (a + b) = mmul (mat_pow M a) (mat_pow M b).
Proof.
  intros Hn HM. induction b as [|b IH].
  - rewrite Nat.add_0_r. simpl. rewrite (proj1 HM).
    symmetry. apply mmul_identity_r; auto using is_matrix_mat_pow.
  - rewrite Nat.add_succ_r. simpl. rewrite IH.
    apply (mmul_assoc n); auto using is_matrix_mat_pow.
Qed.

Lemma mat_pow_square (n : nat) (M : matrix R) (k : nat) :
  0 < n → is_matrix n n M → mat_pow (mmul M M) k = mat_pow M (2 * k).
Proof.
  intros Hn HM. induction k as [|k IH].
  - simpl. by rewrite length_mmul.
  - replace (2 * S k) with (2 * k + 2) by lia.
    rewrite (mat_pow_add n) by done. simpl mat_pow at 1. rewrite IH.
    f_equal. simpl. rewrite (proj1 HM). by rewrite (mmul_identity_l n).
Qed.

Lemma mat_pow_identity (n k : nat) :
  0 < n → mat_pow (identity_matrix n) k = identity_matrix n.
Proof.
  intros Hn. induction k as [|k IH]; simpl.
  - by rewrite (proj1 (is_matrix_identity n)).
  - rewrite IH. apply mmul_identity_l; auto using is_matrix_identity.
Qed.

(** ** The exponent arithmetic of the loop *)

Lemma Qlt_bool_iff (x y : Q) : Qlt_bool x y = true ↔ (x < y)%Q.
Proof.
  unfold Qlt_bool. rewrite negb_true_iff.
  rewrite <- not_true_iff_false, Qle_bool_iff.
  split; [apply Qnot_le_lt|apply Qlt_not_le].
Qed.

Lemma Qfloor_half (q : Q) : Qfloor (q / inject_Z 2) = (Qfloor q / 2)%Z.
Proof.
  destruct q as [a b]. unfold Qdiv, Qmult, Qinv, Qfloor; simpl.
  rewrite Z.mul_1_r, Pos2Z.inj_mul. by rewrite Z.div_div by lia.
Qed.

Lemma Qtrunc_half (q : Q) :
  (0 < q)%Q → Qtrunc (q / inject_Z 2) = (Qfloor q / 2)%Z.
Proof.
  intros Hq. rewrite <- Qfloor_half.
  destruct q as [a b]. unfold Qlt in Hq. simpl in Hq.
  unfold Qtrunc, Qdiv, Qmult, Qinv, Qfloor; simpl.
  apply Z.quot_div_nonneg; lia.
Qed.

Lemma is_whole_spec (q : Q) : is_whole q = true ↔ q == inject_Z (Qfloor q).
Proof. unfold is_whole. apply Qeq_bool_iff. Qed.

(** [exp % 2 === 1] holds exactly for the odd whole numbers. *)
Lemma power_test (q : Q) :
  (0 < q)%Q →
  js_strict_eq (js_mod (JNum q) (js_int 2)) (js_int 1)
  = is_whole q && Z.odd (Qfloor q).
Proof.
  intros Hq. unfold js_mod, js_int, js_strict_eq.
  change (Qeq_bool (inject_Z 2) 0) with false. cbv iota.
  rewrite Qtrunc_half by done.
  apply eq_true_iff_eq. rewrite andb_true_iff, is_whole_spec, Qeq_bool_iff.
  set (h := (Qfloor q / 2)%Z).
  split.
  - intros Heq.
    assert (q == inject_Z (2 * h + 1)) as Hw.
    { rewrite inject_Z_plus, inject_Z_mult. rewrite <- Heq. ring. }
    assert (Qfloor q = 2 * h + 1)%Z as Hf.
    { rewrite Hw. apply Qfloor_Z. }
    split.
    + by rewrite Hf.
    + rewrite Hf, Z.add_comm, Z.odd_add_mul_2. done.
  - intros [Hw Hodd].
    assert (Qfloor q = 2 * h + 1)%Z as Hf.
    { unfold h. rewrite (Z.div_mod (Qfloor q) 2) at 1 by lia.
      rewrite Zmod_odd, Hodd. done. }
    rewrite Hw at 1. rewrite Hf.
    rewrite inject_Z_plus, inject_Z_mult. ring.
Qed.

(** [Math.floor(exp / 2)] is the integer half of the integer part. *)
Lemma power_next (q : Q) :
  js_floor (js_div (JNum q) (js_int 2)) = js_int (Qfloor q / 2).
Proof.
  unfold js_div, js_int. change (Qeq_bool (inject_Z 2) 0) with false. cbv iota.
  unfold js_floor. by rewrite Qfloor_half.
Qed.

(** ** The squaring loop *)

Lemma matrixMultiply_square (n : nat) (A B : matrix R) :
  0 < n → is_matrix n n A → is_matrix n n B →
  matrixMultiply A B = Ret (mmul A B).
Proof.
  intros Hn HA HB. rewrite matrixMultiply_eq.
  rewrite decide_False by eauto using is_matrix_nonempty.
  rewrite decide_False by eauto using is_matrix_nonempty.
  rewrite decide_True; [done|].
  by rewrite (is_matrix_cols n n A HA Hn), (proj1 HB).
Qed.

Lemma power_loop_stop (fuel : nat) (result base : matrix R) (exp : jsnum) :
  js_gt exp (js_int 0) = false → power_loop fuel result base exp = Ret result.
Proof. intros H. destruct fuel; cbn [power_loop]; by rewrite H. Qed.

(** One pass through the loop for a positive finite exponent. *)
Lemma power_loop_pass (fuel : nat) (result base : matrix R) (q : Q) :
  (0 < q)%Q →
  power_loop (S fuel) result base (JNum q) =
    result' ← (if is_whole q && Z.odd (Qfloor q)
               then matrixMultiply result base else Ret result);
    base' ← matrixMultiply base base;
    power_loop fuel result' base' (js_int (Qfloor q / 2)).
Proof.
  intros Hq. cbn [power_loop].
  replace (js_gt (JNum q) (js_int 0)) with true
    by (symmetry; by apply Qlt_bool_iff).
  by rewrite power_test, power_next.
Qed.

(** With enough fuel the loop multiplies the result by the power of the
    base. *)
Lemma power_loop_whole (n fuel : nat) (result base : matrix R) (z : Z) :
  0 < n → is_matrix n n result → is_matrix n n base →
  (0 ≤ z < 2 ^ Z.of_nat fuel)%Z →
  power_loop fuel result base (js_int z)
  = Ret (mmul result (mat_pow base (Z.to_nat z))).
Proof.
  intros Hn. revert result base z.
  induction fuel as [|fuel IH]; intros result base z Hr Hb Hz.
  - assert (z = 0)%Z as -> by (simpl in Hz; lia).
    rewrite power_loop_stop by done. simpl. rewrite (proj1 Hb).
    by rewrite mmul_identity_r.
  - destruct (decide (z = 0%Z)) as [->|Hnz].
    { rewrite power_loop_stop by done. simpl. rewrite (proj1 Hb).
      by rewrite mmul_identity_r. }
    unfold js_int. rewrite power_loop_pass.
    2:{ change 0%Q with (inject_Z 0). rewrite <- Zlt_Qlt. lia. }
    rewrite Qfloor_Z.
    replace (is_whole (inject_Z z)) with true.
    2:{ symmetry. apply is_whole_spec. by rewrite Qfloor_Z. }
    rewrite (matrixMultiply_square n base base) by done.
    assert (0 ≤ z / 2 < 2 ^ Z.of_nat fuel)%Z as Hhalf.
    { split; [apply Z.div_pos; lia|].
      apply Z.div_lt_upper_bound; [lia|].
      rewrite Nat2Z.inj_succ, Z.pow_succ_r in Hz by lia. lia. }
    assert (z = 2 * (z / 2) + (if Z.odd z then 1 else 0))%Z as Hsplit.
    { rewrite (Z.div_mod z 2) at 1 by lia. by rewrite Zmod_odd. }
    assert (is_matrix n n (mmul base base)) as Hbb by by apply is_matrix_mmul.
    destruct (Z.odd z) eqn:Hodd; cbn [andb mbind outcome_bind].
    + rewrite (matrixMultiply_square n result base) by done.
      cbn [mbind outcome_bind].
      rewrite IH by auto using is_matrix_mmul. f_equal.
      rewrite (mat_pow_square n) by done.
      replace (Z.to_nat z) with (1 + 2 * Z.to_nat (z / 2)) by lia.
      rewrite (mat_pow_add n), (mat_pow_1 n) by done.
      apply (mmul_assoc n); auto using is_matrix_mat_pow.
    + rewrite IH by done. f_equal.
      rewrite (mat_pow_square n) by done.
      by replace (Z.to_nat z) with (2 * Z.to_nat (z / 2)) by lia.
Qed.

Lemma power_fuel_enough (q : Q) :
  (0 ≤ Qfloor q)%Z →
  (0 ≤ Qfloor q / 2 < 2 ^ Z.of_nat (Z.to_nat (Z.log2 (Qfloor q))))%Z.
Proof.
  intros Hf. split; [apply Z.div_pos; lia|].
  rewrite Z2Nat.id by apply Z.log2_nonneg.
  destruct (decide (Qfloor q = 0%Z)) as [->|Hnz]; [done|].
  apply Z.div_lt_upper_bound; [lia|].
  rewrite <- Z.pow_succ_r by apply Z.log2_nonneg.
  apply Z.log2_spec. lia.
Qed.

(** [matrixPower] for every finite exponent. *)
Lemma matrixPower_finite (n : nat) (M : matrix R) (q : Q) :
  0 < n → is_matrix n n M →
  matrixPower M (JNum q) = Ret (mat_pow M (power_exponent q)).
Proof.
  intros Hn HM. unfold matrixPower, power_exponent, js_strict_eq, js_int.
  rewrite list_fmap_id.
  destruct (Qeq_bool q (inject_Z 0)) eqn:H0.
  { apply Qeq_bool_iff in H0.
    replace (Qle_bool q 0) with true; [done|].
    symmetry. apply Qle_bool_iff. rewrite H0. apply Qle_refl. }
  destruct (Qeq_bool q (inject_Z 1)) eqn:H1.
  { apply Qeq_bool_iff in H1.
    replace (Qle_bool q 0) with false.
    2:{ symmetry. apply not_true_iff_false. rewrite Qle_bool_iff, H1.
        intros H. apply (Qle_not_lt _ _ H). reflexivity. }
    replace (is_whole q) with true.
    2:{ symmetry. apply is_whole_spec. rewrite H1. by rewrite Qfloor_Z. }
    rewrite H1, Qfloor_Z. by rewrite (mat_pow_1 n). }
  destruct (Qle_bool q 0) eqn:Hle.
  { rewrite power_loop_stop; [done|].
    apply not_true_iff_false. unfold js_gt, js_lt, js_int.
    rewrite Qlt_bool_iff. apply Qle_not_lt. by apply Qle_bool_iff. }
  assert (0 < q)%Q as Hq.
  { apply Qnot_le_lt. rewrite <- Qle_bool_iff. by rewrite Hle. }
  assert (0 ≤ Qfloor q)%Z as Hf.
  { rewrite <- (Qfloor_Z 0). apply Qfloor_resp_le. by apply Qlt_le_weak. }
  assert (is_matrix n n (identity_matrix (length M))) as HI
    by (rewrite (proj1 HM); apply is_matrix_identity).
  unfold power_fuel. rewrite power_loop_pass by done.
  rewrite (matrixMultiply_square n M M) by done.
  assert (Qfloor q = 2 * (Qfloor q / 2) + (if Z.odd (Qfloor q) then 1 else 0))%Z
    as Hsplit.
  { rewrite (Z.div_mod (Qfloor q) 2) at 1 by lia. by rewrite Zmod_odd. }
  destruct (is_whole q && Z.odd (Qfloor q)) eqn:Htest.
  - apply andb_true_iff in Htest as [Hw Hodd]. rewrite Hw, Hodd in *.
    rewrite (matrixMultiply_square n _ M) by done.
    cbn [mbind outcome_bind].
    rewrite (power_loop_whole n)
      by (auto using is_matrix_mmul, power_fuel_enough).
    f_equal. rewrite (proj1 HM), (mmul_identity_l n), (mat_pow_square n) by done.
    replace (Z.to_nat (Qfloor q)) with (1 + 2 * Z.to_nat (Qfloor q / 2)) by lia.
    by rewrite (mat_pow_add n), (mat_pow_1 n) by done.
  - cbn [mbind outcome_bind].
    rewrite (power_loop_whole n)
      by (auto using is_matrix_mmul, power_fuel_enough).
    f_equal. rewrite (proj1 HM), (mat_pow_square n) by done.
    rewrite (mmul_identity_l n) by auto using is_matrix_mat_pow.
    destruct (is_whole q); [|done].
    simpl in Htest. rewrite Htest in Hsplit.
    by replace (Z.to_nat (Qfloor q)) with (2 * Z.to_nat (Qfloor q / 2)) by lia.
Qed.

(** [matrixPower] for a whole non-negative exponent. *)
Lemma matrixPower_whole (n : nat) (M : matrix R) (k : nat) :
  0 < n → is_matrix n n M →
  matrixPower M (js_int (Z.of_nat k)) = Ret (mat_pow M k).
Proof.
  intros Hn HM. unfold js_int. rewrite (matrixPower_finite n) by done.
  do 2 f_equal. unfold power_exponent.
  replace (is_whole (inject_Z (Z.of_nat k))) with true.
  2:{ symmetry. apply is_whole_spec. by rewrite Qfloor_Z. }
  rewrite Qfloor_Z, Nat2Z.id.
  destruct (Qle_bool (inject_Z (Z.of_nat k)) 0) eqn:Hle; [|done].
  apply Qle_bool_iff in Hle. change 0%Q with (inject_Z 0) in Hle.
  rewrite <- Zle_Qle in Hle. lia.
Qed.

(** *** Termination of the loop

    The fuel is a device of the model.  These lemmas show that it does
    not decide any result: more fuel never changes an outcome, and for a
    finite exponent the loop has always finished within [power_fuel]. *)

Lemma matrixMultiply_finishes (A B : matrix R) : matrixMultiply A B ≠ Diverge.
Proof. rewrite matrixMultiply_eq. repeat case_decide; done. Qed.

Lemma power_loop_more_fuel (fuel fuel' : nat) (result base : matrix R)
    (exp : jsnum) :
  fuel ≤ fuel' →
  power_loop fuel result base exp ≠ Diverge →
  power_loop fuel' result base exp = power_loop fuel result base exp.
Proof.
  revert fuel' result base exp.
  induction fuel as [|fuel IH]; intros fuel' result base exp Hle Hfin.
  - destruct (js_gt exp (js_int 0)) eqn:Hgt.
    + cbn [power_loop] in Hfin. by rewrite Hgt in Hfin.
    + by rewrite !power_loop_stop.
  - destruct fuel' as [|fuel']; [lia|].
    cbn [power_loop] in *.
    destruct (js_gt exp (js_int 0)); [|done].
    destruct (if js_strict_eq (js_mod exp (js_int 2)) (js_int 1)
              then matrixMultiply result base else Ret result)
      as [result'| |]; cbn [mbind outcome_bind] in *; try done.
    destruct (matrixMultiply base base) as [base'| |];
      cbn [mbind outcome_bind] in *; try done.
    apply IH; [lia|done].
Qed.

Lemma power_loop_whole_finishes (fuel : nat) (result base : matrix R) (z : Z) :
  (0 ≤ z < 2 ^ Z.of_nat fuel)%Z →
  power_loop fuel result base (js_int z) ≠ Diverge.
Proof.
  revert result base z.
  induction fuel as [|fuel IH]; intros result base z Hz.
  - assert (z = 0)%Z as -> by (simpl in Hz; lia).
    by rewrite power_loop_stop.
  - destruct (decide (z = 0%Z)) as [->|Hnz]; [by rewrite power_loop_stop|].
    unfold js_int. rewrite power_loop_pass.
    2:{ change 0%Q with (inject_Z 0). rewrite <- Zlt_Qlt. lia. }
    rewrite Qfloor_Z.
    assert (0 ≤ z / 2 < 2 ^ Z.of_nat fuel)%Z as Hhalf.
    { split; [apply Z.div_pos; lia|].
      apply Z.div_lt_upper_bound; [lia|].
      rewrite Nat2Z.inj_succ, Z.pow_succ_r in Hz by lia. lia. }
    pose proof (matrixMultiply_finishes result base) as Hrb.
    pose proof (matrixMultiply_finishes base base) as Hbb.
    destruct (is_whole (inject_Z z) && Z.odd z);
      [destruct (matrixMultiply result base) as [result'| |]|];
      cbn [mbind outcome_bind]; try done;
      destruct (matrixMultiply base base) as [base'| |];
      cbn [mbind outcome_bind]; try done; by apply IH.
Qed.

(** For a finite exponent [matrixPower] returns or throws, whatever the
    arrays are. *)
Lemma matrixPower_finishes (M : matrix R) (q : Q) :
  matrixPower M (JNum q) ≠ Diverge.
Proof.
  unfold matrixPower.
  destruct (js_strict_eq (JNum q) (js_int 0)); [done|].
  destruct (js_strict_eq (JNum q) (js_int 1)); [done|].
  destruct (Qlt_bool 0 q) eqn:Hq.
  - apply Qlt_bool_iff in Hq. unfold power_fuel.
    rewrite power_loop_pass by done.
    assert (0 ≤ Qfloor q)%Z as Hf.
    { rewrite <- (Qfloor_Z 0). apply Qfloor_resp_le. by apply Qlt_le_weak. }
    set (I := identity_matrix (length M)). set (B := (λ row, row) <$> M).
    pose proof (matrixMultiply_finishes I B) as Hrb.
    pose proof (matrixMultiply_finishes B B) as Hbb.
    destruct (is_whole q && Z.odd (Qfloor q));
      [destruct (matrixMultiply I B) as [result'| |]|];
      cbn [mbind outcome_bind]; try done;
      destruct (matrixMultiply B B) as [base'| |];
      cbn [mbind outcome_bind]; try done;
      by apply power_loop_whole_finishes, power_fuel_enough.
  - by rewrite power_loop_stop.
Qed.

(** An exponent that is NaN or minus infinity is neither 0 nor 1 and does
    not enter the loop. *)
Lemma matrixPower_NaN (M : matrix R) :
  matrixPower M JNaN = Ret (identity_matrix (length M)).
Proof. reflexivity. Qed.

Lemma matrixPower_NegInf (M : matrix R) :
  matrixPower M JNegInf = Ret (identity_matrix (length M)).
Proof. reflexivity. Qed.

(** With the exponent plus infinity the loop squares the base for ever. *)
Lemma power_loop_PosInf (n fuel : nat) (result base : matrix R) :
  0 < n → is_matrix n n base →
  power_loop fuel result base JPosInf = Diverge.
Proof.
  intros Hn. revert result base.
  induction fuel as [|fuel IH]; intros result base Hb; [done|].
  cbn [power_loop]. change (js_gt JPosInf (js_int 0)) with true.
  change (js_strict_eq (js_mod JPosInf (js_int 2)) (js_int 1)) with false.
  cbv iota. cbn [mbind outcome_bind].
  rewrite (matrixMultiply_square n base base) by done.
  cbn [mbind outcome_bind].
  change (js_floor (js_div JPosInf (js_int 2))) with JPosInf.
  apply IH. by apply is_matrix_mmul.
Qed.

(** ** Vector times matrix *)

Lemma length_vmul (v : vector R) (M : matrix R) : length (vmul v M) = cols M.
Proof. apply length_mk_vector. Qed.

Lemma vmul_identity (n : nat) (v : vector R) :
  0 < n → length v = n → vmul v (identity_matrix n) = v.
Proof.
  intros Hn Hv. unfold vmul.
  rewrite (is_matrix_cols n n _ (is_matrix_identity n) Hn), Hv.
  etransitivity; [|symmetry; rewrite <- Hv; apply vector_eta].
  rewrite Hv. apply mk_vector_ext; intros j Hj.
  rewrite (sumf_ext n _
    (λ i, js_cell v i [*] (if bool_decide (i = j) then rI else rO))).
  - apply (sumf_delta_r n j (js_cell v) Hj).
  - intros i Hi. rewrite identity_matrix_eq. by rewrite entry_mk_matrix.
Qed.

Lemma vmul_mmul (n : nat) (v : vector R) (A B : matrix R) :
  0 < n → length v = n → is_matrix n n A → is_matrix n n B →
  vmul (vmul v A) B = vmul v (mmul A B).
Proof.
  intros Hn Hv HA HB. unfold vmul at 1 3.
  rewrite length_vmul.
  rewrite (is_matrix_cols n n _ (is_matrix_mmul n A B Hn HA HB) Hn).
  rewrite (is_matrix_cols n n A HA Hn), (is_matrix_cols n n B HB Hn), Hv.
  apply mk_vector_ext; intros j Hj.
  rewrite (sumf_ext n _
    (λ k, sumf n (λ i, js_cell v i [*] (entry A i k [*] entry B k j)))).
  2:{ intros k Hk. unfold vmul.
      rewrite (is_matrix_cols n n A HA Hn), Hv.
      rewrite js_cell_mk_vector by done.
      rewrite <- sumf_mul_r. apply sumf_ext; intros i _. ring. }
  rewrite sumf_swap. apply sumf_ext; intros i Hi.
  rewrite (mmul_square n A B) by done.
  rewrite entry_mk_matrix by done. by rewrite sumf_mul_l.
Qed.

Lemma vectorMatrixMultiply_square (n : nat) (v : vector R) (M : matrix R) :
  0 < n → length v = n → is_matrix n n M →
  vectorMatrixMultiply v M = Ret (vmul v M).
Proof.
  intros Hn Hv HM. rewrite vectorMatrixMultiply_eq.
  rewrite decide_False by eauto using is_matrix_nonempty.
  rewrite decide_True; [done|]. left. rewrite (proj1 HM). lia.
Qed.

Lemma length_vmul_square (n : nat) (v : vector R) (M : matrix R) :
  0 < n → is_matrix n n M → length (vmul v M) = n.
Proof. intros Hn HM. by rewrite length_vmul, (is_matrix_cols n n M HM Hn). Qed.


(** ** The session *)

Lemma coerce_steps_whole (k : nat) :
  1 ≤ k → coerce_steps (js_int (Z.of_nat k)) = js_int (Z.of_nat k).
Proof.
  intros Hk. unfold coerce_steps, js_int, js_lt, js_isNaN.
  replace (Qlt_bool (inject_Z (Z.of_nat k)) (inject_Z 1)) with false; [done|].
  symmetry. apply not_true_iff_false. rewrite Qlt_bool_iff, <- Zlt_Qlt. lia.
Qed.

Lemma coerce_steps_not_PosInf (k : jsnum) :
  k ≠ JPosInf → coerce_steps k ≠ JPosInf.
Proof.
  intros Hk. unfold coerce_steps.
  destruct (js_lt k (js_int 1) || js_isNaN k); done.
Qed.

Lemma advanceBySteps_finite (n : nat) (v : vector R) (M : matrix R) (q : Q) :
  0 < n → length v = n → is_matrix n n M →
  advanceBySteps v M (JNum q) = Ret (vmul v (mat_pow M (power_exponent q))).
Proof.
  intros Hn Hv HM. unfold advanceBySteps.
  rewrite (matrixPower_finite n) by done. cbn [mbind outcome_bind].
  apply (vectorMatrixMultiply_square n); auto using is_matrix_mat_pow.
Qed.

(** What [advanceBySteps] returns, when it returns, has the length of
    the vector it was given. *)
Lemma advanceBySteps_length (n : nat) (v v' : vector R) (M : matrix R) (k : jsnum) :
  0 < n → length v = n → is_matrix n n M →
  advanceBySteps v M k = Ret v' → length v' = n.
Proof.
  intros Hn Hv HM Hret. destruct k as [q| | |].
  - rewrite (advanceBySteps_finite n) in Hret by done.
    injection Hret as <-. apply length_vmul_square; auto using is_matrix_mat_pow.
  - unfold advanceBySteps, matrixPower in Hret.
    change (js_strict_eq JPosInf (js_int 0)) with false in Hret.
    change (js_strict_eq JPosInf (js_int 1)) with false in Hret.
    cbv iota in Hret. rewrite list_fmap_id in Hret.
    by rewrite (power_loop_PosInf n) in Hret.
  - unfold advanceBySteps in Hret. rewrite matrixPower_NegInf in Hret.
    cbn [mbind outcome_bind] in Hret. rewrite (proj1 HM) in Hret.
    rewrite (vectorMatrixMultiply_square n) in Hret
      by auto using is_matrix_identity.
    injection Hret as <-. apply length_vmul_square; auto using is_matrix_identity.
  - unfold advanceBySteps in Hret. rewrite matrixPower_NaN in Hret.
    cbn [mbind outcome_bind] in Hret. rewrite (proj1 HM) in Hret.
    rewrite (vectorMatrixMultiply_square n) in Hret
      by auto using is_matrix_identity.
    injection Hret as <-. apply length_vmul_square; auto using is_matrix_identity.
Qed.

Lemma length_generateInitialVector (N : nat) (n : Z) :
  length (generateInitialVector N n) = N + 1.
Proof.
  unfold generateInitialVector.
  destruct ((0 <=? n)%Z && (n <=? Z.of_nat N)%Z).
  - by rewrite length_insert, length_replicate.
  - by rewrite length_replicate.
Qed.

Lemma is_matrix_generateTransitionMatrix (N : nat) (p : R) :
  is_matrix (N + 1) (N + 1) (generateTransitionMatrix N p).
Proof. rewrite generateTransitionMatrix_eq. apply is_matrix_mk_matrix. Qed.

(** The invariant of a ready session. *)
Lemma Ready_shape (s : session) :
  Ready s →
  1 ≤ N_global s
  ∧ transitionMatrix s = generateTransitionMatrix (N_global s) (p_global s)
  ∧ length (currentVector s) = N_global s + 1.
Proof.
  induction 1 as [N n p HN|k s s' _ (HN & HM & Hv) Hadv].
  - simpl. split_and!; [done|done|apply length_generateInitialVector].
  - unfold advanceSteps in Hadv.
    destruct (advanceBySteps (currentVector s) (transitionMatrix s) (coerce_steps k))
      as [v'| |] eqn:Hv'; cbn [mbind outcome_bind] in Hadv; try done.
    injection Hadv as <-. simpl. split_and!; [done|done|].
    apply (advanceBySteps_length (N_global s + 1)) in Hv'; [done|lia|done|].
    rewrite HM. apply is_matrix_generateTransitionMatrix.
Qed.

(** ** Rows of the transition matrix *)

Lemma vsum_mk_vector (c : nat) (f : nat → R) : vsum (mk_vector c f) = sumf c f.
Proof.
  unfold vsum. rewrite length_mk_vector.
  apply sumf_ext; intros j Hj. by apply js_cell_mk_vector.
Qed.

Lemma sumf_transition_entry (N : nat) (p : R) (i : nat) :
  i ≤ N → sumf (N + 1) (transition_entry N p i) = rI.
Proof.
  intros Hi. unfold transition_entry.
  destruct ((i =? 0) || (i =? N)) eqn:Hb.
  - rewrite (sumf_ext _ _ (λ j, rI [*] (if bool_decide (j = i) then rI else rO))).
    + apply (sumf_delta_r (N + 1) i (λ _, rI)). lia.
    + intros j _. case_bool_decide; ring.
  - apply orb_false_iff in Hb as [H0%Nat.eqb_neq HN%Nat.eqb_neq].
    rewrite (sumf_ext _ _
      (λ j, p [*] (if bool_decide (j = i + 1) then rI else rO)
            [+] (rI [-] p) [*] (if bool_decide (j = i - 1) then rI else rO))).
    + rewrite sumf_add.
      rewrite (sumf_delta_r (N + 1) (i + 1) (λ _, p)) by lia.
      rewrite (sumf_delta_r (N + 1) (i - 1) (λ _, rI [-] p)) by lia.
      ring.
    + intros j _. repeat case_bool_decide; try lia; ring.
Qed.

(** ** The claims *)


(** C2 (as amended).  For N >= 1 and every p, the matrix built is
    (N+1)x(N+1), every row sums to 1, rows 0 and N are one-hot at the
    diagonal, and every interior row i holds 1-p in column i-1, p in
    column i+1 and zero in every other column; these are exactly two
    nonzero entries when p and 1-p are both different from zero. *)
Theorem generateTransitionMatrix_rows (N : nat) (p : R) :
  1 ≤ N →
  let M := generateTransitionMatrix N p in
  is_matrix (N + 1) (N + 1) M
  ∧ (∀ i row, M !! i = Some row → vsum row = rI)
  ∧ (∀ j, j ≤ N → entry M 0 j = if bool_decide (j = 0) then rI else rO)
  ∧ (∀ j, j ≤ N → entry M N j = if bool_decide (j = N) then rI else rO)
  ∧ (∀ i j, 0 < i < N → j ≤ N →
       entry M i j = if bool_decide (j = i - 1) then rI [-] p
                     else if bool_decide (j = i + 1) then p
                     else rO)
  ∧ (p ≠ rO → rI [-] p ≠ rO →
     ∀ i j, 0 < i < N → j ≤ N →
       entry M i j ≠ rO ↔ j = i - 1 ∨ j = i + 1).
Proof.
  intros HN M.
  assert (∀ i j, i ≤ N → j ≤ N → entry M i j = transition_entry N p i j) as Hentry.
  { intros i j Hi Hj. unfold M. rewrite generateTransitionMatrix_eq.
    apply entry_mk_matrix; lia. }
  split_and!.
  - apply is_matrix_generateTransitionMatrix.
  - intros i row. unfold M. rewrite generateTransitionMatrix_eq, lookup_mk_matrix.
    case_decide as Hi; [|done]. intros [= <-].
    rewrite vsum_mk_vector. apply sumf_transition_entry. lia.
  - intros j Hj. rewrite Hentry by lia. unfold transition_entry. done.
  - intros j Hj. rewrite Hentry by lia. unfold transition_entry.
    by rewrite Nat.eqb_refl, orb_true_r.
  - intros i j Hi Hj. rewrite Hentry by lia. unfold transition_entry.
    replace ((i =? 0) || (i =? N)) with false
      by (symmetry; apply orb_false_iff; split; apply Nat.eqb_neq; lia).
    repeat case_bool_decide; try lia; done.
  - intros Hp Hq i j Hi Hj. rewrite Hentry by lia. unfold transition_entry.
    replace ((i =? 0) || (i =? N)) with false
      by (symmetry; apply orb_false_iff; split; apply Nat.eqb_neq; lia).
    repeat case_bool_decide; split; intros; try lia; try done; auto.
Qed.



(** C9.  For N >= 1 and every integer n, [generateInitialVector] returns
    a vector of length N+1: one-hot with the 1 at index n when
    0 <= n <= N, and all zero when n < 0 or n > N. *)
Theorem generateInitialVector_one_hot (N : nat) (n : Z) :
  1 ≤ N →
  length (generateInitialVector N n) = N + 1
  ∧ ((0 ≤ n ≤ Z.of_nat N)%Z →
       ∀ j, j ≤ N →
         generateInitialVector N n !! j
         = Some (if bool_decide (j = Z.to_nat n) then rI else rO))
  ∧ ((n < 0 ∨ Z.of_nat N < n)%Z →
       generateInitialVector N n = replicate (N + 1) rO).
Proof.
  intros HN. split_and!.
  - apply length_generateInitialVector.
  - intros Hn j Hj. unfold generateInitialVector.
    replace ((0 <=? n)%Z && (n <=? Z.of_nat N)%Z) with true
      by (symmetry; apply andb_true_iff; split; apply Z.leb_le; lia).
    rewrite list_lookup_insert, length_replicate.
    case_decide; case_bool_decide; try lia; try done.
    by rewrite lookup_replicate_2 by lia.
  - intros Hn. unfold generateInitialVector.
    replace ((0 <=? n)%Z && (n <=? Z.of_nat N)%Z) with false; [done|].
    symmetry. apply andb_false_iff.
    destruct Hn; [left|right]; apply Z.leb_gt; lia.
Qed.

(** C10.  For N = 1 the matrix built is the 2x2 identity whatever p is,
    and every advance leaves a vector of length 2 as it is: the one-shot
    advance for every exponent other than plus infinity, and
    [advanceSteps] on every such session. *)
Theorem generateTransitionMatrix_one_is_identity (p : R) :
  generateTransitionMatrix 1 p = [[rI; rO]; [rO; rI]]
  ∧ (∀ (v : vector R) k, length v = 2 → k ≠ JPosInf →
       advanceBySteps v (generateTransitionMatrix 1 p) k = Ret v)
  ∧ (∀ s k, transitionMatrix s = generateTransitionMatrix 1 p →
       length (currentVector s) = 2 → k ≠ JPosInf →
       ∃ s', advanceSteps k s = Ret s' ∧ currentVector s' = currentVector s).
Proof.
  assert (generateTransitionMatrix 1 p = identity_matrix 2) as HI by done.
  assert (∀ (v : vector R) k, length v = 2 → k ≠ JPosInf →
            advanceBySteps v (identity_matrix 2) k = Ret v) as Hadv.
  { intros v k Hv Hk. destruct k as [q| | |]; [|done| |].
    - rewrite (advanceBySteps_finite 2) by auto using is_matrix_identity.
      rewrite mat_pow_identity by lia. by rewrite (vmul_identity 2) by (done || lia).
    - unfold advanceBySteps. rewrite matrixPower_NegInf.
      cbn [mbind outcome_bind].
      rewrite (proj1 (is_matrix_identity 2)).
      rewrite (vectorMatrixMultiply_square 2) by auto using is_matrix_identity.
      by rewrite (vmul_identity 2) by (done || lia).
    - unfold advanceBySteps. rewrite matrixPower_NaN.
      cbn [mbind outcome_bind].
      rewrite (proj1 (is_matrix_identity 2)).
      rewrite (vectorMatrixMultiply_square 2) by auto using is_matrix_identity.
      by rewrite (vmul_identity 2) by (done || lia). }
  split_and!.
  - done.
  - intros v k Hv Hk. rewrite HI. by apply Hadv.
  - intros s k HM Hv Hk. unfold advanceSteps. rewrite HM, HI.
    rewrite Hadv by auto using coerce_steps_not_PosInf.
    cbn [mbind outcome_bind]. eexists. split; done.
Qed.

(** ** The store-level functions *)

Lemma hm_bind_ret {A B : Type} (m : hm A) (f : A → hm B) (h h' : heap) (a : A) :
  m h = (h', Ret a) → (m ≫= f) h = f a h'.
Proof. intros H. unfold mbind, hm_bind. by rewrite H. Qed.

Lemma hm_bind_throw {A B : Type} (m : hm A) (f : A → hm B) (h h' : heap)
    (e : js_error) :
  m h = (h', Throw e) → (m ≫= f) h = (h', Throw e).
Proof. intros H. unfold mbind, hm_bind. by rewrite H. Qed.

Lemma hm_bind_diverge {A B : Type} (m : hm A) (f : A → hm B) (h h' : heap) :
  m h = (h', Diverge) → (m ≫= f) h = (h', Diverge).
Proof. intros H. unfold mbind, hm_bind. by rewrite H. Qed.

(** A matrix of the store stays what it is when the store grows. *)
Lemma h_matrix_prefix (h h' : heap) (m : loc) (M : matrix R) :
  h `prefix_of` h' → h_matrix h m M → h_matrix h' m M.
Proof.
  intros Hpre (rows & Hm & Hrows). exists rows. split.
  - exact (prefix_lookup_Some _ _ _ _ Hm Hpre).
  - eapply Forall2_impl; [exact Hrows|]. intros r row Hr. cbv beta.
    exact (prefix_lookup_Some _ _ _ _ Hr Hpre).
Qed.

Lemma h_matrix_length (h : heap) (m : loc) (M : matrix R) :
  h_matrix h m M → h_length m h = (h, Ret (length M)).
Proof.
  intros (rows & Hm & Hrows). unfold h_length. rewrite Hm.
  by rewrite (Forall2_length _ _ _ Hrows).
Qed.

Lemma h_matrix_row (h : heap) (m : loc) (M : matrix R) (i : nat) (row : list R) :
  h_matrix h m M → M !! i = Some row →
  ∃ r, h_row m i h = (h, Ret r) ∧ h !! r = Some (NumArray row).
Proof.
  intros (rows & Hm & Hrows) Hi.
  destruct (Forall2_lookup_r _ _ _ _ _ Hrows Hi) as (r & Hr & Hrow).
  exists r. split; [|done]. unfold h_row. by rewrite Hm, Hr.
Qed.

Lemma h_matrix_no_row (h : heap) (m : loc) (M : matrix R) (i : nat) :
  h_matrix h m M → M !! i = None → h_row m i h = (h, Throw TypeError).
Proof.
  intros (rows & Hm & Hrows) Hi. unfold h_row. rewrite Hm.
  assert (rows !! i = None) as ->; [|done].
  apply lookup_ge_None. rewrite (Forall2_length _ _ _ Hrows).
  by apply lookup_ge_None.
Qed.

Lemma h_alloc_eq (o : object) (h : heap) :
  h_alloc o h = (h ++ [o], Ret (length h)).
Proof. reflexivity. Qed.

Lemma h_tabulate_alloc (n : nat) (o : object) (h : heap) :
  h_tabulate n (λ _, h_alloc o) h = (h ++ replicate n o, Ret (seq (length h) n)).
Proof.
  induction n as [|n IH].
  - simpl. unfold mret, hm_ret. by rewrite app_nil_r.
  - cbn [h_tabulate]. rewrite (hm_bind_ret _ _ _ _ _ IH).
    rewrite (hm_bind_ret _ _ _ _ _ (h_alloc_eq _ _)).
    unfold mret, hm_ret.
    rewrite length_app, length_replicate, replicate_S_end, seq_S.
    by rewrite app_assoc.
Qed.

Lemma h_zero_matrix_eq (rows cols : nat) (h : heap) :
  h_zero_matrix rows cols h
  = (layout h rows (replicate rows (replicate cols rO)), Ret (S (length h) + rows)).
Proof.
  unfold h_zero_matrix, layout.
  rewrite (hm_bind_ret _ _ _ _ _ (h_alloc_eq _ _)).
  rewrite (hm_bind_ret _ _ _ _ _ (h_tabulate_alloc rows _ _)).
  unfold h_alloc. rewrite !length_app, length_replicate. simpl.
  rewrite fmap_replicate, <- !app_assoc. simpl.
  replace (length h + 1) with (S (length h)) by lia. done.
Qed.

Lemma layout_prefix (h : heap) (rows : nat) (res : matrix R) :
  h `prefix_of` layout h rows res.
Proof. unfold layout. by eexists. Qed.

Lemma layout_row (h : heap) (rows : nat) (res : matrix R) (i : nat) (row : list R) :
  res !! i = Some row → layout h rows res !! (S (length h) + i) = Some (NumArray row).
Proof.
  intros Hi. unfold layout.
  rewrite lookup_app_r by lia.
  replace (S (length h) + i - length h) with (S i) by lia. simpl.
  apply lookup_app_l_Some. by rewrite list_lookup_fmap, Hi.
Qed.

Lemma layout_result (h : heap) (rows : nat) (res : matrix R) :
  length res = rows →
  layout h rows res !! (S (length h) + rows)
  = Some (RefArray (seq (S (length h)) rows)).
Proof.
  intros Hlen. unfold layout.
  rewrite lookup_app_r by lia.
  replace (S (length h) + rows - length h) with (S rows) by lia. simpl.
  rewrite lookup_app_r by (rewrite length_fmap; lia).
  rewrite length_fmap, Hlen, Nat.sub_diag. done.
Qed.

Lemma layout_store (h : heap) (rows : nat) (res : matrix R) (i : nat) (row : list R) :
  i < length res →
  <[S (length h) + i := NumArray row]> (layout h rows res)
  = layout h rows (<[i := row]> res).
Proof.
  intros Hi. unfold layout.
  rewrite insert_app_r_alt by lia.
  replace (S (length h) + i - length h) with (S i) by lia. simpl.
  rewrite insert_app_l by (rewrite length_fmap; lia).
  by rewrite list_fmap_insert.
Qed.

Lemma alter_as_insert {A : Type} (g : A → A) (j : nat) (l : list A) (x : A) :
  l !! j = Some x → alter g j l = <[j := g x]> l.
Proof.
  intros Hj. apply list_eq; intros i.
  destruct (decide (j = i)) as [<-|Hne].
  - rewrite list_lookup_alter_eq, Hj.
    by rewrite list_lookup_insert_eq by eauto using lookup_lt_Some.
  - by rewrite list_lookup_alter_ne, list_lookup_insert_ne.
Qed.

(** [row[j] += x] as the read and the write it is made of. *)
Lemma add_cell_as_store (j : nat) (x : R) (row : list R) :
  alter (λ y, y [+] x) j row = <[j := js_cell row j [+] x]> row.
Proof.
  unfold js_cell. destruct (row !! j) as [y|] eqn:Hj.
  - exact (alter_as_insert (λ y0, y0 [+] x) j row y Hj).
  - apply lookup_ge_None in Hj.
    rewrite list_insert_ge by done.
    apply list_eq; intros i. destruct (decide (j = i)) as [<-|Hne].
    + rewrite list_lookup_alter_eq. by rewrite (lookup_ge_None_2 row j).
    + by rewrite list_lookup_alter_ne.
Qed.

(** One pass of the innermost loop of [h_matrixMultiply] does to the
    store what [add2] does to the result. *)
Lemma h_multiply_pass (h : heap) (a b : loc) (A B : matrix R)
    (rows : nat) (res : matrix R) (i j k : nat) :
  h_matrix h a A → h_matrix h b B →
  length res = rows → i < rows → i < length A → k < length B →
  (ri ← h_row (S (length h) + rows) i;
   old ← h_cell ri j;
   ai ← h_row a i;
   x ← h_cell ai k;
   bk ← h_row b k;
   y ← h_cell bk j;
   h_store ri j (old [+] x [*] y)) (layout h rows res)
  = (layout h rows (add2 i j (entry A i k [*] entry B k j) res), Ret tt).
Proof.
  intros Ha Hb Hlen Hi HiA Hk.
  set (H := layout h rows res).
  assert (i < length res) as Hi' by lia.
  destruct (lookup_lt_is_Some_2 res i Hi') as [row Hrow].
  destruct (lookup_lt_is_Some_2 A i HiA) as [Ai HAi].
  destruct (lookup_lt_is_Some_2 B k Hk) as [Bk HBk].
  pose proof (layout_prefix h rows res) as Hpre.
  destruct (h_matrix_row H a A i Ai (h_matrix_prefix _ _ _ _ Hpre Ha) HAi)
    as (ra & Hra & Hra').
  destruct (h_matrix_row H b B k Bk (h_matrix_prefix _ _ _ _ Hpre Hb) HBk)
    as (rb & Hrb & Hrb').
  assert (h_row (S (length h) + rows) i H = (H, Ret (S (length h) + i))) as E1.
  { unfold h_row, H. rewrite layout_result by done.
    by rewrite lookup_seq_lt by done. }
  assert (h_cell (S (length h) + i) j H = (H, Ret (js_cell row j))) as E2.
  { unfold h_cell, H. by rewrite (layout_row _ _ _ _ _ Hrow). }
  assert (h_cell ra k H = (H, Ret (entry A i k))) as E3.
  { unfold h_cell, entry. by rewrite Hra', HAi. }
  assert (h_cell rb j H = (H, Ret (entry B k j))) as E4.
  { unfold h_cell, entry. by rewrite Hrb', HBk. }
  rewrite (hm_bind_ret _ _ _ _ _ E1), (hm_bind_ret _ _ _ _ _ E2).
  rewrite (hm_bind_ret _ _ _ _ _ Hra), (hm_bind_ret _ _ _ _ _ E3).
  rewrite (hm_bind_ret _ _ _ _ _ Hrb), (hm_bind_ret _ _ _ _ _ E4).
  unfold h_store, H. rewrite (layout_row _ _ _ _ _ Hrow).
  rewrite layout_store by done. f_equal. f_equal.
  unfold add2. rewrite (alter_as_insert _ _ _ _ Hrow).
  by rewrite add_cell_as_store.
Qed.

(** A loop over the store that follows a pure loop pass by pass follows
    it to the end. *)
Lemma h_for_follows {S : Type} (L : S → heap) (P : S → Prop) (n : nat)
    (body : nat → hm unit) (f : nat → S → S) (s : S) :
  (∀ i s, i < n → P s → body i (L s) = (L (f i s), Ret tt) ∧ P (f i s)) →
  P s →
  h_for n body (L s) = (L (for_range n f s), Ret tt) ∧ P (for_range n f s).
Proof.
  intros Hbody Hs. induction n as [|n IH]; [done|].
  destruct IH as [IH1 IH2]; [intros; apply Hbody; [lia|done]|].
  cbn [h_for for_range]. rewrite (hm_bind_ret _ _ _ _ _ IH1).
  apply Hbody; [lia|done].
Qed.

Lemma length_add2 (i j : nat) (x : R) (res : matrix R) :
  length (add2 i j x res) = length res.
Proof. unfold add2. apply length_alter. Qed.

(** [h_matrixMultiply] does what [matrixMultiply] does: it throws the
    same error, or returns a new array of new rows that holds the
    product; the store it was given is a prefix of the store it leaves. *)
Lemma h_matrixMultiply_spec (h : heap) (a b : loc) (A B : matrix R) :
  h_matrix h a A → h_matrix h b B →
  ∃ h' out, h_matrixMultiply a b h = (h', out)
    ∧ h `prefix_of` h'
    ∧ match matrixMultiply A B with
      | Ret C => ∃ r, out = Ret r ∧ h_matrix h' r C
      | Throw e => out = Throw e
      | Diverge => False
      end.
Proof.
  intros Ha Hb. rewrite matrixMultiply_eq. unfold h_matrixMultiply.
  rewrite (hm_bind_ret _ _ _ _ _ (h_matrix_length _ _ _ Ha)).
  destruct (decide (A = [])) as [->|HA].
  { rewrite (hm_bind_throw _ _ _ _ _ (h_matrix_no_row _ _ _ 0 Ha eq_refl)).
    by eexists _, _. }
  destruct A as [|a0 A']; [done|]. set (A := a0 :: A') in *.
  destruct (h_matrix_row h a A 0 a0 Ha eq_refl) as (ra & Hra & Hra').
  rewrite (hm_bind_ret _ _ _ _ _ Hra).
  assert (h_length ra h = (h, Ret (length a0))) as E1
    by (unfold h_length; by rewrite Hra').
  rewrite (hm_bind_ret _ _ _ _ _ E1).
  destruct (decide (B = [])) as [->|HB].
  { rewrite (hm_bind_throw _ _ _ _ _ (h_matrix_no_row _ _ _ 0 Hb eq_refl)).
    by eexists _, _. }
  destruct B as [|b0 B']; [done|]. set (B := b0 :: B') in *.
  destruct (h_matrix_row h b B 0 b0 Hb eq_refl) as (rb & Hrb & Hrb').
  rewrite (hm_bind_ret _ _ _ _ _ Hrb).
  assert (h_length rb h = (h, Ret (length b0))) as E2
    by (unfold h_length; by rewrite Hrb').
  rewrite (hm_bind_ret _ _ _ _ _ E2).
  rewrite (hm_bind_ret _ _ _ _ _ (h_matrix_length _ _ _ Hb)).
  change (cols A) with (length a0).
  case_decide as Hc.
  2:{ rewrite (proj2 (Nat.eqb_neq _ _) Hc). by eexists _, _. }
  rewrite (proj2 (Nat.eqb_eq _ _) Hc). cbn [negb].
  rewrite (hm_bind_ret _ _ _ _ _ (h_zero_matrix_eq _ _ _)).
  set (rows := length A). set (result := S (length h) + rows).
  destruct (h_for_follows (layout h rows) (λ res, length res = rows) rows
    (λ i, h_for (length b0) (λ j, h_for (length a0) (λ k,
       ri ← h_row result i; old ← h_cell ri j;
       ai ← h_row a i; x ← h_cell ai k;
       bk ← h_row b k; y ← h_cell bk j;
       h_store ri j (old [+] x [*] y))))
    (λ i res, for_range (length b0) (λ j res, for_range (length a0) (λ k res,
       add2 i j (entry A i k [*] entry B k j) res) res) res)
    (replicate rows (replicate (length b0) rO))) as [Hrun Hlen].
  { intros i res Hi Hres.
    apply (h_for_follows (layout h rows) (λ res, length res = rows)); [|done].
    intros j res' Hj Hres'.
    apply (h_for_follows (layout h rows) (λ res, length res = rows)); [|done].
    intros k res'' Hk Hres''. split.
    - apply h_multiply_pass; try done. lia.
    - by rewrite length_add2. }
  { apply length_replicate. }
  rewrite (hm_bind_ret _ _ _ _ _ Hrun).
  rewrite multiply_loops in Hlen |- *.
  fold (mmul A B) in Hlen |- *.
  change (length a0) with (cols A). change (length b0) with (cols B).
  fold (mmul A B). eexists _, _. split; [done|]. split; [apply layout_prefix|].
  exists result. split; [done|].
  exists (seq (S (length h)) rows). split.
  - apply layout_result. apply length_mmul.
  - apply Forall2_same_length_lookup_2.
    + by rewrite length_seq, length_mmul.
    + intros i r row Hr Hrow.
      apply lookup_seq in Hr as [-> _]. by apply layout_row.
Qed.

Lemma follows_ret {A B : Type} (rel : heap → A → B → Prop) (h : heap) (x : A) (y : B) :
  rel h x y → follows rel h (h, Ret x) (Ret y).
Proof. intros Hrel. split; [done|]. by exists x. Qed.

Lemma follows_prefix {A B : Type} (rel : heap → A → B → Prop) (h h1 : heap)
    (run : heap * outcome A) (pure : outcome B) :
  h `prefix_of` h1 → follows rel h1 run pure → follows rel h run pure.
Proof. intros Hpre [Hpre' Hout]. split; [by etrans|done]. Qed.

Lemma follows_bind {A A' B B' : Type} (rel : heap → A → B → Prop)
    (rel' : heap → A' → B' → Prop) (h : heap) (m : hm A) (f : A → hm A')
    (p : outcome B) (g : B → outcome B') :
  follows rel h (m h) p →
  (∀ h1 x y, h `prefix_of` h1 → rel h1 x y → follows rel' h1 (f x h1) (g y)) →
  follows rel' h ((m ≫= f) h) (p ≫= g).
Proof.
  intros [Hpre Hout] Hf. destruct (m h) as [h1 out] eqn:Hm. simpl in *.
  destruct p as [y|e|]; cbn [mbind outcome_bind].
  - destruct Hout as (x & -> & Hrel).
    rewrite (hm_bind_ret _ _ _ _ _ Hm).
    apply (follows_prefix _ _ h1); [done|]. by apply Hf.
  - subst out. rewrite (hm_bind_throw _ _ _ _ _ Hm). by split.
  - subst out. rewrite (hm_bind_diverge _ _ _ _ Hm). by split.
Qed.

Lemma h_matrixMultiply_follows (h : heap) (a b : loc) (A B : matrix R) :
  h_matrix h a A → h_matrix h b B →
  follows h_matrix h (h_matrixMultiply a b h) (matrixMultiply A B).
Proof.
  intros Ha Hb.
  destruct (h_matrixMultiply_spec h a b A B Ha Hb) as (h' & out & -> & Hpre & Hout).
  split; [done|]. by destruct (matrixMultiply A B).
Qed.

Lemma h_power_loop_follows (fuel : nat) (h : heap) (r b : loc)
    (Rm Bm : matrix R) (exp : jsnum) :
  h_matrix h r Rm → h_matrix h b Bm →
  follows h_matrix h (h_power_loop fuel r b exp h) (power_loop fuel Rm Bm exp).
Proof.
  revert h r b Rm Bm exp.
  induction fuel as [|fuel IH]; intros h r b Rm Bm exp Hr Hb;
    cbn [h_power_loop power_loop];
    (destruct (js_gt exp (js_int 0)); [|by apply follows_ret]).
  - by split.
  - apply (follows_bind h_matrix).
    { destruct (js_strict_eq (js_mod exp (js_int 2)) (js_int 1)).
      - by apply h_matrixMultiply_follows.
      - by apply follows_ret. }
    intros h1 r' Rm' Hpre1 Hr'.
    assert (h_matrix h1 b Bm) as Hb1 by by eapply h_matrix_prefix.
    apply (follows_bind h_matrix); [by apply h_matrixMultiply_follows|].
    intros h2 b' Bm' Hpre2 Hb'.
    apply IH; [by eapply h_matrix_prefix|done].
Qed.

(** The results of the callbacks of a [map] that only adds to the
    store. *)
Lemma h_tabulate_grows {A : Type} (Φ : nat → A → heap → Prop) (n : nat)
    (f : nat → hm A) (h : heap) :
  (∀ i x h1 h2, Φ i x h1 → h1 `prefix_of` h2 → Φ i x h2) →
  (∀ i h1, i < n → h `prefix_of` h1 →
     ∃ h2 x, f i h1 = (h2, Ret x) ∧ h1 `prefix_of` h2 ∧ Φ i x h2) →
  ∃ h' xs, h_tabulate n f h = (h', Ret xs) ∧ h `prefix_of` h'
           ∧ length xs = n ∧ ∀ i x, xs !! i = Some x → Φ i x h'.
Proof.
  intros Hmono Hf. induction n as [|n IH].
  - exists h, []. split_and!; try done.
  - destruct IH as (h1 & xs & Hrun & Hpre & Hlen & Hxs);
      [intros; apply Hf; [lia|done]|].
    destruct (Hf n h1) as (h2 & x & Hx & Hpre2 & Hphi); [lia|done|].
    exists h2, (xs ++ [x]). split_and!.
    + cbn [h_tabulate]. rewrite (hm_bind_ret _ _ _ _ _ Hrun).
      by rewrite (hm_bind_ret _ _ _ _ _ Hx).
    + by etrans.
    + rewrite length_app. simpl. lia.
    + intros i y Hi. apply lookup_app_Some in Hi as [Hi|[Hge Hi]].
      * eapply Hmono; [by apply Hxs|done].
      * apply list_lookup_singleton_Some in Hi as [Hi ->].
        by replace i with n by lia.
Qed.

Lemma h_identity_spec (n : nat) (h : heap) :
  ∃ h' r, h_identity n h = (h', Ret r) ∧ h `prefix_of` h'
          ∧ h_matrix h' r (identity_matrix n).
Proof.
  unfold h_identity. rewrite (hm_bind_ret _ _ _ _ _ (h_alloc_eq _ _)).
  set (row := λ i : nat, imap (λ j (_ : R), if bool_decide (i = j) then rI else rO)
                           (replicate n rO)).
  destruct (h_tabulate_grows
    (λ i x h', h' !! x = Some (NumArray (row i))) n
    (λ i, _ ← h_alloc (NumArray (replicate n rO)); h_alloc (NumArray (row i)))
    (h ++ [NumArray (replicate n rO)])) as (h1 & rs & Hrun & Hpre & Hlen & Hrs).
  { intros i x h1 h2 Hx Hpre. exact (prefix_lookup_Some _ _ _ _ Hx Hpre). }
  { intros i h1 _ _. eexists _, _.
    rewrite (hm_bind_ret _ _ _ _ _ (h_alloc_eq _ _)), h_alloc_eq.
    split; [done|]. split.
    - rewrite <- app_assoc. by apply prefix_app_r.
    - by rewrite list_lookup_middle. }
  rewrite (hm_bind_ret _ _ _ _ _ Hrun), h_alloc_eq.
  eexists _, _. split; [done|]. split.
  - apply prefix_app_r. etrans; [|exact Hpre]. by apply prefix_app_r.
  - exists rs. split; [by rewrite list_lookup_middle|].
    apply Forall2_same_length_lookup_2.
    + unfold identity_matrix. by rewrite length_imap, length_replicate.
    + intros i r rw Hr Hi. apply lookup_app_l_Some.
      unfold identity_matrix in Hi. rewrite list_lookup_imap in Hi.
      destruct (replicate n rO !! i); [|done]. injection Hi as <-.
      by apply Hrs.
Qed.

Lemma h_copy_spec (h : heap) (m : loc) (M : matrix R) :
  h_matrix h m M →
  ∃ h' r, h_copy m h = (h', Ret r) ∧ h `prefix_of` h' ∧ h_matrix h' r M.
Proof.
  intros Hm. unfold h_copy.
  rewrite (hm_bind_ret _ _ _ _ _ (h_matrix_length _ _ _ Hm)).
  destruct (h_tabulate_grows
    (λ i x h', ∃ row, M !! i = Some row ∧ h' !! x = Some (NumArray row))
    (length M)
    (λ i, row ← h_row m i; xs ← h_numbers row; h_alloc (NumArray xs))
    h) as (h1 & rs & Hrun & Hpre & Hlen & Hrs).
  { intros i x h1 h2 (row & Hi & Hx) Hpre. exists row.
    split; [done|]. exact (prefix_lookup_Some _ _ _ _ Hx Hpre). }
  { intros i h1 Hi Hpre.
    destruct (lookup_lt_is_Some_2 M i Hi) as [row Hrow].
    destruct (h_matrix_row h1 m M i row (h_matrix_prefix _ _ _ _ Hpre Hm) Hrow)
      as (r & Hr & Hr').
    assert (h_numbers r h1 = (h1, Ret row)) as E
      by (unfold h_numbers; by rewrite Hr').
    eexists _, _.
    rewrite (hm_bind_ret _ _ _ _ _ Hr), (hm_bind_ret _ _ _ _ _ E), h_alloc_eq.
    split; [done|]. split; [by apply prefix_app_r|].
    exists row. split; [done|]. by rewrite list_lookup_middle. }
  rewrite (hm_bind_ret _ _ _ _ _ Hrun), h_alloc_eq.
  eexists _, _. split; [done|]. split; [by apply prefix_app_r|].
  exists rs. split; [by rewrite list_lookup_middle|].
  apply Forall2_same_length_lookup_2; [done|].
  intros i r row Hr Hi. apply lookup_app_l_Some.
  destruct (Hrs i r Hr) as (row' & Hi' & Hr').
  rewrite Hi in Hi'. by injection Hi' as <-.
Qed.

(** [h_matrixPower] does what [matrixPower] does. *)
Lemma h_matrixPower_follows (h : heap) (m : loc) (M : matrix R) (k : jsnum) :
  h_matrix h m M →
  follows h_matrix h (h_matrixPower m k h) (matrixPower M k).
Proof.
  intros Hm. unfold h_matrixPower, matrixPower.
  rewrite (hm_bind_ret _ _ _ _ _ (h_matrix_length _ _ _ Hm)).
  destruct (h_identity_spec (length M) h) as (h1 & idl & Hid & Hpre1 & Hidl).
  rewrite (hm_bind_ret _ _ _ _ _ Hid).
  apply (follows_prefix _ _ h1); [done|].
  assert (h_matrix h1 m M) as Hm1 by by eapply h_matrix_prefix.
  destruct (js_strict_eq k (js_int 0)); [by apply follows_ret|].
  destruct (js_strict_eq k (js_int 1)); [by apply follows_ret|].
  destruct (h_copy_spec h1 m M Hm1) as (h2 & base & Hcopy & Hpre2 & Hbase).
  rewrite (hm_bind_ret _ _ _ _ _ Hcopy), list_fmap_id.
  apply (follows_prefix _ _ h2); [done|].
  apply h_power_loop_follows; [by eapply h_matrix_prefix|done].
Qed.

(** For the exponent 1 the array returned is the caller's own array, not
    a copy of it. *)
Lemma h_matrixPower_one_is_argument (h : heap) (m : loc) (M : matrix R) :
  h_matrix h m M → (h_matrixPower m (js_int 1) h).2 = Ret m.
Proof.
  intros Hm. unfold h_matrixPower.
  rewrite (hm_bind_ret _ _ _ _ _ (h_matrix_length _ _ _ Hm)).
  destruct (h_identity_spec (length M) h) as (h1 & idl & Hid & _ & _).
  by rewrite (hm_bind_ret _ _ _ _ _ Hid).
Qed.

(** C8.  Over a store in which the arguments are arrays of rows:
    [matrixPower], whatever the exponent and whether it returns or not,
    leaves every object the store held as it was, so the caller's matrix
    still holds the same numbers, and for a square matrix and a whole
    k >= 0 it returns the k-th power; the product of two matrices, returned
    or refused, likewise leaves every object of the store, and so both
    arguments, as they were. *)
Theorem algebra_leaves_arguments_unchanged (h : heap) :
  (∀ (m : loc) (M : matrix R) (k : jsnum),
     h_matrix h m M →
     ∃ h' out, h_matrixPower m k h = (h', out)
               ∧ h_matrix h' m M
               ∧ (∀ l o, h !! l = Some o → h' !! l = Some o)
               ∧ (∀ n j, 0 < n → is_matrix n n M → k = js_int (Z.of_nat j) →
                    ∃ r, out = Ret r ∧ h_matrix h' r (mat_pow M j)))
  ∧ (∀ (a b : loc) (A B : matrix R) (ra ca rb cb : nat),
       is_matrix ra ca A → is_matrix rb cb B →
       h_matrix h a A → h_matrix h b B →
       ∃ h' out, h_matrixMultiply a b h = (h', out)
                 ∧ match matrixMultiply A B with
                   | Ret C => ∃ r, out = Ret r ∧ h_matrix h' r C
                   | Throw e => out = Throw e
                   | Diverge => False
                   end
                 ∧ h_matrix h' a A
                 ∧ h_matrix h' b B
                 ∧ ∀ l o, h !! l = Some o → h' !! l = Some o).
Proof.
  split.
  - intros m M k Hm.
    destruct (h_matrixPower_follows h m M k Hm) as [Hpre Hout].
    destruct (h_matrixPower m k h) as [h' out]. simpl in *.
    exists h', out. split_and!; try done.
    + by eapply h_matrix_prefix.
    + intros l o Hl. exact (prefix_lookup_Some _ _ _ _ Hl Hpre).
    + intros n j Hn HM ->. by rewrite (matrixPower_whole n) in Hout.
  - intros a b A B ra ca rb cb _ _ Ha Hb.
    destruct (h_matrixMultiply_spec h a b A B Ha Hb) as (h' & out & Hrun & Hpre & Hout).
    exists h', out. split_and!; try done.
    + by eapply h_matrix_prefix.
    + by eapply h_matrix_prefix.
    + intros l o Hl. exact (prefix_lookup_Some _ _ _ _ Hl Hpre).
Qed.

(** * Further properties of the engine *)

(** ** Products of rectangular matrices *)

Lemma mmul_rect (r n c : nat) (A B : matrix R) :
  0 < r → 0 < n → is_matrix r n A → is_matrix n c B →
  mmul A B = mk_matrix r c (λ i j, sumf n (λ k, entry A i k [*] entry B k j)).
Proof.
  intros Hr Hn HA HB. unfold mmul.
  by rewrite (is_matrix_cols r n A HA Hr), (is_matrix_cols n c B HB Hn), (proj1 HA).
Qed.

Lemma is_matrix_mmul_rect (r n c : nat) (A B : matrix R) :
  0 < r → 0 < n → is_matrix r n A → is_matrix n c B → is_matrix r c (mmul A B).
Proof.
  intros Hr Hn HA HB. rewrite (mmul_rect r n c) by done.
  apply is_matrix_mk_matrix.
Qed.

Lemma matrixMultiply_rect (r n c : nat) (A B : matrix R) :
  0 < r → 0 < n → is_matrix r n A → is_matrix n c B →
  matrixMultiply A B = Ret (mmul A B).
Proof.
  intros Hr Hn HA HB. rewrite matrixMultiply_eq.
  rewrite decide_False by eauto using is_matrix_nonempty.
  rewrite decide_False by eauto using is_matrix_nonempty.
  rewrite decide_True; [done|].
  by rewrite (is_matrix_cols r n A HA Hr), (proj1 HB).
Qed.

(** X1.  [matrixMultiply] on an r x n and an m x c matrix (r, m >= 1):
    it throws the dimension error exactly when n differs from m, and
    otherwise returns the r x c matrix whose entry (i, j) is the sum of
    A[i][k] * B[k][j]; with an empty array on either side it fails before
    the dimension check, with the TypeError of reading the first row. *)
Theorem matrixMultiply_outcomes (r n m c : nat) (A B : matrix R) :
  0 < r → 0 < m → is_matrix r n A → is_matrix m c B →
  (n ≠ m → matrixMultiply A B = Throw IncompatibleDimensions)
  ∧ (n = m →
     ∃ C, matrixMultiply A B = Ret C ∧ is_matrix r c C
          ∧ ∀ i j, i < r → j < c →
              entry C i j = sumf n (λ k, entry A i k [*] entry B k j))
  ∧ matrixMultiply [] B = Throw TypeError
  ∧ matrixMultiply A [] = Throw TypeError.
Proof.
  intros Hr Hm HA HB. split_and!.
  - intros Hne. rewrite matrixMultiply_eq.
    rewrite decide_False by eauto using is_matrix_nonempty.
    rewrite decide_False by eauto using is_matrix_nonempty.
    rewrite decide_False; [done|].
    by rewrite (is_matrix_cols r n A HA Hr), (proj1 HB).
  - intros ->. exists (mmul A B). split_and!.
    + by apply (matrixMultiply_rect r m c).
    + by apply (is_matrix_mmul_rect r m c).
    + intros i j Hi Hj. rewrite (mmul_rect r m c) by done.
      by rewrite entry_mk_matrix.
  - done.
  - rewrite matrixMultiply_eq.
    rewrite decide_False by eauto using is_matrix_nonempty. done.
Qed.

(** In exact arithmetic products compose: for A (r x n), B (n x m) and
    C (m x c) with r, n, m >= 1, multiplying A by B and the result by C
    returns the same matrix as multiplying A by the product of B and C. *)
Lemma matrixMultiply_associative (r n m c : nat) (A B C : matrix R) :
  0 < r → 0 < n → 0 < m →
  is_matrix r n A → is_matrix n m B → is_matrix m c C →
  ∃ D, (P ← matrixMultiply A B; matrixMultiply P C) = Ret D
       ∧ (Q ← matrixMultiply B C; matrixMultiply A Q) = Ret D.
Proof.
  intros Hr Hn Hm HA HB HC.
  pose proof (is_matrix_mmul_rect r n m A B Hr Hn HA HB) as HAB.
  pose proof (is_matrix_mmul_rect n m c B C Hn Hm HB HC) as HBC.
  exists (mmul (mmul A B) C). split.
  - rewrite (matrixMultiply_rect r n m) by done. cbn [mbind outcome_bind].
    by rewrite (matrixMultiply_rect r m c).
  - rewrite (matrixMultiply_rect n m c) by done. cbn [mbind outcome_bind].
    rewrite (matrixMultiply_rect r n c) by done. f_equal.
    rewrite (mmul_rect r m c (mmul A B) C), (mmul_rect r n c A (mmul B C)) by done.
    rewrite (mmul_rect r n m A B), (mmul_rect n m c B C) by done.
    apply mk_matrix_ext; intros i j Hi Hj. symmetry.
    rewrite (sumf_ext m _
      (λ k, sumf n (λ l, entry A i l [*] (entry B l k [*] entry C k j)))).
    2:{ intros k Hk. rewrite entry_mk_matrix by done.
        rewrite <- sumf_mul_r. apply sumf_ext; intros l _. ring. }
    rewrite sumf_swap. apply sumf_ext; intros l Hl.
    rewrite entry_mk_matrix by done. by rewrite sumf_mul_l.
Qed.

(** X4.  [vectorMatrixMultiply] on an r x c matrix (r >= 1): with a vector
    of at most r entries it returns c numbers, entry j being the sum of
    v[i] * M[i][j] over the entries of the vector (rows beyond the vector
    are not read); with a longer vector it throws the TypeError of reading
    a missing row, unless the matrix has no columns, in which case it
    returns the empty array; with the empty matrix it throws. *)
Theorem vectorMatrixMultiply_outcomes (r c : nat) (v : vector R) (M : matrix R) :
  0 < r → is_matrix r c M →
  (length v ≤ r →
     ∃ v', vectorMatrixMultiply v M = Ret v' ∧ length v' = c
           ∧ ∀ j, j < c →
               js_cell v' j = sumf (length v) (λ i, js_cell v i [*] entry M i j))
  ∧ (r < length v → 0 < c → vectorMatrixMultiply v M = Throw TypeError)
  ∧ (r < length v → c = 0 → vectorMatrixMultiply v M = Ret [])
  ∧ vectorMatrixMultiply v [] = Throw TypeError.
Proof.
  intros Hr HM.
  pose proof (is_matrix_nonempty r c M HM Hr) as Hne.
  pose proof (is_matrix_cols r c M HM Hr) as Hc.
  split_and!.
  - intros Hv. exists (vmul v M). split_and!.
    + rewrite vectorMatrixMultiply_eq, decide_False by done.
      rewrite decide_True; [done|]. left. by rewrite (proj1 HM).
    + by rewrite length_vmul.
    + intros j Hj. unfold vmul. rewrite Hc. by rewrite js_cell_mk_vector.
  - intros Hv Hpos. rewrite vectorMatrixMultiply_eq, decide_False by done.
    rewrite decide_False; [done|]. rewrite (proj1 HM), Hc. lia.
  - intros Hv ->. rewrite vectorMatrixMultiply_eq, decide_False by done.
    rewrite decide_True by auto. unfold vmul. by rewrite Hc.
  - done.
Qed.

(** ** [matrixPower] outside its intended use *)

Lemma matrixMultiply_self_not_square (r c : nat) (M : matrix R) :
  0 < r → r ≠ c → is_matrix r c M →
  matrixMultiply M M = Throw IncompatibleDimensions.
Proof.
  intros Hr Hne HM. rewrite matrixMultiply_eq.
  rewrite decide_False by eauto using is_matrix_nonempty.
  rewrite decide_False by eauto using is_matrix_nonempty.
  rewrite decide_False; [done|].
  rewrite (is_matrix_cols r c M HM Hr), (proj1 HM). lia.
Qed.

Lemma Qeq_bool_false_pos (q : Q) : (0 < q)%Q → Qeq_bool q (inject_Z 0) = false.
Proof.
  intros Hq. apply not_true_iff_false. rewrite Qeq_bool_iff.
  intros Heq. rewrite Heq in Hq. by apply Qlt_irrefl in Hq.
Qed.

(** X5.  [matrixPower] on an r x c matrix with r different from c: for the
    exponent 1 it returns the matrix, for an exponent that is not positive
    the r x r identity, and for every other exponent, plus infinity
    included, it throws the dimension error of squaring the base in the
    first pass; on the empty array it throws a TypeError for every positive
    exponent other than 1. *)
Theorem matrixPower_not_square (r c : nat) (M : matrix R) :
  0 < r → r ≠ c → is_matrix r c M →
  (∀ q, (0 < q)%Q → ¬ (q == 1)%Q →
     matrixPower M (JNum q) = Throw IncompatibleDimensions)
  ∧ matrixPower M JPosInf = Throw IncompatibleDimensions
  ∧ (∀ q, (q <= 0)%Q → matrixPower M (JNum q) = Ret (identity_matrix r))
  ∧ matrixPower M (js_int 1) = Ret M
  ∧ (∀ q, (0 < q)%Q → ¬ (q == 1)%Q → matrixPower [] (JNum q) = Throw TypeError).
Proof.
  intros Hr Hne HM.
  pose proof (matrixMultiply_self_not_square r c M Hr Hne HM) as Hsq.
  split_and!.
  - intros q Hq H1. unfold matrixPower, js_strict_eq, js_int.
    rewrite Qeq_bool_false_pos by done.
    replace (Qeq_bool q (inject_Z 1)) with false
      by (symmetry; apply not_true_iff_false; by rewrite Qeq_bool_iff).
    unfold power_fuel. rewrite list_fmap_id, power_loop_pass by done.
    rewrite Hsq.
    destruct (is_whole q && Z.odd (Qfloor q)); [|done].
    rewrite (matrixMultiply_rect r r c)
      by (done || rewrite (proj1 HM); apply is_matrix_identity).
    done.
  - unfold matrixPower.
    change (js_strict_eq JPosInf (js_int 0)) with false.
    change (js_strict_eq JPosInf (js_int 1)) with false.
    cbv iota. rewrite list_fmap_id. cbn [power_fuel power_loop].
    change (js_gt JPosInf (js_int 0)) with true.
    change (js_strict_eq (js_mod JPosInf (js_int 2)) (js_int 1)) with false.
    cbv iota. cbn [mbind outcome_bind]. by rewrite Hsq.
  - intros q Hq. unfold matrixPower, js_strict_eq, js_int.
    rewrite (proj1 HM).
    destruct (Qeq_bool q (inject_Z 0)); [done|].
    replace (Qeq_bool q (inject_Z 1)) with false.
    2:{ symmetry. apply not_true_iff_false. rewrite Qeq_bool_iff. intros H1.
        rewrite H1 in Hq. by apply (Qle_not_lt _ _ Hq). }
    apply power_loop_stop. apply not_true_iff_false.
    unfold js_gt, js_lt, js_int. rewrite Qlt_bool_iff. by apply Qle_not_lt.
  - reflexivity.
  - intros q Hq H1. unfold matrixPower, js_strict_eq, js_int.
    rewrite Qeq_bool_false_pos by done.
    replace (Qeq_bool q (inject_Z 1)) with false
      by (symmetry; apply not_true_iff_false; by rewrite Qeq_bool_iff).
    unfold power_fuel. rewrite power_loop_pass by done.
    by destruct (is_whole q && Z.odd (Qfloor q)).
Qed.

(** ** How long the squaring loop runs *)

Lemma power_loop_finishes (result base : matrix R) (q : Q) :
  power_loop (power_fuel (JNum q)) result base (JNum q) ≠ Diverge.
Proof.
  destruct (Qlt_bool 0 q) eqn:Hq.
  - apply Qlt_bool_iff in Hq. unfold power_fuel.
    rewrite power_loop_pass by done.
    assert (0 ≤ Qfloor q)%Z as Hf.
    { rewrite <- (Qfloor_Z 0). apply Qfloor_resp_le. by apply Qlt_le_weak. }
    pose proof (matrixMultiply_finishes result base) as Hrb.
    pose proof (matrixMultiply_finishes base base) as Hbb.
    destruct (is_whole q && Z.odd (Qfloor q));
      [destruct (matrixMultiply result base) as [result'| |]|];
      cbn [mbind outcome_bind]; try done;
      destruct (matrixMultiply base base) as [base'| |];
      cbn [mbind outcome_bind]; try done;
      by apply power_loop_whole_finishes, power_fuel_enough.
  - by rewrite power_loop_stop.
Qed.

Lemma power_loop_whole_runs (n fuel : nat) (result base : matrix R) (z : Z) :
  0 < n → is_matrix n n result → is_matrix n n base →
  (2 ^ Z.of_nat fuel ≤ z)%Z →
  power_loop fuel result base (js_int z) = Diverge.
Proof.
  intros Hn. revert result base z.
  induction fuel as [|fuel IH]; intros result base z Hr Hb Hz.
  - cbn [power_loop].
    replace (js_gt (js_int z) (js_int 0)) with true; [done|].
    symmetry. apply Qlt_bool_iff. rewrite <- Zlt_Qlt. simpl in Hz. lia.
  - assert (0 < 2 ^ Z.of_nat fuel)%Z as Hpos by (apply Z.pow_pos_nonneg; lia).
    rewrite Nat2Z.inj_succ, Z.pow_succ_r in Hz by lia.
    unfold js_int. rewrite power_loop_pass.
    2:{ change 0%Q with (inject_Z 0). rewrite <- Zlt_Qlt. lia. }
    rewrite Qfloor_Z.
    rewrite (matrixMultiply_square n base base) by done.
    assert (2 ^ Z.of_nat fuel ≤ z / 2)%Z as Hhalf
      by (apply Z.div_le_lower_bound; lia).
    destruct (is_whole (inject_Z z) && Z.odd z); cbn [mbind outcome_bind].
    + rewrite (matrixMultiply_square n result base) by done.
      cbn [mbind outcome_bind]. apply IH; auto using is_matrix_mmul.
    + apply IH; auto using is_matrix_mmul.
Qed.

(** X6.  The loop of [matrixPower] ends for every exponent other than
    plus infinity, whatever the arrays are: [matrixPower] returns or
    throws; the loop has ended after floor (log2 (floor k)) + 1 passes for
    a finite k (after none for minus infinity and NaN), and allowing it
    more passes changes nothing. *)
Theorem matrixPower_ends (M : matrix R) (k : jsnum) :
  k ≠ JPosInf →
  matrixPower M k ≠ Diverge
  ∧ ∀ fuel result base, power_fuel k ≤ fuel →
      power_loop fuel result base k ≠ Diverge
      ∧ power_loop fuel result base k = power_loop (power_fuel k) result base k.
Proof.
  intros Hk. destruct k as [q| | |]; [|done| |].
  - split; [apply matrixPower_finishes|]. intros fuel result base Hfuel.
    pose proof (power_loop_finishes result base q) as Hfin.
    pose proof (power_loop_more_fuel _ fuel result base (JNum q) Hfuel Hfin) as Heq.
    split; [by rewrite Heq|done].
  - split; [by rewrite matrixPower_NegInf|].
    intros fuel result base _. by rewrite !power_loop_stop.
  - split; [by rewrite matrixPower_NaN|].
    intros fuel result base _. by rewrite !power_loop_stop.
Qed.

(** X7.  On square matrices the number of passes is exact: for a positive
    finite exponent k the loop of [matrixPower] is still running after any
    number of passes below floor (log2 (floor k)) + 1 and has ended after
    that many, so a call with a whole k >= 2 squares the base
    floor (log2 k) + 1 times. *)
Theorem power_loop_pass_count (n fuel : nat) (result base : matrix R) (q : Q) :
  0 < n → is_matrix n n result → is_matrix n n base →
  (0 < q)%Q →
  power_loop fuel result base (JNum q) = Diverge ↔ fuel < power_fuel (JNum q).
Proof.
  intros Hn Hr Hb Hq. split.
  - intros Hdiv. destruct (decide (fuel < power_fuel (JNum q))) as [|Hge]; [done|].
    exfalso. apply (power_loop_finishes result base q).
    rewrite <- (power_loop_more_fuel _ fuel result base (JNum q)); [done|lia|].
    apply power_loop_finishes.
  - intros Hlt. unfold power_fuel in Hlt.
    assert (0 ≤ Qfloor q)%Z as Hf.
    { rewrite <- (Qfloor_Z 0). apply Qfloor_resp_le. by apply Qlt_le_weak. }
    destruct fuel as [|fuel].
    { cbn [power_loop].
      replace (js_gt (JNum q) (js_int 0)) with true; [done|].
      symmetry. by apply Qlt_bool_iff. }
    rewrite power_loop_pass by done.
    rewrite (matrixMultiply_square n base base) by done.
    assert (2 ^ Z.of_nat fuel ≤ Qfloor q / 2)%Z as Hhalf.
    { assert (Z.of_nat fuel < Z.log2 (Qfloor q))%Z as Hlog by lia.
      assert (0 < Qfloor q)%Z as Hfpos.
      { destruct (decide (Qfloor q = 0%Z)) as [H0|]; [|lia].
        rewrite H0 in Hlog. simpl in Hlog. lia. }
      apply Z.div_le_lower_bound; [lia|].
      rewrite <- Z.pow_succ_r by lia.
      etransitivity; [|apply (Z.log2_spec (Qfloor q) Hfpos)].
      apply Z.pow_le_mono_r; lia. }
    destruct (is_whole q && Z.odd (Qfloor q)); cbn [mbind outcome_bind].
    + rewrite (matrixMultiply_square n result base) by done.
      cbn [mbind outcome_bind].
      apply (power_loop_whole_runs n); auto using is_matrix_mmul.
    + apply (power_loop_whole_runs n); auto using is_matrix_mmul.
Qed.

(** X8.  With the exponent plus infinity the loop never ends on a square
    matrix, however many passes it is allowed; [advanceSteps] does not
    coerce plus infinity, so on a ready session it does not return. *)
Theorem advanceSteps_infinity_never_returns (s : session) :
  Ready s →
  coerce_steps JPosInf = JPosInf
  ∧ (∀ fuel result, power_loop fuel result (transitionMatrix s) JPosInf = Diverge)
  ∧ advanceSteps JPosInf s = Diverge.
Proof.
  intros Hs. destruct (Ready_shape s Hs) as (HN & HM & Hv).
  assert (is_matrix (N_global s + 1) (N_global s + 1) (transitionMatrix s)) as Hsq
    by (rewrite HM; apply is_matrix_generateTransitionMatrix).
  split_and!.
  - done.
  - intros fuel result. apply (power_loop_PosInf (N_global s + 1)); [lia|done].
  - unfold advanceSteps, advanceBySteps, matrixPower.
    change (coerce_steps JPosInf) with JPosInf.
    change (js_strict_eq JPosInf (js_int 0)) with false.
    change (js_strict_eq JPosInf (js_int 1)) with false.
    cbv iota. rewrite list_fmap_id.
    by rewrite (power_loop_PosInf (N_global s + 1)) by (done || lia).
Qed.

(** ** Stochastic matrices and the mass of the vector *)

Lemma vsum_row (r c : nat) (M : matrix R) (i : nat) (row : list R) :
  is_matrix r c M → M !! i = Some row → vsum row = sumf c (entry M i).
Proof.
  intros HM Hrow. unfold vsum.
  rewrite (Forall_lookup_1 _ _ _ _ (proj2 HM) Hrow).
  apply sumf_ext; intros j _. unfold entry. by rewrite Hrow.
Qed.

Lemma stochastic_entries (n : nat) (M : matrix R) (i : nat) :
  stochastic n M → i < n → sumf n (entry M i) = rI.
Proof.
  intros [HM Hrows] Hi.
  assert (i < length M) as Hi' by by rewrite (proj1 HM).
  destruct (lookup_lt_is_Some_2 M i Hi') as [row Hrow].
  rewrite <- (vsum_row n n M i row HM Hrow).
  exact (Forall_lookup_1 _ _ _ _ Hrows Hrow).
Qed.

Lemma stochastic_mk_matrix (n : nat) (f : nat → nat → R) :
  (∀ i, i < n → sumf n (f i) = rI) → stochastic n (mk_matrix n n f).
Proof.
  intros Hf. split; [apply is_matrix_mk_matrix|].
  apply Forall_lookup; intros i row. rewrite lookup_mk_matrix.
  case_decide; [|done]. intros [= <-]. rewrite vsum_mk_vector. by apply Hf.
Qed.

Lemma stochastic_identity (n : nat) : stochastic n (identity_matrix n).
Proof.
  rewrite identity_matrix_eq. apply stochastic_mk_matrix; intros i Hi.
  rewrite (sumf_ext n _ (λ j, (if bool_decide (i = j) then rI else rO) [*] rI))
    by (intros; ring).
  apply (sumf_delta_l n i (λ _, rI) Hi).
Qed.

Lemma stochastic_mmul (n : nat) (A B : matrix R) :
  0 < n → stochastic n A → stochastic n B → stochastic n (mmul A B).
Proof.
  intros Hn HA HB. rewrite (mmul_square n) by (done || apply HA || apply HB).
  apply stochastic_mk_matrix; intros i Hi.
  rewrite sumf_swap.
  rewrite (sumf_ext n _ (entry A i)); [by apply stochastic_entries|].
  intros k Hk. rewrite sumf_mul_l, (stochastic_entries n B k) by done. ring.
Qed.

Lemma stochastic_mat_pow (n : nat) (M : matrix R) (k : nat) :
  0 < n → stochastic n M → stochastic n (mat_pow M k).
Proof.
  intros Hn HM. induction k as [|k IH]; simpl.
  - rewrite (proj1 (proj1 HM)). apply stochastic_identity.
  - by apply stochastic_mmul.
Qed.

Lemma stochastic_generateTransitionMatrix (N : nat) (p : R) :
  stochastic (N + 1) (generateTransitionMatrix N p).
Proof.
  rewrite generateTransitionMatrix_eq. apply stochastic_mk_matrix; intros i Hi.
  apply sumf_transition_entry. lia.
Qed.

Lemma vsum_vmul (n : nat) (v : vector R) (M : matrix R) :
  0 < n → length v = n → stochastic n M → vsum (vmul v M) = vsum v.
Proof.
  intros Hn Hv HM. unfold vmul. rewrite vsum_mk_vector.
  rewrite (is_matrix_cols n n M (proj1 HM) Hn), Hv.
  rewrite sumf_swap. unfold vsum. rewrite Hv.
  apply sumf_ext; intros i Hi.
  rewrite sumf_mul_l, (stochastic_entries n M i) by done. ring.
Qed.

(** What [advanceBySteps] returns is the vector times a power of the
    matrix. *)
Lemma advanceBySteps_returns_power (n : nat) (v v' : vector R) (M : matrix R)
    (k : jsnum) :
  0 < n → length v = n → is_matrix n n M →
  advanceBySteps v M k = Ret v' → ∃ e, v' = vmul v (mat_pow M e).
Proof.
  intros Hn Hv HM Hret. destruct k as [q| | |].
  - rewrite (advanceBySteps_finite n) in Hret by done.
    injection Hret as <-. by eexists.
  - unfold advanceBySteps, matrixPower in Hret.
    change (js_strict_eq JPosInf (js_int 0)) with false in Hret.
    change (js_strict_eq JPosInf (js_int 1)) with false in Hret.
    cbv iota in Hret. rewrite list_fmap_id in Hret.
    by rewrite (power_loop_PosInf n) in Hret.
  - unfold advanceBySteps in Hret. rewrite matrixPower_NegInf in Hret.
    cbn [mbind outcome_bind] in Hret. rewrite (proj1 HM) in Hret.
    rewrite (vectorMatrixMultiply_square n) in Hret
      by auto using is_matrix_identity.
    injection Hret as <-. exists 0. simpl. by rewrite (proj1 HM).
  - unfold advanceBySteps in Hret. rewrite matrixPower_NaN in Hret.
    cbn [mbind outcome_bind] in Hret. rewrite (proj1 HM) in Hret.
    rewrite (vectorMatrixMultiply_square n) in Hret
      by auto using is_matrix_identity.
    injection Hret as <-. exists 0. simpl. by rewrite (proj1 HM).
Qed.

(** What [advanceSteps] changes in a ready session. *)
Lemma advanceSteps_returns (k : jsnum) (s s' : session) :
  Ready s → advanceSteps k s = Ret s' →
  N_global s' = N_global s ∧ n_global s' = n_global s
  ∧ p_global s' = p_global s ∧ transitionMatrix s' = transitionMatrix s
  ∧ currentStep s' = js_add (currentStep s) (coerce_steps k)
  ∧ ∃ e, currentVector s'
         = vmul (currentVector s) (mat_pow (transitionMatrix s) e).
Proof.
  intros Hs Hadv. destruct (Ready_shape s Hs) as (HN & HM & Hv).
  unfold advanceSteps in Hadv.
  destruct (advanceBySteps (currentVector s) (transitionMatrix s) (coerce_steps k))
    as [v'| |] eqn:Hv'; cbn [mbind outcome_bind] in Hadv; try done.
  injection Hadv as <-. simpl. split_and!; try done.
  apply (advanceBySteps_returns_power (N_global s + 1)) in Hv'; [done|lia|done|].
  rewrite HM. apply is_matrix_generateTransitionMatrix.
Qed.

Lemma generateInitialVector_eq (N : nat) (n : Z) :
  generateInitialVector N n
  = if start_in_range N n then one_hot (N + 1) (Z.to_nat n)
    else replicate (N + 1) rO.
Proof.
  unfold generateInitialVector, start_in_range.
  destruct ((0 <=? n)%Z && (n <=? Z.of_nat N)%Z) eqn:Hb; [|done].
  apply andb_true_iff in Hb as [H0%Z.leb_le HN%Z.leb_le].
  apply list_eq; intros j. unfold one_hot.
  rewrite list_lookup_insert, length_replicate, lookup_mk_vector.
  repeat (case_decide || case_bool_decide); try lia; try done.
  - by rewrite lookup_replicate_2 by lia.
  - by rewrite (proj1 (lookup_replicate_None _ rO j)) by lia.
Qed.

Lemma vsum_one_hot (len i : nat) : i < len → vsum (one_hot len i) = rI.
Proof.
  intros Hi. unfold one_hot. rewrite vsum_mk_vector.
  rewrite (sumf_ext len _ (λ j, rI [*] (if bool_decide (j = i) then rI else rO)))
    by (intros; ring).
  apply (sumf_delta_r len i (λ _, rI) Hi).
Qed.

Lemma vsum_zeros (len : nat) : vsum (replicate len rO) = rO.
Proof.
  unfold vsum. rewrite length_replicate.
  rewrite (sumf_ext len _ (λ _, rO)); [apply sumf_zero|].
  intros j Hj. unfold js_cell. by rewrite lookup_replicate_2.
Qed.

(** ** Starting states *)

Lemma length_one_hot (len i : nat) : length (one_hot len i) = len.
Proof. apply length_mk_vector. Qed.

Lemma js_cell_one_hot (len i k : nat) :
  k < len → js_cell (one_hot len i) k = if bool_decide (i = k) then rI else rO.
Proof.
  intros Hk. unfold one_hot. rewrite js_cell_mk_vector by done.
  repeat case_bool_decide; done || lia.
Qed.

(** A one-hot vector picks a row of the matrix. *)
Lemma vmul_one_hot (n i : nat) (M : matrix R) :
  0 < n → i < n → is_matrix n n M →
  vmul (one_hot n i) M = mk_vector n (entry M i).
Proof.
  intros Hn Hi HM. unfold vmul.
  rewrite (is_matrix_cols n n M HM Hn), length_one_hot.
  apply mk_vector_ext; intros j Hj.
  rewrite (sumf_ext n _
    (λ k, (if bool_decide (i = k) then rI else rO) [*] entry M k j)).
  - apply (sumf_delta_l n i (λ k, entry M k j) Hi).
  - intros k Hk. by rewrite js_cell_one_hot.
Qed.

Lemma entry_generateTransitionMatrix (N : nat) (p : R) (i j : nat) :
  i ≤ N → j ≤ N →
  entry (generateTransitionMatrix N p) i j = transition_entry N p i j.
Proof.
  intros Hi Hj. rewrite generateTransitionMatrix_eq.
  apply entry_mk_matrix; lia.
Qed.

(** From an absorbing state one step leads back to it. *)
Lemma vmul_absorbing (N : nat) (p : R) (b : nat) :
  b = 0 ∨ b = N →
  vmul (one_hot (N + 1) b) (generateTransitionMatrix N p) = one_hot (N + 1) b.
Proof.
  intros Hb.
  rewrite (vmul_one_hot (N + 1))
    by (lia || apply is_matrix_generateTransitionMatrix).
  apply mk_vector_ext; intros j Hj.
  rewrite entry_generateTransitionMatrix by lia. unfold transition_entry.
  replace ((b =? 0) || (b =? N)) with true; [done|].
  symmetry. apply orb_true_iff.
  destruct Hb as [->| ->]; [left|right]; apply Nat.eqb_refl.
Qed.

Lemma vmul_absorbing_power (N : nat) (p : R) (b e : nat) :
  b = 0 ∨ b = N →
  vmul (one_hot (N + 1) b) (mat_pow (generateTransitionMatrix N p) e)
  = one_hot (N + 1) b.
Proof.
  intros Hb.
  pose proof (is_matrix_generateTransitionMatrix N p) as HM.
  induction e as [|e IH]; simpl.
  - rewrite (proj1 HM). apply vmul_identity; [lia|apply length_one_hot].
  - rewrite <- (vmul_mmul (N + 1))
      by (lia || done || apply length_one_hot || apply is_matrix_mat_pow; (lia || done)).
    rewrite IH. by apply vmul_absorbing.
Qed.

(** X11.  A session started in an absorbing state (n = 0 or n = N) never
    leaves it: in every ready session reached from such a start, after any
    advances with any k, the current vector is still the start vector. *)
Theorem Ready_absorbed_start (s : session) :
  Ready s →
  n_global s = 0%Z ∨ n_global s = Z.of_nat (N_global s) →
  currentVector s = generateInitialVector (N_global s) (n_global s).
Proof.
  induction 1 as [N n p HN|k s s' Hs IH Hadv]; [done|].
  intros Hn.
  destruct (Ready_shape s Hs) as (HN & HM & Hv).
  destruct (advanceSteps_returns k s s' Hs Hadv)
    as (EN & En & _ & _ & _ & e & ->).
  rewrite EN, En in *. rewrite (IH Hn), HM.
  rewrite generateInitialVector_eq.
  replace (start_in_range (N_global s) (n_global s)) with true
    by (symmetry; unfold start_in_range; apply andb_true_iff;
        split; apply Z.leb_le; lia).
  apply vmul_absorbing_power. lia.
Qed.

(** X12.  From an interior start state n (0 < n < N) the first single step
    moves the whole mass to the two neighbours: the new vector holds 1-p at
    index n-1, p at index n+1 and zero elsewhere, and the step counter
    is 1. *)
Theorem first_step_from_interior (N : nat) (n : Z) (p : R) :
  (0 < n < Z.of_nat N)%Z →
  ∃ s', advanceSteps (js_int 1) (resetSimulation N n p) = Ret s'
        ∧ currentStep s' = js_int 1
        ∧ length (currentVector s') = N + 1
        ∧ ∀ j, j ≤ N →
            currentVector s' !! j
            = Some (if bool_decide (j = Z.to_nat n - 1) then rI [-] p
                    else if bool_decide (j = Z.to_nat n + 1) then p
                    else rO).
Proof.
  intros Hn.
  pose proof (is_matrix_generateTransitionMatrix N p) as HM.
  unfold advanceSteps, advanceBySteps.
  change (coerce_steps (js_int 1)) with (js_int 1).
  change (matrixPower (transitionMatrix (resetSimulation N n p)) (js_int 1))
    with (Ret (transitionMatrix (resetSimulation N n p))).
  cbn [mbind outcome_bind]. simpl.
  rewrite (vectorMatrixMultiply_square (N + 1))
    by (lia || done || apply length_generateInitialVector).
  cbn [mbind outcome_bind]. eexists. split; [done|]. simpl.
  rewrite generateInitialVector_eq.
  replace (start_in_range N n) with true
    by (symmetry; unfold start_in_range; apply andb_true_iff;
        split; apply Z.leb_le; lia).
  rewrite (vmul_one_hot (N + 1)) by (lia || done).
  split_and!; [done|apply length_mk_vector|].
  intros j Hj. rewrite lookup_mk_vector, decide_True by lia. f_equal.
  rewrite entry_generateTransitionMatrix by lia. unfold transition_entry.
  replace ((Z.to_nat n =? 0) || (Z.to_nat n =? N)) with false
    by (symmetry; apply orb_false_iff; split; apply Nat.eqb_neq; lia).
  repeat case_bool_decide; try lia; done.
Qed.

(** X13.  Exchanging the roles of winning and losing mirrors the chain
    when subtracting from 1 twice gives p back (on doubles: when 1-p is
    computed without rounding): the entry (i, j) of the transition matrix
    for p is then the entry (N-i, N-j) of the transition matrix for 1-p. *)
Theorem generateTransitionMatrix_mirror (N : nat) (p : R) (i j : nat) :
  rI [-] (rI [-] p) = p →
  i ≤ N → j ≤ N →
  entry (generateTransitionMatrix N p) i j
  = entry (generateTransitionMatrix N (rI [-] p)) (N - i) (N - j).
Proof.
  intros Hp Hi Hj. rewrite !entry_generateTransitionMatrix by lia.
  unfold transition_entry.
  destruct (Nat.eqb_spec i 0) as [->|Hi0].
  - rewrite Nat.sub_0_r, Nat.eqb_refl, orb_true_r. simpl.
    repeat case_bool_decide; done || lia.
  - destruct (Nat.eqb_spec i N) as [->|HiN].
    + rewrite Nat.sub_diag. simpl. repeat case_bool_decide; done || lia.
    + replace ((N - i =? 0) || (N - i =? N)) with false
        by (symmetry; apply orb_false_iff; split; apply Nat.eqb_neq; lia).
      simpl. repeat case_bool_decide; try lia; try done; by rewrite Hp.
Qed.

(** ** The step counter and consecutive advances *)

(** What [advanceSteps] passes on, when it returns, is a finite number not
    below 1. *)
Lemma coerce_steps_at_least_one (k : jsnum) :
  coerce_steps k = JPosInf ∨ ∃ q, coerce_steps k = JNum q ∧ (1 <= q)%Q.
Proof.
  unfold coerce_steps, js_int. destruct k as [q| | |].
  - unfold js_lt, js_isNaN. rewrite orb_false_r.
    destruct (Qlt_bool q (inject_Z 1)) eqn:Hlt.
    + right. exists (inject_Z 1). split; [done|apply Qle_refl].
    + right. exists q. split; [done|].
      apply Qnot_lt_le. intros H. apply (proj2 (Qlt_bool_iff q 1)) in H.
      change (Qlt_bool q (inject_Z 1) = true) in H. congruence.
  - by left.
  - right. exists (inject_Z 1). split; [done|apply Qle_refl].
  - right. exists (inject_Z 1). split; [done|apply Qle_refl].
Qed.

Lemma advanceSteps_PosInf_diverges (k : jsnum) (s : session) :
  Ready s → coerce_steps k = JPosInf → advanceSteps k s = Diverge.
Proof.
  intros Hs Hk. destruct (Ready_shape s Hs) as (HN & HM & Hv).
  unfold advanceSteps, advanceBySteps, matrixPower. rewrite Hk.
  change (js_strict_eq JPosInf (js_int 0)) with false.
  change (js_strict_eq JPosInf (js_int 1)) with false.
  cbv iota. rewrite list_fmap_id.
  rewrite (power_loop_PosInf (N_global s + 1)); [done|lia|].
  rewrite HM. apply is_matrix_generateTransitionMatrix.
Qed.

Lemma advanceSteps_whole (s : session) (k : nat) :
  Ready s → 1 ≤ k →
  advanceSteps (js_int (Z.of_nat k)) s
  = Ret {| N_global := N_global s;
           n_global := n_global s;
           p_global := p_global s;
           currentStep := js_add (currentStep s) (js_int (Z.of_nat k));
           transitionMatrix := transitionMatrix s;
           currentVector := vmul (currentVector s) (mat_pow (transitionMatrix s) k) |}.
Proof.
  intros Hs Hk. destruct (Ready_shape s Hs) as (HN & HM & Hv).
  assert (is_matrix (N_global s + 1) (N_global s + 1) (transitionMatrix s)) as Hsq
    by (rewrite HM; apply is_matrix_generateTransitionMatrix).
  unfold advanceSteps, advanceBySteps. rewrite coerce_steps_whole by done.
  rewrite (matrixPower_whole (N_global s + 1)) by (done || lia).
  cbn [mbind outcome_bind].
  rewrite (vectorMatrixMultiply_square (N_global s + 1))
    by (done || lia || auto using is_matrix_mat_pow with lia).
  done.
Qed.

(** ** Order: probabilities stay probabilities

    For these properties the numbers carry an order that addition and
    multiplication respect, as the rationals and the reals do. *)

Section Order.
Context (rle : R → R → Prop).
Context (rle_refl : ∀ a, rle a a).
Context (rle_trans : ∀ a b c, rle a b → rle b c → rle a c).
Context (rle_add : ∀ a b c d, rle a b → rle c d → rle (a [+] c) (b [+] d)).
Context (rle_mul : ∀ a b, rle rO a → rle rO b → rle rO (a [*] b)).
Context (rle_0_1 : rle rO rI).

Lemma sumf_nonneg (n : nat) (f : nat → R) :
  (∀ k, k < n → rle rO (f k)) → rle rO (sumf n f).
Proof.
  induction n as [|n IH]; intros Hf; [apply rle_refl|].
  rewrite sumf_S. replace rO with (rO [+] rO) at 1 by ring.
  apply rle_add; [apply IH; intros; apply Hf; lia|apply Hf; lia].
Qed.

Lemma sumf_term_le (n i : nat) (f : nat → R) :
  (∀ k, k < n → rle rO (f k)) → i < n → rle (f i) (sumf n f).
Proof.
  induction n as [|n IH]; intros Hf Hi; [lia|].
  rewrite sumf_S. destruct (decide (i = n)) as [->|Hne].
  - replace (f n) with (rO [+] f n) at 1 by ring.
    apply rle_add; [|apply rle_refl].
    apply sumf_nonneg; intros; apply Hf; lia.
  - replace (f i) with (f i [+] rO) at 1 by ring.
    apply rle_add; [|apply Hf; lia].
    apply IH; [intros; apply Hf; lia|lia].
Qed.

Lemma Forall_mk_vector (P : R → Prop) (c : nat) (f : nat → R) :
  (∀ j, j < c → P (f j)) → Forall P (mk_vector c f).
Proof.
  intros Hf. apply Forall_lookup; intros j x. rewrite lookup_mk_vector.
  case_decide; [|done]. intros [= <-]. by apply Hf.
Qed.

Lemma js_cell_Forall (P : R → Prop) (v : vector R) (j : nat) :
  Forall P v → j < length v → P (js_cell v j).
Proof.
  intros Hv Hj. unfold js_cell.
  destruct (lookup_lt_is_Some_2 v j Hj) as [x Hx]. rewrite Hx. simpl.
  exact (Forall_lookup_1 _ _ _ _ Hv Hx).
Qed.

Lemma transition_entry_nonneg (N : nat) (p : R) (i j : nat) :
  rle rO p → rle rO (rI [-] p) → rle rO (transition_entry N p i j).
Proof.
  intros Hp Hq. unfold transition_entry.
  destruct ((i =? 0) || (i =? N)); repeat case_bool_decide; auto.
Qed.

Lemma mat_pow_nonneg (n : nat) (M : matrix R) (e : nat) :
  0 < n → is_matrix n n M →
  (∀ i j, i < n → j < n → rle rO (entry M i j)) →
  ∀ i j, i < n → j < n → rle rO (entry (mat_pow M e) i j).
Proof.
  intros Hn HM Hpos. induction e as [|e IH]; intros i j Hi Hj; simpl.
  - rewrite (proj1 HM), identity_matrix_eq, entry_mk_matrix by done.
    case_bool_decide; auto.
  - rewrite (mmul_square n) by auto using is_matrix_mat_pow.
    rewrite entry_mk_matrix by done.
    apply sumf_nonneg; intros k Hk. apply rle_mul; auto.
Qed.

Lemma vmul_nonneg (n : nat) (v : vector R) (M : matrix R) :
  0 < n → length v = n → is_matrix n n M →
  Forall (rle rO) v →
  (∀ i j, i < n → j < n → rle rO (entry M i j)) →
  Forall (rle rO) (vmul v M).
Proof.
  intros Hn Hv HM Hvpos Hpos. unfold vmul.
  rewrite (is_matrix_cols n n M HM Hn), Hv.
  apply Forall_mk_vector; intros j Hj.
  apply sumf_nonneg; intros i Hi.
  apply rle_mul; [|by apply Hpos].
  apply js_cell_Forall; [done|lia].
Qed.

Lemma generateInitialVector_nonneg (N : nat) (n : Z) :
  Forall (rle rO) (generateInitialVector N n).
Proof.
  rewrite generateInitialVector_eq. destruct (start_in_range N n).
  - apply Forall_mk_vector; intros j Hj. case_bool_decide; auto.
  - apply Forall_replicate. apply rle_refl.
Qed.

(** One step does not lower the mass held at an absorbing state. *)
Lemma absorbing_cell_step (N : nat) (p : R) (w : vector R) (b : nat) :
  rle rO p → rle rO (rI [-] p) →
  length w = N + 1 → Forall (rle rO) w → b = 0 ∨ b = N →
  rle (js_cell w b) (js_cell (vmul w (generateTransitionMatrix N p)) b).
Proof.
  intros Hp Hq Hw Hpos Hb.
  pose proof (is_matrix_generateTransitionMatrix N p) as HM.
  unfold vmul. rewrite (is_matrix_cols _ _ _ HM) by lia.
  rewrite js_cell_mk_vector by lia. rewrite Hw.
  set (f := λ i, js_cell w i [*] entry (generateTransitionMatrix N p) i b).
  assert (js_cell w b = f b) as ->.
  { unfold f. rewrite entry_generateTransitionMatrix by lia.
    unfold transition_entry.
    replace ((b =? 0) || (b =? N)) with true.
    - rewrite bool_decide_eq_true_2 by done. ring.
    - symmetry. apply orb_true_iff.
      destruct Hb as [->| ->]; [left|right]; apply Nat.eqb_refl. }
  apply sumf_term_le; [|lia].
  intros k Hk. unfold f. apply rle_mul.
  - apply js_cell_Forall; [done|lia].
  - rewrite entry_generateTransitionMatrix by lia.
    by apply transition_entry_nonneg.
Qed.

Lemma absorbing_cell_power (N : nat) (p : R) (w : vector R) (b e : nat) :
  rle rO p → rle rO (rI [-] p) →
  length w = N + 1 → Forall (rle rO) w → b = 0 ∨ b = N →
  rle (js_cell w b)
      (js_cell (vmul w (mat_pow (generateTransitionMatrix N p) e)) b).
Proof.
  intros Hp Hq Hw Hpos Hb.
  pose proof (is_matrix_generateTransitionMatrix N p) as HM.
  assert (∀ i j, i < N + 1 → j < N + 1 →
            rle rO (entry (generateTransitionMatrix N p) i j)) as HMpos.
  { intros i j Hi Hj. rewrite entry_generateTransitionMatrix by lia.
    by apply transition_entry_nonneg. }
  induction e as [|e IH]; simpl.
  - rewrite (proj1 HM), (vmul_identity (N + 1)) by (done || lia).
    apply rle_refl.
  - rewrite <- (vmul_mmul (N + 1))
      by (lia || done || apply is_matrix_mat_pow; (lia || done)).
    eapply rle_trans; [exact IH|].
    apply absorbing_cell_step; try done.
    + apply length_vmul_square; [lia|]. apply is_matrix_mat_pow; (lia || done).
    + apply (vmul_nonneg (N + 1)); try done; try lia.
      * apply is_matrix_mat_pow; (lia || done).
      * apply mat_pow_nonneg; (lia || done).
Qed.

(** An advance keeps a vector of non-negative numbers non-negative. *)
Lemma advance_keeps_nonneg (k : jsnum) (s s' : session) :
  Ready s →
  rle rO (p_global s) → rle rO (rI [-] p_global s) →
  Forall (rle rO) (currentVector s) →
  advanceSteps k s = Ret s' →
  Forall (rle rO) (currentVector s').
Proof.
  intros Hs Hp Hq Hpos Hadv.
  destruct (Ready_shape s Hs) as (HN & HM & Hv).
  destruct (advanceSteps_returns k s s' Hs Hadv)
    as (_ & _ & _ & _ & _ & e & ->).
  pose proof (is_matrix_generateTransitionMatrix (N_global s) (p_global s)) as Hsq.
  rewrite HM.
  apply (vmul_nonneg (N_global s + 1)); try done; try lia.
  - apply is_matrix_mat_pow; (lia || done).
  - apply mat_pow_nonneg; try done; try lia.
    intros i j Hi Hj. rewrite entry_generateTransitionMatrix by lia.
    by apply transition_entry_nonneg.
Qed.

(** X16.  Probabilities stay non-negative: in every ready session whose p
    satisfies 0 <= p and 0 <= 1-p, every entry of the current vector is at
    least 0. *)
Theorem Ready_nonnegative (s : session) :
  Ready s →
  rle rO (p_global s) → rle rO (rI [-] p_global s) →
  Forall (rle rO) (currentVector s).
Proof.
  induction 1 as [N n p HN|k s s' Hs IH Hadv]; intros Hp Hq.
  - apply generateInitialVector_nonneg.
  - destruct (advanceSteps_returns k s s' Hs Hadv) as (_ & _ & Ep & _).
    rewrite Ep in Hp, Hq.
    apply (advance_keeps_nonneg k s s'); try done. by apply IH.
Qed.

(** X17.  Absorption is monotone: in a ready session with 0 <= p and
    0 <= 1-p, an advance that returns never lowers the probability of ruin
    (entry 0) nor the probability of the goal (entry N). *)
Theorem absorbed_mass_never_decreases (k : jsnum) (s s' : session) :
  Ready s →
  rle rO (p_global s) → rle rO (rI [-] p_global s) →
  advanceSteps k s = Ret s' →
  rle (js_cell (currentVector s) 0) (js_cell (currentVector s') 0)
  ∧ rle (js_cell (currentVector s) (N_global s))
        (js_cell (currentVector s') (N_global s)).
Proof.
  assert (∀ s0, Ready s0 →
            rle rO (p_global s0) → rle rO (rI [-] p_global s0) →
            Forall (rle rO) (currentVector s0)) as Hnonneg.
  { induction 1 as [N n p HN|k0 s0 s1 Hs0 IH Hadv0]; intros Hp Hq.
    - apply generateInitialVector_nonneg.
    - destruct (advanceSteps_returns k0 s0 s1 Hs0 Hadv0) as (_ & _ & Ep & _).
      rewrite Ep in Hp, Hq.
      apply (advance_keeps_nonneg k0 s0 s1); try done. by apply IH. }
  intros Hs Hp Hq Hadv.
  destruct (Ready_shape s Hs) as (HN & HM & Hv).
  destruct (advanceSteps_returns k s s' Hs Hadv)
    as (_ & _ & _ & _ & _ & e & ->).
  pose proof (Hnonneg s Hs Hp Hq) as Hpos.
  rewrite HM. split; apply absorbing_cell_power; auto.
Qed.

End Order.

(** ** The parameters [getParams] leaves *)

Lemma Qlt_bool_false_iff (x y : Q) : Qlt_bool x y = false ↔ (y <= x)%Q.
Proof.
  rewrite <- not_true_iff_false, Qlt_bool_iff.
  split; [apply Qnot_lt_le|apply Qle_not_lt].
Qed.

Lemma js_or_not_NaN (a : jsnum) (z : Z) : js_or a (js_int z) ≠ JNaN.
Proof. unfold js_or. by destruct a as [q| | |]; simpl; try destruct (Qeq_bool q 0). Qed.

(** The clamping expression of [getParams], for bounds [lo <= hi]. *)
Lemma clamp_range (lo hi : Q) (x : jsnum) :
  (lo <= hi)%Q → x ≠ JNaN →
  ∃ q, (if js_lt x (JNum lo) || js_gt x (JNum hi)
        then js_min (js_max (JNum lo) x) (JNum hi) else x) = JNum q
       ∧ (lo <= q <= hi)%Q.
Proof.
  intros Hlh Hx. destruct x as [qx| | |]; [| | |done].
  - unfold js_gt, js_lt, js_max, js_min, js_lt.
    destruct (Qlt_bool qx lo) eqn:H1; simpl.
    + apply Qlt_bool_iff in H1.
      replace (Qlt_bool lo qx) with false
        by (symmetry; apply Qlt_bool_false_iff; by apply Qlt_le_weak).
      replace (Qlt_bool hi lo) with false
        by (symmetry; by apply Qlt_bool_false_iff).
      exists lo. split; [done|]. split; [apply Qle_refl|done].
    + apply Qlt_bool_false_iff in H1.
      destruct (Qlt_bool hi qx) eqn:H2.
      * apply Qlt_bool_iff in H2.
        replace (Qlt_bool lo qx) with true
          by (symmetry; apply Qlt_bool_iff; by apply Qle_lt_trans with hi).
        replace (Qlt_bool hi qx) with true
          by (symmetry; by apply Qlt_bool_iff).
        exists hi. split; [done|]. split; [done|apply Qle_refl].
      * apply Qlt_bool_false_iff in H2. by exists qx.
  - unfold js_gt, js_lt, js_max, js_min, js_lt. simpl.
    exists hi. split; [done|]. split; [done|apply Qle_refl].
  - unfold js_gt, js_lt, js_max, js_min, js_lt. simpl.
    replace (Qlt_bool hi lo) with false
      by (symmetry; by apply Qlt_bool_false_iff).
    exists lo. split; [done|]. split; [apply Qle_refl|done].
Qed.

(** X18.  Whatever the three fields parse to (NaN and the infinities
    included), [getParams] leaves a goal that is neither zero nor NaN and a
    probability that is a finite number between 0 and 1; and when the goal
    is a positive finite number, a start state that is a finite number
    between 0 and the goal. *)
Theorem getParams_ranges (N_goal n_start p_win : jsnum) :
  let '(N, n, p) := getParams N_goal n_start p_win in
  js_truthy N = true
  ∧ (∃ q, p = JNum q ∧ (0 <= q <= 1)%Q)
  ∧ (∀ qN, N = JNum qN → (0 < qN)%Q → ∃ q, n = JNum q ∧ (0 <= q <= qN)%Q).
Proof.
  unfold getParams. split_and!.
  - unfold js_or. destruct (js_truthy N_goal) eqn:HN; done.
  - apply (clamp_range 0 1); [done|apply js_or_not_NaN].
  - intros qN -> HqN.
    apply (clamp_range 0 qN); [by apply Qlt_le_weak|apply js_or_not_NaN].
Qed.

(** X19.  The clamp of the start state assumes a positive goal: when the
    goal parses to a negative number, [getParams] sets the start state to
    the goal itself, whatever the start field held. *)
Theorem getParams_negative_goal (qN : Q) (n_start p_win : jsnum) :
  (qN < 0)%Q →
  ∃ p, getParams (JNum qN) n_start p_win = (JNum qN, JNum qN, p).
Proof.
  intros HqN. unfold getParams.
  assert (js_or (JNum qN) (js_int 1) = JNum qN) as ->.
  { unfold js_or, js_truthy.
    replace (Qeq_bool qN 0) with false; [done|].
    symmetry. apply not_true_iff_false. rewrite Qeq_bool_iff.
    intros H0. rewrite H0 in HqN. by apply Qlt_irrefl in HqN. }
  eexists. do 2 f_equal.
  pose proof (js_or_not_NaN n_start 0) as Hn.
  destruct (js_or n_start (js_int 0)) as [qn| | |]; [| | |done].
  - unfold js_gt, js_lt, js_max, js_min, js_lt, js_int.
    destruct (Qlt_bool qn (inject_Z 0)) eqn:H1; simpl.
    + apply Qlt_bool_iff in H1.
      replace (Qlt_bool (inject_Z 0) qn) with false
        by (symmetry; apply Qlt_bool_false_iff; by apply Qlt_le_weak).
      by replace (Qlt_bool qN (inject_Z 0)) with true
        by (symmetry; by apply Qlt_bool_iff).
    + apply Qlt_bool_false_iff in H1.
      assert (qN < qn)%Q as Hlt by by apply Qlt_le_trans with (inject_Z 0).
      replace (Qlt_bool qN qn) with true by (symmetry; by apply Qlt_bool_iff).
      destruct (Qlt_bool (inject_Z 0) qn).
      * by replace (Qlt_bool qN qn) with true by (symmetry; by apply Qlt_bool_iff).
      * by replace (Qlt_bool qN (inject_Z 0)) with true
          by (symmetry; by apply Qlt_bool_iff).
  - done.
  - unfold js_gt, js_lt, js_max, js_min, js_lt, js_int. simpl.
    by replace (Qlt_bool qN (inject_Z 0)) with true
      by (symmetry; by apply Qlt_bool_iff).
Qed.

Lemma Qlt_bool_inject_Z (a b : Z) :
  Qlt_bool (inject_Z a) (inject_Z b) = (a <? b)%Z.
Proof.
  unfold Qlt_bool, Qle_bool. simpl. rewrite !Z.mul_1_r. symmetry. apply Z.ltb_antisym.
Qed.

Lemma js_truthy_int (a : Z) : js_truthy (js_int a) = negb (a =? 0)%Z.
Proof.
  unfold js_truthy, js_int, Qeq_bool. simpl. rewrite Z.mul_1_r.
  by destruct a.
Qed.

Lemma js_lt_int (a b : Z) : js_lt (js_int a) (js_int b) = (a <? b)%Z.
Proof. apply Qlt_bool_inject_Z. Qed.

Lemma js_max_int (a b : Z) : js_max (js_int a) (js_int b) = js_int (Z.max a b).
Proof.
  unfold js_max, js_lt, js_int. rewrite Qlt_bool_inject_Z.
  destruct (Z.ltb_spec a b); f_equal; f_equal; lia.
Qed.

Lemma js_min_int (a b : Z) : js_min (js_int a) (js_int b) = js_int (Z.min a b).
Proof.
  unfold js_min, js_lt, js_int. rewrite Qlt_bool_inject_Z.
  destruct (Z.ltb_spec b a); f_equal; f_equal; lia.
Qed.

(** X20.  After [getParams] the start vector is never the all-zero one: for
    a whole goal N >= 1 and any whole start n, [getParams] keeps N and
    leaves the start max(0, min(n, N)); a start field that parses to NaN
    leaves 0; and [generateInitialVector] on what is left is the one-hot
    vector at that state, whose entries sum to 1. *)
Theorem getParams_start_vector (zN zn : Z) (p_win : jsnum) :
  (1 <= zN)%Z →
  let n' := Z.max 0 (Z.min zn zN) in
  (∃ p, getParams (js_int zN) (js_int zn) p_win = (js_int zN, js_int n', p))
  ∧ (∃ p, getParams (js_int zN) JNaN p_win = (js_int zN, js_int 0, p))
  ∧ generateInitialVector (Z.to_nat zN) n'
    = one_hot (Z.to_nat zN + 1) (Z.to_nat n')
  ∧ generateInitialVector (Z.to_nat zN) 0 = one_hot (Z.to_nat zN + 1) 0
  ∧ vsum (generateInitialVector (Z.to_nat zN) n') = rI.
Proof.
  intros HN n'.
  assert (js_or (js_int zN) (js_int 1) = js_int zN) as EN.
  { unfold js_or. rewrite js_truthy_int. by destruct (Z.eqb_spec zN 0); [lia|]. }
  assert (start_in_range (Z.to_nat zN) n' = true) as Hr.
  { unfold start_in_range. apply andb_true_iff. split; apply Z.leb_le; lia. }
  assert (start_in_range (Z.to_nat zN) 0 = true) as Hr0.
  { unfold start_in_range. apply andb_true_iff. split; apply Z.leb_le; lia. }
  split_and!.
  - unfold getParams. rewrite EN. eexists. do 2 f_equal.
    assert (js_or (js_int zn) (js_int 0) = js_int zn) as ->.
    { unfold js_or. rewrite js_truthy_int.
      by destruct (Z.eqb_spec zn 0) as [->|]. }
    unfold js_gt. rewrite !js_lt_int, js_max_int, js_min_int.
    destruct (Z.ltb_spec zn 0), (Z.ltb_spec zN zn); simpl; f_equal; lia.
  - unfold getParams. rewrite EN. eexists. do 2 f_equal.
    change (js_or JNaN (js_int 0)) with (js_int 0).
    unfold js_gt. rewrite !js_lt_int.
    by destruct (Z.ltb_spec 0 0), (Z.ltb_spec zN 0); try lia.
  - by rewrite generateInitialVector_eq, Hr.
  - by rewrite generateInitialVector_eq, Hr0.
  - rewrite generateInitialVector_eq, Hr. apply vsum_one_hot. lia.
Qed.

(** ** Which array a call returns *)

Lemma h_new_prefix (n0 : nat) (h h' : heap) (r : loc) :
  h `prefix_of` h' → h_new n0 h r → h_new n0 h' r.
Proof.
  intros Hpre (Hr & rows & Hl & Hrows). split; [done|]. exists rows.
  split; [|done]. exact (prefix_lookup_Some _ _ _ _ Hl Hpre).
Qed.

Lemma h_identity_new (n : nat) (h h' : heap) (r : loc) :
  h_identity n h = (h', Ret r) → h_new (length h) h' r.
Proof.
  unfold h_identity. rewrite (hm_bind_ret _ _ _ _ _ (h_alloc_eq _ _)).
  set (row := λ i : nat, imap (λ j (_ : R), if bool_decide (i = j) then rI else rO)
                           (replicate n rO)).
  destruct (h_tabulate_grows
    (λ _ x _, length h ≤ x) n
    (λ i, _ ← h_alloc (NumArray (replicate n rO)); h_alloc (NumArray (row i)))
    (h ++ [NumArray (replicate n rO)])) as (h1 & rs & Hrun & Hpre & Hlen & Hrs).
  { done. }
  { intros i h1 _ Hpre. eexists _, _.
    rewrite (hm_bind_ret _ _ _ _ _ (h_alloc_eq _ _)), h_alloc_eq.
    split; [done|]. split.
    - rewrite <- app_assoc. by apply prefix_app_r.
    - apply prefix_length in Hpre. rewrite !length_app in *. simpl in *. lia. }
  rewrite (hm_bind_ret _ _ _ _ _ Hrun), h_alloc_eq. intros [= <- <-].
  apply prefix_length in Hpre. rewrite length_app in Hpre. simpl in Hpre.
  split; [lia|]. exists rs. split; [by rewrite list_lookup_middle|].
  apply Forall_lookup. intros i x Hx. by apply (Hrs i).
Qed.

(** The array a product returns, and its rows, are created by the call. *)
Lemma h_matrixMultiply_new (h : heap) (a b : loc) (A B : matrix R)
    (h' : heap) (r : loc) :
  h_matrix h a A → h_matrix h b B →
  h_matrixMultiply a b h = (h', Ret r) → h_new (length h) h' r.
Proof.
  intros Ha Hb. unfold h_matrixMultiply.
  rewrite (hm_bind_ret _ _ _ _ _ (h_matrix_length _ _ _ Ha)).
  destruct (decide (A = [])) as [->|HA].
  { by rewrite (hm_bind_throw _ _ _ _ _ (h_matrix_no_row _ _ _ 0 Ha eq_refl)). }
  destruct A as [|a0 A']; [done|]. set (A := a0 :: A') in *.
  destruct (h_matrix_row h a A 0 a0 Ha eq_refl) as (ra & Hra & Hra').
  rewrite (hm_bind_ret _ _ _ _ _ Hra).
  assert (h_length ra h = (h, Ret (length a0))) as E1
    by (unfold h_length; by rewrite Hra').
  rewrite (hm_bind_ret _ _ _ _ _ E1).
  destruct (decide (B = [])) as [->|HB].
  { by rewrite (hm_bind_throw _ _ _ _ _ (h_matrix_no_row _ _ _ 0 Hb eq_refl)). }
  destruct B as [|b0 B']; [done|]. set (B := b0 :: B') in *.
  destruct (h_matrix_row h b B 0 b0 Hb eq_refl) as (rb & Hrb & Hrb').
  rewrite (hm_bind_ret _ _ _ _ _ Hrb).
  assert (h_length rb h = (h, Ret (length b0))) as E2
    by (unfold h_length; by rewrite Hrb').
  rewrite (hm_bind_ret _ _ _ _ _ E2).
  rewrite (hm_bind_ret _ _ _ _ _ (h_matrix_length _ _ _ Hb)).
  destruct (length a0 =? length B) eqn:Hc; [|done]. cbn [negb].
  rewrite (hm_bind_ret _ _ _ _ _ (h_zero_matrix_eq _ _ _)).
  set (rows := length A). set (result := S (length h) + rows).
  destruct (h_for_follows (layout h rows) (λ res, length res = rows) rows
    (λ i, h_for (length b0) (λ j, h_for (length a0) (λ k,
       ri ← h_row result i; old ← h_cell ri j;
       ai ← h_row a i; x ← h_cell ai k;
       bk ← h_row b k; y ← h_cell bk j;
       h_store ri j (old [+] x [*] y))))
    (λ i res, for_range (length b0) (λ j res, for_range (length a0) (λ k res,
       add2 i j (entry A i k [*] entry B k j) res) res) res)
    (replicate rows (replicate (length b0) rO))) as [Hrun Hlen].
  { intros i res Hi Hres.
    apply (h_for_follows (layout h rows) (λ res, length res = rows)); [|done].
    intros j res' Hj Hres'.
    apply (h_for_follows (layout h rows) (λ res, length res = rows)); [|done].
    intros k res'' Hk Hres''. split.
    - apply h_multiply_pass; try done. apply Nat.eqb_eq in Hc. lia.
    - by rewrite length_add2. }
  { apply length_replicate. }
  rewrite (hm_bind_ret _ _ _ _ _ Hrun). intros [= <- <-].
  split; [unfold result; lia|].
  exists (seq (S (length h)) rows). split; [by apply layout_result|].
  apply Forall_lookup. intros i x Hx. apply lookup_seq in Hx as [-> _]. lia.
Qed.

Lemma h_matrixMultiply_follows_new (n0 : nat) (h : heap) (a b : loc)
    (A B : matrix R) :
  n0 ≤ length h → h_matrix h a A → h_matrix h b B →
  follows (λ h1 x C, h_matrix h1 x C ∧ h_new n0 h1 x) h
    (h_matrixMultiply a b h) (matrixMultiply A B).
Proof.
  intros Hn Ha Hb.
  destruct (h_matrixMultiply_spec h a b A B Ha Hb) as (h' & out & Hrun & Hpre & Hout).
  rewrite Hrun. split; [done|].
  destruct (matrixMultiply A B) as [C|e|]; [|done|done].
  destruct Hout as (r & -> & Hr). exists r. split; [done|]. split; [done|].
  destruct (h_matrixMultiply_new h a b A B h' r Ha Hb Hrun)
    as (Hge & rows & Hl & Hrows).
  split; [simpl; lia|]. exists rows. split; [done|].
  eapply Forall_impl; [done|]. intros x Hx. simpl in *. lia.
Qed.

Lemma h_power_loop_follows_new (n0 fuel : nat) (h : heap) (r b : loc)
    (Rm Bm : matrix R) (exp : jsnum) :
  n0 ≤ length h → h_matrix h r Rm → h_new n0 h r → h_matrix h b Bm →
  follows (λ h1 x C, h_matrix h1 x C ∧ h_new n0 h1 x) h
    (h_power_loop fuel r b exp h) (power_loop fuel Rm Bm exp).
Proof.
  revert h r b Rm Bm exp.
  induction fuel as [|fuel IH]; intros h r b Rm Bm exp Hn Hr Hnew Hb;
    cbn [h_power_loop power_loop];
    (destruct (js_gt exp (js_int 0)); [|by apply follows_ret]).
  - by split.
  - apply (follows_bind (λ h1 x C, h_matrix h1 x C ∧ h_new n0 h1 x)).
    { destruct (js_strict_eq (js_mod exp (js_int 2)) (js_int 1)).
      - by apply h_matrixMultiply_follows_new.
      - by apply follows_ret. }
    intros h1 r' Rm' Hpre1 [Hr' Hnew'].
    assert (h_matrix h1 b Bm) as Hb1 by by eapply h_matrix_prefix.
    apply (follows_bind h_matrix); [by apply h_matrixMultiply_follows|].
    intros h2 b' Bm' Hpre2 Hb'.
    apply IH.
    + apply prefix_length in Hpre1, Hpre2. lia.
    + by eapply h_matrix_prefix.
    + by eapply h_new_prefix.
    + done.
Qed.

(** X21.  Which array the caller gets back.  For the exponent 1
    [matrixPower] returns the caller's own array (the same object, not a
    copy).  For every other exponent for which it returns, and for every
    product [matrixMultiply] returns, the array returned and each of its
    rows are objects created during the call: none of them is the argument,
    a row of it, or any other array the store held before. *)
Theorem matrixPower_returned_array (h : heap) (m : loc) (M : matrix R) :
  h_matrix h m M →
  (∃ h', h_matrixPower m (js_int 1) h = (h', Ret m))
  ∧ (∀ k h' r, js_strict_eq k (js_int 1) = false →
       h_matrixPower m k h = (h', Ret r) →
       h_new (length h) h' r ∧ r ≠ m)
  ∧ (∀ b B h' r, h_matrix h b B →
       h_matrixMultiply m b h = (h', Ret r) →
       h_new (length h) h' r ∧ r ≠ m ∧ r ≠ b).
Proof.
  intros Hm.
  assert (m < length h) as Hlt.
  { destruct Hm as (rows & Hl & _). by apply lookup_lt_Some in Hl. }
  split_and!.
  - pose proof (h_matrixPower_one_is_argument h m M Hm) as E.
    destruct (h_matrixPower m (js_int 1) h) as [h' out]. simpl in E. subst out.
    by exists h'.
  - intros k h' r Hk Hrun.
    assert (h_new (length h) h' r) as Hnew; [|split; [done|destruct Hnew; lia]].
    revert Hrun. unfold h_matrixPower.
    rewrite (hm_bind_ret _ _ _ _ _ (h_matrix_length _ _ _ Hm)).
    destruct (h_identity_spec (length M) h) as (h1 & idl & Hid & Hpre1 & Hidl).
    rewrite (hm_bind_ret _ _ _ _ _ Hid).
    pose proof (h_identity_new _ _ _ _ Hid) as Hidnew.
    assert (h_matrix h1 m M) as Hm1 by by eapply h_matrix_prefix.
    destruct (js_strict_eq k (js_int 0)).
    { by intros [= <- <-]. }
    rewrite Hk.
    destruct (h_copy_spec h1 m M Hm1) as (h2 & base & Hcopy & Hpre2 & Hbase).
    rewrite (hm_bind_ret _ _ _ _ _ Hcopy). intros Hrun.
    destruct (h_power_loop_follows_new (length h) (power_fuel k) h2 idl base
      (identity_matrix (length M)) M k) as [_ Hout].
    + apply prefix_length in Hpre1, Hpre2. lia.
    + by eapply h_matrix_prefix.
    + by eapply h_new_prefix.
    + done.
    + rewrite Hrun in Hout. simpl in Hout.
      destruct (power_loop _ _ _ _) as [C|e|]; try done.
      by destruct Hout as (x & [= <-] & _ & Hnew).
  - intros b B h' r Hb Hrun.
    assert (b < length h) as Hltb.
    { destruct Hb as (rows & Hl & _). by apply lookup_lt_Some in Hl. }
    pose proof (h_matrixMultiply_new h m b M B h' r Hm Hb Hrun) as Hnew.
    split; [done|]. destruct Hnew. lia.
Qed.

(** ** The marks of the states on the page *)

Lemma js_strict_eq_int (a b : Z) :
  js_strict_eq (js_int a) (js_int b) = (a =? b)%Z.
Proof.
  unfold js_strict_eq, js_int. destruct (Z.eqb_spec a b) as [->|Hne].
  - by apply Qeq_bool_iff.
  - apply not_true_iff_false. rewrite Qeq_bool_iff, inject_Z_injective. done.
Qed.

Lemma js_strict_eq_zero_truthy (N : jsnum) :
  js_truthy N = true → js_strict_eq (js_int 0) N = false.
Proof.
  destruct N as [q| | |]; try done. unfold js_truthy, js_strict_eq, js_int.
  intros Hq. apply negb_true_iff in Hq. apply not_true_iff_false.
  apply not_true_iff_false in Hq. rewrite Qeq_bool_iff in *.
  intros H0. apply Hq. by symmetry.
Qed.

(** X22.  The chart and the table mark the states alike after
    [getParams]: whatever the fields parse to, for the goal [getParams]
    leaves and every index, the bar is red exactly when the cell has the
    class of ruin, green exactly when it has the class of the goal, and
    blue exactly when it has no class.  This rests on the goal not being
    zero: for a goal of 0 the cell of state 0 has the class of ruin while
    its bar is green. *)
Theorem chart_and_table_agree (N_goal n_start p_win : jsnum) (i : nat) :
  let N := (getParams N_goal n_start p_win).1.1 in
  (renderVectorTable_className N i = "ruin"%string
   ↔ renderChart_color N i = "#dc3545"%string)
  ∧ (renderVectorTable_className N i = "goal"%string
     ↔ renderChart_color N i = "#28a745"%string)
  ∧ (renderVectorTable_className N i = EmptyString
     ↔ renderChart_color N i = "#007bff"%string)
  ∧ renderVectorTable_className (js_int 0) 0 = "ruin"%string
  ∧ renderChart_color (js_int 0) 0 = "#28a745"%string.
Proof.
  assert (js_truthy (getParams N_goal n_start p_win).1.1 = true) as HN.
  { unfold getParams, js_or. simpl. by destruct (js_truthy N_goal) eqn:E. }
  intros N. fold N in HN.
  unfold renderVectorTable_className, renderChart_color.
  rewrite !js_strict_eq_int.
  destruct (Z.eqb_spec (Z.of_nat i) 0) as [E0|E0].
  - rewrite E0, (js_strict_eq_zero_truthy N HN). by repeat split.
  - destruct (js_strict_eq (js_int (Z.of_nat i)) N); by repeat split.
Qed.

(** ** Advances by a number that is not whole *)

Lemma Qfloor_between_1_2 (q : Q) : (1 < q)%Q → (q < 2)%Q → Qfloor q = 1%Z.
Proof.
  intros H1 H2.
  assert (1 ≤ Qfloor q)%Z.
  { rewrite <- (Qfloor_Z 1). apply Qfloor_resp_le. by apply Qlt_le_weak. }
  assert (Qfloor q < 2)%Z.
  { rewrite Zlt_Qlt. apply Qle_lt_trans with q; [apply Qfloor_le|done]. }
  lia.
Qed.

(** ** The vector product over the store *)

Lemma vector_loops (v : vector R) (M : matrix R) :
  for_range (cols M) (λ j res,
    for_range (length v) (λ i res,
      alter (λ y, y [+] js_cell v i [*] entry M i j) j res) res)
    (replicate (cols M) rO)
  = vmul v M.
Proof.
  erewrite for_range_ext; last first.
  { intros j res Hj.
    rewrite (for_range_alter (length v)
               (λ i y, y [+] js_cell v i [*] entry M i j) j res).
    reflexivity. }
  rewrite for_range_sweep. unfold vmul.
  apply list_eq; intros j.
  rewrite list_lookup_imap, lookup_mk_vector. case_decide as Hj.
  - by rewrite lookup_replicate_2 by done.
  - by rewrite (proj1 (lookup_replicate_None _ rO j)) by lia.
Qed.

(** One pass of the inner loop of [h_vectorMatrixMultiply] adds one
    product to one cell of the new array. *)
Lemma h_vector_pass (h : heap) (v m : loc) (vs w : vector R) (M : matrix R)
    (i j : nat) :
  h !! v = Some (NumArray vs) → h_matrix h m M → i < length M →
  (old ← h_cell (length h) j;
   x ← h_cell v i;
   mi ← h_row m i;
   y ← h_cell mi j;
   h_store (length h) j (old [+] x [*] y)) (h ++ [NumArray w])
  = (h ++ [NumArray (alter (λ y, y [+] js_cell vs i [*] entry M i j) j w)], Ret tt).
Proof.
  intros Hv Hm Hi. set (H := h ++ [NumArray w]).
  assert (h `prefix_of` H) as Hpre by by apply prefix_app_r.
  assert (H !! (length h : loc) = Some (NumArray w)) as Hres
    by (unfold H; by rewrite list_lookup_middle).
  destruct (lookup_lt_is_Some_2 M i Hi) as [Mi HMi].
  destruct (h_matrix_row H m M i Mi (h_matrix_prefix _ _ _ _ Hpre Hm) HMi)
    as (r & Hr & Hr').
  assert (h_cell (length h) j H = (H, Ret (js_cell w j))) as E1
    by (unfold h_cell; by rewrite Hres).
  assert (h_cell v i H = (H, Ret (js_cell vs i))) as E2.
  { assert (H !! (v : loc) = Some (NumArray vs)) as Hv'
      by exact (prefix_lookup_Some _ _ _ _ Hv Hpre).
    unfold h_cell. by rewrite Hv'. }
  assert (h_cell r j H = (H, Ret (entry M i j))) as E3.
  { unfold h_cell, entry. by rewrite Hr', HMi. }
  rewrite (hm_bind_ret _ _ _ _ _ E1), (hm_bind_ret _ _ _ _ _ E2).
  rewrite (hm_bind_ret _ _ _ _ _ Hr), (hm_bind_ret _ _ _ _ _ E3).
  unfold h_store. rewrite Hres. unfold H.
  rewrite insert_app_r_alt by done. rewrite Nat.sub_diag. simpl.
  by rewrite add_cell_as_store.
Qed.

(** The run of [h_vectorMatrixMultiply] for a vector no longer than the
    matrix has rows: one array is added to the store, and it holds the
    product. *)
Lemma h_vectorMatrixMultiply_run (h : heap) (v m : loc) (vs : vector R)
    (M : matrix R) :
  h !! v = Some (NumArray vs) → h_matrix h m M →
  M ≠ [] → length vs ≤ length M →
  h_vectorMatrixMultiply v m h = (h ++ [NumArray (vmul vs M)], Ret (length h)).
Proof.
  intros Hv Hm HM Hlen. unfold h_vectorMatrixMultiply.
  destruct M as [|m0 M']; [done|]. set (M := m0 :: M') in *.
  destruct (h_matrix_row h m M 0 m0 Hm eq_refl) as (r0 & Hr0 & Hr0').
  rewrite (hm_bind_ret _ _ _ _ _ Hr0).
  assert (h_length r0 h = (h, Ret (length m0))) as E1
    by (unfold h_length; by rewrite Hr0').
  rewrite (hm_bind_ret _ _ _ _ _ E1).
  rewrite (hm_bind_ret _ _ _ _ _ (h_alloc_eq _ _)).
  destruct (h_for_follows (λ w, h ++ [NumArray w]) (λ _, True) (length m0)
    (λ j, n ← h_length v;
          h_for n (λ i,
            old ← h_cell (length h) j; x ← h_cell v i;
            mi ← h_row m i; y ← h_cell mi j;
            h_store (length h) j (old [+] x [*] y)))
    (λ j w, for_range (length vs) (λ i w,
       alter (λ y, y [+] js_cell vs i [*] entry M i j) j w) w)
    (replicate (length m0) rO)) as [Hrun _]; [|done|].
  { intros j w Hj _. split; [|done].
    assert (h_length v (h ++ [NumArray w]) = (h ++ [NumArray w], Ret (length vs)))
      as E2.
    { assert ((h ++ [NumArray w]) !! (v : loc) = Some (NumArray vs)) as Hv'
        by exact (lookup_app_l_Some _ _ _ _ Hv).
      unfold h_length. by rewrite Hv'. }
    rewrite (hm_bind_ret _ _ _ _ _ E2).
    apply (h_for_follows (λ w, h ++ [NumArray w]) (λ _, True)); [|done].
    intros i w' Hi _. split; [|done].
    apply h_vector_pass; try done. lia. }
  rewrite (hm_bind_ret _ _ _ _ _ Hrun).
  change (length m0) with (cols M). by rewrite vector_loops.
Qed.

(** X24.  [vectorMatrixMultiply] over the store, for a matrix with at
    least one row and a vector no longer than the matrix has rows: the
    call returns a new array that holds the product, and leaves every
    object the store held, the vector and the matrix among them, as it
    was. *)
Theorem vectorMatrixMultiply_leaves_arguments (h : heap) (v m : loc)
    (vs : vector R) (M : matrix R) (r c : nat) :
  h !! v = Some (NumArray vs) → h_matrix h m M →
  0 < r → is_matrix r c M → length vs ≤ r →
  ∃ h' res w,
    h_vectorMatrixMultiply v m h = (h', Ret res)
    ∧ vectorMatrixMultiply vs M = Ret w
    ∧ h' !! res = Some (NumArray w)
    ∧ h !! res = None
    ∧ h' !! v = Some (NumArray vs)
    ∧ h_matrix h' m M
    ∧ ∀ l o, h !! l = Some o → h' !! l = Some o.
Proof.
  intros Hv Hm Hr [HlenM Hrows] Hlen.
  assert (M ≠ []) as HM by (intros ->; simpl in HlenM; lia).
  exists (h ++ [NumArray (vmul vs M)]), (length h), (vmul vs M). split_and!.
  - apply h_vectorMatrixMultiply_run; try done. lia.
  - rewrite vectorMatrixMultiply_eq, decide_False by done.
    rewrite decide_True; [done|]. left. lia.
  - by rewrite list_lookup_middle.
  - by apply lookup_ge_None_2.
  - by apply lookup_app_l_Some.
  - eapply h_matrix_prefix; [|done]. by apply prefix_app_r.
  - intros l o Hl. by apply lookup_app_l_Some.
Qed.

(** * The engine on doubles

    What follows uses no law of arithmetic: it holds for the rounded
    sums and products of binary64 numbers as it does for exact ones. *)

(** ** Shapes *)

(** On square matrices the loop of [matrixPower] never throws, and what it
    returns is square. *)
Lemma power_loop_square (n fuel : nat) (result base : matrix R) (exp : jsnum) :
  0 < n → is_matrix n n result → is_matrix n n base →
  match power_loop fuel result base exp with
  | Ret P => is_matrix n n P
  | Throw _ => False
  | Diverge => True
  end.
Proof.
  intros Hn. revert result base exp.
  induction fuel as [|fuel IH]; intros result base exp Hr Hb; cbn [power_loop];
    (destruct (js_gt exp (js_int 0)); [|done]); [done|].
  destruct (js_strict_eq (js_mod exp (js_int 2)) (js_int 1));
    rewrite !(matrixMultiply_square n) by done; cbn [mbind outcome_bind];
    apply IH; auto using is_matrix_mmul.
Qed.

Lemma matrixPower_square_outcome (n : nat) (M : matrix R) (k : jsnum) :
  0 < n → is_matrix n n M →
  match matrixPower M k with
  | Ret P => is_matrix n n P
  | Throw _ => False
  | Diverge => True
  end.
Proof.
  intros Hn HM. unfold matrixPower. rewrite (proj1 HM).
  destruct (js_strict_eq k (js_int 0)); [apply is_matrix_identity|].
  destruct (js_strict_eq k (js_int 1)); [done|].
  rewrite list_fmap_id. apply power_loop_square; auto using is_matrix_identity.
Qed.

Lemma matrixPower_square (n : nat) (M : matrix R) (k : jsnum) :
  0 < n → is_matrix n n M → k ≠ JPosInf →
  ∃ P, matrixPower M k = Ret P ∧ is_matrix n n P.
Proof.
  intros Hn HM Hk. pose proof (matrixPower_square_outcome n M k Hn HM) as Hout.
  destruct (matrixPower M k) as [P| |] eqn:E; [by exists P|done|].
  destruct k as [q| | |]; [|done| |].
  - by destruct (matrixPower_finishes M q).
  - by rewrite matrixPower_NegInf in E.
  - by rewrite matrixPower_NaN in E.
Qed.

Lemma advanceBySteps_shape (n : nat) (v : vector R) (M : matrix R) (k : jsnum) :
  0 < n → length v = n → is_matrix n n M → k ≠ JPosInf →
  ∃ P, matrixPower M k = Ret P ∧ is_matrix n n P
       ∧ advanceBySteps v M k = Ret (vmul v P)
       ∧ length (vmul v P) = n.
Proof.
  intros Hn Hv HM Hk.
  destruct (matrixPower_square n M k Hn HM Hk) as (P & HP & HPsq).
  exists P. split_and!; [done|done| |by apply length_vmul_square].
  unfold advanceBySteps. rewrite HP. cbn [mbind outcome_bind].
  by apply (vectorMatrixMultiply_square n).
Qed.

Lemma advanceBySteps_returned_length (n : nat) (v v' : vector R) (M : matrix R)
    (k : jsnum) :
  0 < n → length v = n → is_matrix n n M →
  advanceBySteps v M k = Ret v' → length v' = n.
Proof.
  intros Hn Hv HM. unfold advanceBySteps.
  pose proof (matrixPower_square_outcome n M k Hn HM) as Hout.
  destruct (matrixPower M k) as [P| |]; cbn [mbind outcome_bind]; [|done|done].
  rewrite (vectorMatrixMultiply_square n) by done. intros [= <-].
  by apply length_vmul_square.
Qed.


(** What [Ready_shape] says, without a law of arithmetic. *)
Lemma Ready_layout (s : session) :
  Ready s →
  1 ≤ N_global s
  ∧ transitionMatrix s = generateTransitionMatrix (N_global s) (p_global s)
  ∧ length (currentVector s) = N_global s + 1.
Proof.
  induction 1 as [N n p HN|k s s' _ (HN & HM & Hv) Hadv].
  - simpl. split_and!; [done|done|apply length_generateInitialVector].
  - unfold advanceSteps in Hadv.
    destruct (advanceBySteps (currentVector s) (transitionMatrix s) (coerce_steps k))
      as [v'| |] eqn:Hv'; cbn [mbind outcome_bind] in Hadv; try done.
    injection Hadv as <-. simpl. split_and!; [done|done|].
    apply (advanceBySteps_returned_length (N_global s + 1)) in Hv'; [done|lia|done|].
    rewrite HM. apply is_matrix_generateTransitionMatrix.
Qed.

(** ** The exponent is never refused *)

(** C5 (as amended).  For a square matrix, [matrixPower] raises no error
    for any exponent other than plus infinity: it returns a matrix of the
    same size; for an exponent that is not positive, for minus infinity
    and for NaN that matrix is the identity, and for 1 it is the matrix
    given. *)
Theorem matrixPower_never_rejects (n : nat) (M : matrix R) :
  0 < n →
  is_matrix n n M →
  (∀ k, k ≠ JPosInf → ∃ P, matrixPower M k = Ret P ∧ is_matrix n n P)
  ∧ (∀ q, (q <= 0)%Q → matrixPower M (JNum q) = Ret (identity_matrix n))
  ∧ matrixPower M JNegInf = Ret (identity_matrix n)
  ∧ matrixPower M JNaN = Ret (identity_matrix n)
  ∧ matrixPower M (js_int 1) = Ret M.
Proof.
  intros Hn HM. split_and!.
  - intros k Hk. by apply matrixPower_square.
  - intros q Hq. unfold matrixPower. rewrite (proj1 HM).
    destruct (js_strict_eq (JNum q) (js_int 0)); [done|].
    replace (js_strict_eq (JNum q) (js_int 1)) with false.
    + apply power_loop_stop. unfold js_gt, js_lt, js_int.
      apply Qlt_bool_false_iff. exact Hq.
    + symmetry. apply not_true_iff_false. unfold js_strict_eq, js_int.
      rewrite Qeq_bool_iff. intros H1. rewrite H1 in Hq. by apply Hq.
  - rewrite matrixPower_NegInf. by rewrite (proj1 HM).
  - rewrite matrixPower_NaN. by rewrite (proj1 HM).
  - reflexivity.
Qed.

(** ** The step counter *)

Lemma Qred_inject_Z (z : Z) : Qred (inject_Z z) = inject_Z z.
Proof. apply Qred_identity. simpl. apply Z.gcd_1_r. Qed.

(** Whole numbers of magnitude up to 2^53 are binary64 values. *)
Lemma binary64_whole (z : Z) :
  (Z.abs z <= 2 ^ 53)%Z → binary64 (inject_Z z) = true.
Proof.
  intros Hz. unfold binary64. rewrite Qred_inject_Z. cbn [Qnum Qden inject_Z].
  change (Z.log2 1) with 0%Z. change ((1 =? 2 ^ 0)%Z) with true.
  change ((0 <=? 1074)%Z) with true. change ((1 =? 1)%Z) with true.
  cbn [andb].
  destruct (Z.ltb_spec (Z.abs z) (2 ^ 53)) as [|Hge]; [done|].
  assert (Z.abs z = 2 ^ 53)%Z as -> by lia. by vm_compute.
Qed.

(** The sum of two whole numbers is exact while it stays within 2^53. *)
Lemma js_add_whole (a b : Z) :
  (Z.abs (a + b) <= 2 ^ 53)%Z → js_add (js_int a) (js_int b) = js_int (a + b).
Proof.
  intros Hab. unfold js_add, js_int, round64.
  rewrite <- inject_Z_plus. rewrite (binary64_whole _ Hab).
  by rewrite Qred_inject_Z.
Qed.

(** C7 (as amended).  In a ready session, [advanceSteps] with a k below 1
    (zero, a negative number, minus infinity) or NaN does exactly what it
    does with 1.  With 1 it returns: entry j of the new vector is the sum
    over i of v[i] * P[i][j], added in the order of i, the matrix is kept,
    and the counter is the double nearest to the old counter plus 1: the
    old counter plus 1 itself while the counter is a whole number below
    2^53.  With a whole k >= 1 it returns and the counter is the double
    nearest to the old counter plus k, which is the old counter plus k
    itself as long as that is a whole number of at most 2^53. *)
Theorem advanceSteps_coerces_k (s : session) :
  Ready s →
  (∀ k, js_lt k (js_int 1) = true ∨ k = JNaN →
     advanceSteps k s = advanceSteps (js_int 1) s)
  ∧ (∃ s', advanceSteps (js_int 1) s = Ret s'
           ∧ currentVector s'
             = mk_vector (N_global s + 1) (λ j,
                 sumf (N_global s + 1) (λ i,
                   js_cell (currentVector s) i [*] entry (transitionMatrix s) i j))
           ∧ transitionMatrix s' = transitionMatrix s
           ∧ currentStep s' = js_add (currentStep s) (js_int 1)
           ∧ ∀ c : Z, currentStep s = js_int c → (0 <= c)%Z → (c < 2 ^ 53)%Z →
               currentStep s' = js_int (c + 1))
  ∧ (∀ k : nat, 1 ≤ k →
       ∃ s', advanceSteps (js_int (Z.of_nat k)) s = Ret s'
             ∧ length (currentVector s') = N_global s + 1
             ∧ currentStep s' = js_add (currentStep s) (js_int (Z.of_nat k))
             ∧ ∀ c : Z, currentStep s = js_int c → (0 <= c)%Z →
                 (c + Z.of_nat k <= 2 ^ 53)%Z →
                 currentStep s' = js_int (c + Z.of_nat k)).
Proof.
  intros Hs. destruct (Ready_layout s Hs) as (HN & HM & Hv).
  assert (is_matrix (N_global s + 1) (N_global s + 1) (transitionMatrix s)) as Hsq
    by (rewrite HM; apply is_matrix_generateTransitionMatrix).
  split_and!.
  - intros k Hk. unfold advanceSteps.
    assert (coerce_steps k = js_int 1) as ->; [|done].
    unfold coerce_steps. destruct Hk as [-> | ->]; done.
  - unfold advanceSteps, advanceBySteps.
    change (coerce_steps (js_int 1)) with (js_int 1).
    change (matrixPower (transitionMatrix s) (js_int 1))
      with (Ret (transitionMatrix s)).
    cbn [mbind outcome_bind].
    rewrite (vectorMatrixMultiply_square (N_global s + 1)) by (done || lia).
    cbn [mbind outcome_bind]. eexists. split; [done|]. simpl. split_and!; try done.
    + unfold vmul. by rewrite (is_matrix_cols _ _ _ Hsq) , Hv by lia.
    + intros c -> Hc Hc1. apply js_add_whole. lia.
  - intros k Hk. unfold advanceSteps. rewrite coerce_steps_whole by done.
    destruct (advanceBySteps_shape (N_global s + 1) (currentVector s)
                (transitionMatrix s) (js_int (Z.of_nat k)))
      as (P & _ & _ & -> & Hlen); [lia|done|done|done|].
    cbn [mbind outcome_bind]. eexists. split; [done|]. simpl.
    split_and!; [done|done|].
    intros c -> Hc Hck. apply js_add_whole. lia.
Qed.

(** ** The identity matrix *)

Lemma sumf_all_zero (n : nat) (f : nat → R) :
  rO [+] rO = rO → (∀ k, k < n → f k = rO) → sumf n f = rO.
Proof.
  intros H0 Hf. induction n as [|n IH]; [done|].
  rewrite sumf_S, IH, Hf by (intros; auto with lia). done.
Qed.

(** A sum with one term that is not zero is that term. *)
Lemma sumf_one_term (n i : nat) (f : nat → R) (x : R) :
  i < n → rO [+] rO = rO → rO [+] x = x → x [+] rO = x →
  (∀ k, k < n → f k = if bool_decide (k = i) then x else rO) →
  sumf n f = x.
Proof.
  intros Hi H0 Hl Hr Hf. induction n as [|n IH]; [lia|].
  rewrite sumf_S, (Hf n) by lia. case_bool_decide as Hn.
  - subst i. rewrite (sumf_all_zero n f H0); [done|].
    intros k Hk. rewrite Hf by lia. by rewrite bool_decide_eq_false_2 by lia.
  - rewrite IH; [done|lia|]. intros k Hk. apply Hf. lia.
Qed.

Lemma entry_Forall (P : R → Prop) (r c : nat) (A : matrix R) (i j : nat) :
  is_matrix r c A → Forall (Forall P) A → i < r → j < c → P (entry A i j).
Proof.
  intros [Hlen Hrows] HA Hi Hj. unfold entry, js_cell.
  destruct (lookup_lt_is_Some_2 A i) as [row Hrow]; [lia|]. rewrite Hrow. simpl.
  pose proof (Forall_lookup_1 _ _ _ _ Hrows Hrow) as Hc. simpl in Hc.
  destruct (lookup_lt_is_Some_2 row j) as [x Hx]; [lia|]. rewrite Hx. simpl.
  exact (Forall_lookup_1 _ _ _ _ (Forall_lookup_1 _ _ _ _ HA Hrow) Hx).
Qed.

Lemma vmul_identity_finite (n : nat) (v : vector R) :
  0 < n → length v = n → rO [+] rO = rO → Forall finite_like v →
  vmul v (identity_matrix n) = v.
Proof.
  intros Hn Hv H0 Hfin. unfold vmul.
  rewrite (is_matrix_cols n n _ (is_matrix_identity n) Hn), Hv.
  etransitivity; [|symmetry; rewrite <- Hv; apply vector_eta].
  rewrite Hv. apply mk_vector_ext; intros j Hj.
  assert (∀ i, i < n → finite_like (js_cell v i)) as Hcell.
  { intros i Hi. unfold js_cell.
    destruct (lookup_lt_is_Some_2 v i) as [x Hx]; [lia|]. rewrite Hx. simpl.
    exact (Forall_lookup_1 _ _ _ _ Hfin Hx). }
  destruct (Hcell j Hj) as (Hl & Hr & _).
  apply (sumf_one_term n j); try done.
  intros i Hi. rewrite identity_matrix_eq, entry_mk_matrix by done.
  destruct (Hcell i Hi) as (_ & _ & _ & H1 & _ & H0').
  repeat case_bool_decide; try lia; try (by subst); done.
Qed.

(** X3.  The identity matrix that [matrixPower] builds is neutral for
    [matrixMultiply] on both sides of an r x c matrix (r, c >= 1) whose
    entries are numbers that adding 0 and multiplying by 1 leave as they
    are and that multiplying by 0 turns into 0, as every finite double
    other than -0 is: the matrix returned is the operand itself.  (An
    infinity or NaN in the operand turns the zeros of the identity into
    NaN.) *)
Theorem matrixMultiply_identity_finite (r c : nat) (A : matrix R) :
  0 < r → 0 < c → is_matrix r c A →
  rO [+] rO = rO →
  Forall (Forall finite_like) A →
  matrixMultiply (identity_matrix r) A = Ret A
  ∧ matrixMultiply A (identity_matrix c) = Ret A.
Proof.
  intros Hr Hc HA H0 Hfin.
  assert (∀ i j, i < r → j < c → finite_like (entry A i j)) as Hentry
    by (intros; by apply (entry_Forall finite_like r c)).
  split.
  - rewrite (matrixMultiply_rect r r c) by auto using is_matrix_identity.
    f_equal. rewrite (mmul_rect r r c) by auto using is_matrix_identity.
    etransitivity; [|symmetry; apply (matrix_eta r c A HA)].
    apply mk_matrix_ext; intros i j Hi Hj.
    destruct (Hentry i j Hi Hj) as (Hl & Hr' & _).
    apply (sumf_one_term r i); try done.
    intros k Hk. rewrite identity_matrix_eq, entry_mk_matrix by done.
    destruct (Hentry k j Hk Hj) as (_ & _ & H1 & _ & Hz & _).
    repeat case_bool_decide; try lia; try (by subst); done.
  - rewrite (matrixMultiply_rect r c c) by auto using is_matrix_identity.
    f_equal. rewrite (mmul_rect r c c) by auto using is_matrix_identity.
    etransitivity; [|symmetry; apply (matrix_eta r c A HA)].
    apply mk_matrix_ext; intros i j Hi Hj.
    destruct (Hentry i j Hi Hj) as (Hl & Hr' & _).
    apply (sumf_one_term c j); try done.
    intros k Hk. rewrite identity_matrix_eq, entry_mk_matrix by done.
    destruct (Hentry i k Hi Hk) as (_ & _ & _ & H1 & _ & Hz).
    repeat case_bool_decide; try lia; try (by subst); done.
Qed.

(** ** Advances by a number between 1 and 2 *)

(** X23.  An advance by a k with 1 < k < 2 leaves the counter and the
    vector out of step.  In a ready session a k below 1 is coerced to 1,
    but such a k is passed on: [advanceSteps] returns, the counter is the
    double nearest to the old counter plus k (k itself after a reset,
    when k is a double), and the vector is multiplied by the identity
    matrix, so a vector of finite numbers stays as it was. *)
Theorem advanceSteps_fractional (s : session) (q : Q) :
  Ready s →
  ((q < 1)%Q → advanceSteps (JNum q) s = advanceSteps (js_int 1) s)
  ∧ ((1 < q)%Q → (q < 2)%Q →
     ∃ s', advanceSteps (JNum q) s = Ret s'
           ∧ vectorMatrixMultiply (currentVector s)
               (identity_matrix (N_global s + 1)) = Ret (currentVector s')
           ∧ currentStep s' = js_add (currentStep s) (JNum q)
           ∧ (currentStep s = js_int 0 → binary64 q = true →
              currentStep s' = JNum (Qred q))
           ∧ (rO [+] rO = rO → Forall finite_like (currentVector s) →
              currentVector s' = currentVector s)).
Proof.
  intros Hs. destruct (Ready_layout s Hs) as (HN & HM & Hv).
  assert (is_matrix (N_global s + 1) (N_global s + 1) (transitionMatrix s)) as Hsq
    by (rewrite HM; apply is_matrix_generateTransitionMatrix).
  split.
  - intros Hq. unfold advanceSteps.
    assert (coerce_steps (JNum q) = js_int 1) as ->; [|done].
    unfold coerce_steps, js_lt, js_isNaN, js_int.
    by replace (Qlt_bool q (inject_Z 1)) with true
      by (symmetry; by apply Qlt_bool_iff).
  - intros H1 H2.
    assert (coerce_steps (JNum q) = JNum q) as Hc.
    { unfold coerce_steps, js_lt, js_isNaN, js_int.
      by replace (Qlt_bool q (inject_Z 1)) with false
        by (symmetry; apply Qlt_bool_false_iff; by apply Qlt_le_weak). }
    assert (is_whole q = false) as Hw.
    { unfold is_whole. rewrite (Qfloor_between_1_2 q H1 H2).
      apply not_true_iff_false. rewrite Qeq_bool_iff. intros E.
      rewrite E in H1. by apply Qlt_irrefl in H1. }
    assert (matrixPower (transitionMatrix s) (JNum q)
            = Ret (identity_matrix (N_global s + 1))) as HP.
    { unfold matrixPower. rewrite (proj1 Hsq), list_fmap_id.
      replace (js_strict_eq (JNum q) (js_int 0)) with false.
      2:{ symmetry. apply not_true_iff_false. unfold js_strict_eq, js_int.
          rewrite Qeq_bool_iff. intros E. rewrite E in H1. done. }
      replace (js_strict_eq (JNum q) (js_int 1)) with false.
      2:{ symmetry. apply not_true_iff_false. unfold js_strict_eq, js_int.
          rewrite Qeq_bool_iff. intros E. rewrite E in H1.
          by apply Qlt_irrefl in H1. }
      unfold power_fuel. rewrite (Qfloor_between_1_2 q H1 H2).
      change (S (Z.to_nat (Z.log2 1))) with 1.
      rewrite power_loop_pass by (by apply Qlt_trans with 1%Q).
      rewrite Hw. cbn [andb mbind outcome_bind].
      rewrite (matrixMultiply_square (N_global s + 1)) by (done || lia).
      cbn [mbind outcome_bind]. rewrite (Qfloor_between_1_2 q H1 H2).
      by apply power_loop_stop. }
    unfold advanceSteps, advanceBySteps. rewrite Hc, HP.
    cbn [mbind outcome_bind].
    rewrite (vectorMatrixMultiply_square (N_global s + 1))
      by (done || lia || apply is_matrix_identity).
    cbn [mbind outcome_bind]. eexists. split; [done|]. simpl.
    split_and!; [done|done| |].
    + intros -> Hb. unfold js_add, js_int, round64.
      assert (Qred (inject_Z 0 + q) = Qred q) as E
        by (apply Qred_complete; ring).
      unfold binary64 at 1. rewrite E. fold (binary64 q). by rewrite Hb.
    + intros H0 Hfin. apply vmul_identity_finite; try done. lia.
Qed.

End Engine.

(** * The engine under two arithmetics

    The engine does the same steps whatever the numbers are: run on two
    number types whose zeros, ones, sums, products and differences are
    related, it ends the same way and returns related arrays. *)

Section Transfer.
Context {A B : Type}.
Context (aO aI : A) (aadd amul asub : A → A → A).
Context (bO bI : B) (badd bmul bsub : B → B → B).
Context (ρ : A → B → Prop).
Context (ρ_O : ρ aO bO) (ρ_I : ρ aI bI).
Context (ρ_add : ∀ a a' b b', ρ a b → ρ a' b' → ρ (aadd a a') (badd b b')).
Context (ρ_mul : ∀ a a' b b', ρ a b → ρ a' b' → ρ (amul a a') (bmul b b')).
Context (ρ_sub : ∀ a a' b b', ρ a b → ρ a' b' → ρ (asub a a') (bsub b b')).

Lemma transfer_bind {S S' T T' : Type} (r : S → S' → Prop) (r' : T → T' → Prop)
    (m : outcome S) (m' : outcome S') (f : S → outcome T) (g : S' → outcome T') :
  outcome_rel r m m' →
  (∀ x y, r x y → outcome_rel r' (f x) (g y)) →
  outcome_rel r' (m ≫= f) (m' ≫= g).
Proof. destruct m, m'; simpl; try done. intros H Hf. by apply Hf. Qed.

Lemma transfer_js_cell (v : list A) (w : list B) (j : nat) :
  Forall2 ρ v w → ρ (js_cell aO v j) (js_cell bO w j).
Proof.
  intros H. unfold js_cell.
  by destruct (proj1 (Forall2_lookup _ _ _) H j).
Qed.

Lemma transfer_row (M : list (list A)) (M' : list (list B)) (i : nat) :
  Forall2 (Forall2 ρ) M M' →
  Forall2 ρ (default [] (M !! i)) (default [] (M' !! i)).
Proof.
  intros H. destruct (proj1 (Forall2_lookup _ _ _) H i); simpl; [done|constructor].
Qed.

Lemma transfer_entry (M : list (list A)) (M' : list (list B)) (i j : nat) :
  Forall2 (Forall2 ρ) M M' → ρ (entry aO M i j) (entry bO M' i j).
Proof. intros H. unfold entry. by apply transfer_js_cell, transfer_row. Qed.

Lemma transfer_cols (M : list (list A)) (M' : list (list B)) :
  Forall2 (Forall2 ρ) M M' → cols M = cols M'.
Proof.
  intros H. unfold cols. exact (Forall2_length _ _ _ (transfer_row M M' 0 H)).
Qed.

Lemma transfer_sumf (n : nat) (f : nat → A) (g : nat → B) :
  (∀ k, k < n → ρ (f k) (g k)) → ρ (sumf aO aadd n f) (sumf bO badd n g).
Proof.
  unfold sumf. induction n as [|n IH]; intros H; simpl; [done|].
  apply ρ_add; [apply IH; intros; apply H; lia|apply H; lia].
Qed.

Lemma transfer_mk_vector (c : nat) (f : nat → A) (g : nat → B) :
  (∀ j, j < c → ρ (f j) (g j)) → Forall2 ρ (mk_vector c f) (mk_vector c g).
Proof.
  intros H. unfold mk_vector. apply Forall2_fmap, Forall_Forall2_diag, Forall_forall.
  intros j Hj%elem_of_seq. apply H. lia.
Qed.

Lemma transfer_mk_matrix (r c : nat) (f : nat → nat → A) (g : nat → nat → B) :
  (∀ i j, i < r → j < c → ρ (f i j) (g i j)) →
  Forall2 (Forall2 ρ) (mk_matrix r c f) (mk_matrix r c g).
Proof.
  intros H. unfold mk_matrix. apply Forall2_fmap, Forall_Forall2_diag, Forall_forall.
  intros i Hi%elem_of_seq. apply transfer_mk_vector. intros j Hj. apply H; lia.
Qed.

Lemma transfer_mmul (M1 M2 : list (list A)) (M1' M2' : list (list B)) :
  Forall2 (Forall2 ρ) M1 M1' → Forall2 (Forall2 ρ) M2 M2' →
  Forall2 (Forall2 ρ) (mmul aO aadd amul M1 M2) (mmul bO badd bmul M1' M2').
Proof.
  intros H1 H2. unfold mmul.
  rewrite (Forall2_length _ _ _ H1), (transfer_cols _ _ H1), (transfer_cols _ _ H2).
  apply transfer_mk_matrix. intros i j _ _. apply transfer_sumf. intros k _.
  apply ρ_mul; by apply transfer_entry.
Qed.



Lemma transfer_matrixMultiply (M1 M2 : list (list A)) (M1' M2' : list (list B)) :
  Forall2 (Forall2 ρ) M1 M1' → Forall2 (Forall2 ρ) M2 M2' →
  outcome_rel (Forall2 (Forall2 ρ))
    (matrixMultiply aO aadd amul M1 M2) (matrixMultiply bO badd bmul M1' M2').
Proof.
  intros H1 H2. rewrite !matrixMultiply_eq.
  pose proof (transfer_cols _ _ H1) as Hc.
  pose proof (Forall2_length _ _ _ H2) as Hl.
  pose proof (transfer_mmul _ _ _ _ H1 H2) as Hm.
  destruct H1 as [|r1 r1' M1 M1' Hr1 H1]; [done|].
  destruct H2 as [|r2 r2' M2 M2' Hr2 H2]; [done|].
  rewrite !(decide_False (P := _ :: _ = [])) by done.
  rewrite <- Hc, <- Hl. by case_decide.
Qed.







Lemma transfer_generateTransitionMatrix (N : nat) (p : A) (p' : B) :
  ρ p p' →
  Forall2 (Forall2 ρ) (generateTransitionMatrix aO aI asub N p)
    (generateTransitionMatrix bO bI bsub N p').
Proof.
  intros Hp. rewrite !generateTransitionMatrix_eq. apply transfer_mk_matrix.
  intros i j _ _. unfold transition_entry.
  destruct ((i =? 0) || (i =? N)); repeat case_bool_decide; auto.
Qed.

End Transfer.

(** * Exact runs and runs on doubles

    A finite double is the rational number it stands for (the two zeros
    being one number, as for [===]).  The doubles are any type [D] with a
    zero, a one, a sum and a product, into which the binary64 values are
    read by [inj], such that a sum or product of binary64 values whose
    exact result is a binary64 value returns that result: the one
    property of IEEE-754 arithmetic used here.  What the operations do
    otherwise (rounding, infinities, NaN) is left open. *)

Section Doubles.
Context {D : Type} (dO dI : D) (dadd dmul : D → D → D) (inj : Qc → D).
Context (inj_zero : inj 0%Qc = dO) (inj_one : inj 1%Qc = dI).
Context (add_exact : ∀ a b : Qc,
  binary64 a = true → binary64 b = true → binary64 (a + b)%Qc = true →
  dadd (inj a) (inj b) = inj (a + b)%Qc).
Context (mul_exact : ∀ a b : Qc,
  binary64 a = true → binary64 b = true → binary64 (a * b)%Qc = true →
  dmul (inj a) (inj b) = inj (a * b)%Qc).

Lemma exact_is_op (op : Qc → Qc → Qc) (a a' : option Qc) (x x' : Qc) :
  exact_is a x → exact_is a' x' → exact_is (unrounded op a a') (op x x').
Proof.
  intros Ha Ha' q. destruct a as [y|], a' as [y'|]; simpl; try done.
  rewrite (Ha y eq_refl), (Ha' y' eq_refl).
  destruct (binary64 (op x x')); [|done]. by intros [= <-].
Qed.

Lemma double_is_op (op : Qc → Qc → Qc) (dop : D → D → D)
    (a a' : option Qc) (d d' : D) :
  (∀ x y : Qc, binary64 x = true → binary64 y = true →
     binary64 (op x y) = true → dop (inj x) (inj y) = inj (op x y)) →
  double_is inj a d → double_is inj a' d' →
  double_is inj (unrounded op a a') (dop d d').
Proof.
  intros Hop Ha Ha' q. destruct a as [y|], a' as [y'|]; simpl; try done.
  destruct (Ha y eq_refl) as [Hy ->]. destruct (Ha' y' eq_refl) as [Hy' ->].
  destruct (binary64 (op y y')) eqn:Hb; [|done]. intros [= <-].
  split; [done|]. by apply Hop.
Qed.

Lemma exact_is_all (v x : list Qc) : Forall2 exact_is (Some <$> v) x → x = v.
Proof.
  intros H. rewrite Forall2_fmap_l in H. symmetry.
  apply list_eq_Forall2. eapply Forall2_impl; [exact H|].
  intros q y Hq. by apply Hq.
Qed.

Lemma exact_is_all2 (M X : list (list Qc)) :
  Forall2 (Forall2 exact_is) (fmap (M:=list) Some <$> M) X → X = M.
Proof.
  intros H. rewrite Forall2_fmap_l in H. symmetry.
  apply list_eq_Forall2. eapply Forall2_impl; [exact H|].
  intros v x Hv. symmetry. by apply exact_is_all.
Qed.

Lemma double_is_all (v : list Qc) (d : list D) :
  Forall2 (double_is inj) (Some <$> v) d → d = inj <$> v.
Proof.
  intros H. rewrite Forall2_fmap_l in H. symmetry.
  apply list_eq_Forall2, Forall2_fmap_l. eapply Forall2_impl; [exact H|].
  intros q y Hq. by destruct (Hq q eq_refl).
Qed.

Lemma double_is_all2 (M : list (list Qc)) (Md : list (list D)) :
  Forall2 (Forall2 (double_is inj)) (fmap (M:=list) Some <$> M) Md → Md = fmap (M:=list) inj <$> M.
Proof.
  intros H. rewrite Forall2_fmap_l in H. symmetry.
  apply list_eq_Forall2, Forall2_fmap_l. eapply Forall2_impl; [exact H|].
  intros v x Hv. symmetry. by apply double_is_all.
Qed.

Lemma exact_is_start (v : list Qc) : Forall2 exact_is (Some <$> v) v.
Proof.
  apply Forall2_fmap_l, Forall_Forall2_diag, Forall_forall.
  intros x _ q. by intros [= <-].
Qed.

Lemma exact_is_start2 (M : list (list Qc)) :
  Forall2 (Forall2 exact_is) (fmap (M:=list) Some <$> M) M.
Proof.
  apply Forall2_fmap_l, Forall_Forall2_diag, Forall_forall.
  intros v _. apply exact_is_start.
Qed.

Lemma double_is_start (v : list Qc) :
  all_binary64 v → Forall2 (double_is inj) (Some <$> v) (inj <$> v).
Proof.
  intros Hv. apply Forall2_fmap, Forall_Forall2_diag.
  eapply Forall_impl; [exact Hv|]. intros x Hx q. by intros [= <-].
Qed.

Lemma double_is_start2 (M : list (list Qc)) :
  Forall all_binary64 M →
  Forall2 (Forall2 (double_is inj)) (fmap (M:=list) Some <$> M) (fmap (M:=list) inj <$> M).
Proof.
  intros HM. apply Forall2_fmap, Forall_Forall2_diag.
  eapply Forall_impl; [exact HM|]. intros v Hv. by apply double_is_start.
Qed.


Local Abbreviation eO := (Some 0%Qc).
Local Abbreviation eI := (Some 1%Qc).
Local Abbreviation eadd := (unrounded Qcplus).
Local Abbreviation emul := (unrounded Qcmult).
Local Abbreviation unrounded_vector v := (Some <$> v) (only parsing).
Local Abbreviation unrounded_matrix M := (fmap (M:=list) Some <$> M) (only parsing).
Local Abbreviation double_vector v := (inj <$> v) (only parsing).
Local Abbreviation double_matrix M := (fmap (M:=list) inj <$> M) (only parsing).

Lemma exact_is_zero : exact_is eO 0%Qc.
Proof. intros q. by intros [= <-]. Qed.


Lemma double_is_zero : double_is inj eO dO.
Proof. intros q. intros [= <-]. by rewrite inj_zero. Qed.


(** What a run in unrounded arithmetic returns, the related run returns
    too, up to the relation. *)
Lemma unrounded_returns {S T : Type} (rel : S → T → Prop) (a : outcome S)
    (b : outcome T) (x : S) :
  outcome_rel rel a b → a = Ret x → ∃ y, b = Ret y ∧ rel x y.
Proof. intros H ->. destruct b as [y| |]; simpl in H; try done. by exists y. Qed.






(** X2.  Products of doubles compose when nothing rounds: for matrices of
    finite numbers A (r x n), B (n x m) and C (m x c), if multiplying
    A by B and the result by C, and multiplying A by the product of B and
    C, both go through in unrounded arithmetic, then they return the same
    matrix, and so do the two computations on doubles. *)
Theorem matrixMultiply_associative_unrounded (r n m c : nat)
    (A B C P Q : list (list Qc)) :
  0 < r → 0 < n → 0 < m →
  is_matrix r n A → is_matrix n m B → is_matrix m c C →
  Forall all_binary64 A → Forall all_binary64 B → Forall all_binary64 C →
  (X ← matrixMultiply eO eadd emul (unrounded_matrix A) (unrounded_matrix B);
   matrixMultiply eO eadd emul X (unrounded_matrix C)) = Ret (unrounded_matrix P) →
  (Y ← matrixMultiply eO eadd emul (unrounded_matrix B) (unrounded_matrix C);
   matrixMultiply eO eadd emul (unrounded_matrix A) Y) = Ret (unrounded_matrix Q) →
  P = Q
  ∧ (X ← matrixMultiply dO dadd dmul (double_matrix A) (double_matrix B);
     matrixMultiply dO dadd dmul X (double_matrix C)) = Ret (double_matrix P)
  ∧ (Y ← matrixMultiply dO dadd dmul (double_matrix B) (double_matrix C);
     matrixMultiply dO dadd dmul (double_matrix A) Y) = Ret (double_matrix P).
Proof.
  intros Hr Hn Hm HA HB HC HbA HbB HbC HP HQ.
  destruct (matrixMultiply_associative 0%Qc 1%Qc Qcplus Qcmult Qcminus Qcopp Qcrt
              r n m c A B C Hr Hn Hm HA HB HC) as (X & HX1 & HX2).
  assert (∀ {T : Type} (bO : T) (badd bmul : T → T → T) (ρ : option Qc → T → Prop),
            ρ eO bO →
            (∀ a a' b b', ρ a b → ρ a' b' → ρ (eadd a a') (badd b b')) →
            (∀ a a' b b', ρ a b → ρ a' b' → ρ (emul a a') (bmul b b')) →
            ∀ A' B' C', Forall2 (Forall2 ρ) (unrounded_matrix A) A' →
              Forall2 (Forall2 ρ) (unrounded_matrix B) B' →
              Forall2 (Forall2 ρ) (unrounded_matrix C) C' →
              outcome_rel (Forall2 (Forall2 ρ))
                (X ← matrixMultiply eO eadd emul (unrounded_matrix A)
                       (unrounded_matrix B);
                 matrixMultiply eO eadd emul X (unrounded_matrix C))
                (X ← matrixMultiply bO badd bmul A' B';
                 matrixMultiply bO badd bmul X C')
              ∧ outcome_rel (Forall2 (Forall2 ρ))
                  (Y ← matrixMultiply eO eadd emul (unrounded_matrix B)
                         (unrounded_matrix C);
                   matrixMultiply eO eadd emul (unrounded_matrix A) Y)
                  (Y ← matrixMultiply bO badd bmul B' C';
                   matrixMultiply bO badd bmul A' Y)) as Hboth.
  { intros T bO badd bmul ρ H0 Hadd Hmul A' B' C' HA' HB' HC'. split.
    - apply (transfer_bind (Forall2 (Forall2 ρ)));
        [by apply transfer_matrixMultiply|].
      intros X1 X1' HX. by apply transfer_matrixMultiply.
    - apply (transfer_bind (Forall2 (Forall2 ρ)));
        [by apply transfer_matrixMultiply|].
      intros Y1 Y1' HY. by apply transfer_matrixMultiply. }
  destruct (Hboth Qc 0%Qc Qcplus Qcmult exact_is exact_is_zero
              (exact_is_op Qcplus) (exact_is_op Qcmult) A B C
              (exact_is_start2 A) (exact_is_start2 B) (exact_is_start2 C))
    as [Hx1 Hx2].
  destruct (unrounded_returns _ _ _ _ Hx1 HP) as (X1 & HX1' & Hr1).
  destruct (unrounded_returns _ _ _ _ Hx2 HQ) as (X2 & HX2' & Hr2).
  rewrite HX1 in HX1'. injection HX1' as <-.
  rewrite HX2 in HX2'. injection HX2' as <-.
  apply exact_is_all2 in Hr1, Hr2. subst Q. subst X. split; [done|].
  destruct (Hboth D dO dadd dmul (double_is inj) double_is_zero
              (λ a a' b b', double_is_op Qcplus dadd a a' b b' add_exact)
              (λ a a' b b', double_is_op Qcmult dmul a a' b b' mul_exact)
              _ _ _ (double_is_start2 A HbA) (double_is_start2 B HbB)
              (double_is_start2 C HbC)) as [Hd1 Hd2].
  destruct (unrounded_returns _ _ _ _ Hd1 HP) as (D1 & HD1 & Hrd1).
  destruct (unrounded_returns _ _ _ _ Hd2 HQ) as (D2 & HD2 & Hrd2).
  apply double_is_all2 in Hrd1, Hrd2. by subst.
Qed.

End Doubles.

(** * Concrete runs

    The engine at two exact number types, the integers and the rationals in
    lowest terms (for the win probability 1/2), at the binary64 numbers of
    the kernel, and in unrounded arithmetic. *)

(** C2, as stated, fails for p = 0: with N = 2 the interior row 1 is
    [1, 0, 0], which has one nonzero entry, not two. *)
Lemma generateTransitionMatrix_p0_one_nonzero :
  generateTransitionMatrix 0%Z 1%Z Z.sub 2 0%Z
  = [[1; 0; 0]; [1; 0; 0]; [0; 0; 1]]%Z
  ∧ ¬ (∃ j1 j2, j1 ≠ j2
         ∧ entry 0%Z (generateTransitionMatrix 0%Z 1%Z Z.sub 2 0%Z) 1 j1 ≠ 0%Z
         ∧ entry 0%Z (generateTransitionMatrix 0%Z 1%Z Z.sub 2 0%Z) 1 j2 ≠ 0%Z).
Proof.
  split; [reflexivity|].
  intros (j1 & j2 & Hne & H1 & H2).
  destruct j1 as [|[|[|j1]]]; destruct j2 as [|[|[|j2]]];
    vm_compute in H1, H2; congruence.
Qed.

(** C5, as stated, fails: for the exponent -1 the identity is returned and
    for the exponent 5/2 the square is returned; no error is raised. *)
Lemma matrixPower_negative_and_fraction_return :
  matrixPower 0%Z 1%Z Z.add Z.mul [[1; 1]; [0; 1]]%Z (JNum (-1))
  = Ret [[1; 0]; [0; 1]]%Z
  ∧ matrixPower 0%Z 1%Z Z.add Z.mul [[1; 1]; [0; 1]]%Z (JNum (5 # 2))
    = Ret [[1; 2]; [0; 1]]%Z.
Proof. split; reflexivity. Qed.

(** C6.  A vector of length 1 against a matrix of two rows: no error is
    raised, the second row is ignored and [1, 0] is returned. *)
Lemma vectorMatrixMultiply_short_vector_returns :
  vectorMatrixMultiply 0%Z Z.add Z.mul [1]%Z [[1; 0]; [0; 1]]%Z = Ret [1; 0]%Z.
Proof. reflexivity. Qed.

(** A vector longer than the matrix has rows makes the code read a row that
    is not there; the error is the TypeError of that read. *)
Lemma vectorMatrixMultiply_long_vector_throws :
  vectorMatrixMultiply 0%Z Z.add Z.mul [1; 0; 0]%Z [[1; 0]; [0; 1]]%Z
  = Throw TypeError.
Proof. reflexivity. Qed.

(** The scenario N = 2, p = 1/2, n = 1 of the specification. *)
Lemma scenario_N2_half :
  generateTransitionMatrix 0%Qc 1%Qc Qcminus 2 (Q2Qc (1 # 2))
  = [[1; 0; 0]; [Q2Qc (1 # 2); 0; Q2Qc (1 # 2)]; [0; 0; 1]]%Qc
  ∧ ∃ s', advanceSteps 0%Qc 1%Qc Qcplus Qcmult (js_int 1)
            (resetSimulation 0%Qc 1%Qc Qcminus 2 1 (Q2Qc (1 # 2))) = Ret s'
          ∧ currentVector s' = [Q2Qc (1 # 2); 0; Q2Qc (1 # 2)]%Qc
          ∧ currentStep s' = js_add (js_int 0) (js_int 1).
Proof.
  split.
  - vm_compute. repeat f_equal; apply Qc_is_canon; reflexivity.
  - eexists. split; [reflexivity|]. split; [|reflexivity].
    vm_compute. repeat f_equal; apply Qc_is_canon; reflexivity.
Qed.

(** ** Runs on binary64

    The engine at the kernel's binary64 numbers, with the rounded sum,
    product and difference of IEEE-754. *)




(** C7, as stated, fails on doubles: a session whose counter has reached
    2^53 is advanced by one step and its counter is still 2^53. *)
Lemma counter_stalls :
  ∃ s s',
    advanceSteps 0%float 1%float PrimFloat.add PrimFloat.mul (js_int (2 ^ 53))
      (resetSimulation 0%float 1%float PrimFloat.sub 1 0 (1 / 2)%float) = Ret s
    ∧ Ready 0%float 1%float PrimFloat.add PrimFloat.mul PrimFloat.sub s
    ∧ currentStep s = js_int (2 ^ 53)
    ∧ advanceSteps 0%float 1%float PrimFloat.add PrimFloat.mul (js_int 1) s = Ret s'
    ∧ currentStep s' = js_int (2 ^ 53)
    ∧ currentStep s' ≠ js_int (2 ^ 53 + 1).
Proof.
  eexists _, _.
  split; [vm_compute; reflexivity|].
  split.
  { apply (Ready_advance _ _ _ _ _ (js_int (2 ^ 53))
             (resetSimulation 0%float 1%float PrimFloat.sub 1 0 (1 / 2)%float)).
    - by apply Ready_reset.
    - vm_compute; reflexivity. }
  split; [by vm_compute|].
  split; [vm_compute; reflexivity|]. split; [by vm_compute|].
  vm_compute. discriminate.
Qed.

(** ** Instances of the claims *)

Lemma generateTransitionMatrix_rows_witness :
  1 ≤ 2
  ∧ is_matrix 3 3 (generateTransitionMatrix 0%Qc 1%Qc Qcminus 2 (Q2Qc (1 # 2)))
  ∧ ∀ i row,
      generateTransitionMatrix 0%Qc 1%Qc Qcminus 2 (Q2Qc (1 # 2)) !! i = Some row →
      vsum 0%Qc Qcplus row = 1%Qc.
Proof.
  assert (1 ≤ 2) as H12 by lia.
  split; [exact H12|].
  pose proof (generateTransitionMatrix_rows 0%Qc 1%Qc Qcplus Qcmult Qcminus Qcopp
                Qcrt 2 (Q2Qc (1 # 2)) H12) as H.
  cbv zeta in H. exact (conj (proj1 H) (proj1 (proj2 H))).
Defined.

Lemma algebra_leaves_arguments_unchanged_witness :
  h_matrix [NumArray [1; 1]%Z; NumArray [0; 1]%Z; RefArray [0; 1]] 2
    [[1; 1]; [0; 1]]%Z
  ∧ ∃ h' out,
      h_matrixPower 0%Z 1%Z Z.add Z.mul 2 (js_int 3)
        [NumArray [1; 1]%Z; NumArray [0; 1]%Z; RefArray [0; 1]] = (h', out)
      ∧ h_matrix h' 2 [[1; 1]; [0; 1]]%Z
      ∧ ∀ l o, [NumArray [1; 1]%Z; NumArray [0; 1]%Z; RefArray [0; 1]] !! l = Some o →
               h' !! l = Some o.
Proof.
  assert (h_matrix [NumArray [1; 1]%Z; NumArray [0; 1]%Z; RefArray [0; 1]] 2
            [[1; 1]; [0; 1]]%Z) as Hm
    by (exists [0; 1]; split; [reflexivity|repeat constructor]).
  split; [exact Hm|].
  destruct (proj1 (algebra_leaves_arguments_unchanged 0%Z 1%Z Z.add Z.mul Z.sub Z.opp
                     Zth _) 2 _ (js_int 3) Hm) as (h' & out & Hrun & Hkeep & Hold & _).
  exists h', out. by split_and!.
Defined.

Lemma generateInitialVector_one_hot_witness :
  1 ≤ 3
  ∧ length (generateInitialVector 0%Z 1%Z 3 2) = 3 + 1
  ∧ generateInitialVector 0%Z 1%Z 3 (-3) = replicate (3 + 1) 0%Z.
Proof.
  assert (1 ≤ 3) as H13 by lia.
  split; [exact H13|].
  split.
  - exact (proj1 (generateInitialVector_one_hot 0%Z 1%Z 3 2 H13)).
  - apply (proj2 (proj2 (generateInitialVector_one_hot 0%Z 1%Z 3 (-3) H13))).
    left. lia.
Defined.

Lemma generateTransitionMatrix_one_is_identity_witness :
  generateTransitionMatrix 0%Qc 1%Qc Qcminus 1 (Q2Qc (1 # 2)) = [[1; 0]; [0; 1]]%Qc.
Proof.
  exact (proj1 (generateTransitionMatrix_one_is_identity 0%Qc 1%Qc Qcplus Qcmult
                  Qcminus Qcopp Qcrt (Q2Qc (1 # 2)))).
Defined.

(** ** Instances of the further properties *)

Lemma matrixMultiply_outcomes_witness :
  (0 < 2 ∧ 0 < 3 ∧ is_matrix 2 2 [[1; 1]; [0; 1]]%Z
   ∧ is_matrix 3 1 [[1]; [2]; [3]]%Z ∧ 2 ≠ 3)
  ∧ matrixMultiply 0%Z Z.add Z.mul [[1; 1]; [0; 1]]%Z [[1]; [2]; [3]]%Z
    = Throw IncompatibleDimensions.
Proof.
  assert (0 < 2) as H2 by lia.
  assert (0 < 3) as H3 by lia.
  assert (2 ≠ 3) as Hne by lia.
  assert (is_matrix 2 2 [[1; 1]; [0; 1]]%Z) as HA
    by (split; [reflexivity|repeat constructor]).
  assert (is_matrix 3 1 [[1]; [2]; [3]]%Z) as HB
    by (split; [reflexivity|repeat constructor]).
  split; [by split_and!|].
  exact (proj1 (matrixMultiply_outcomes 0%Z Z.add Z.mul 2 2 3 1 _ _ H2 H3 HA HB) Hne).
Defined.

Lemma vectorMatrixMultiply_outcomes_witness :
  (0 < 2 ∧ is_matrix 2 2 [[1; 1]; [0; 1]]%Z ∧ 2 < length [1; 0; 0]%Z)
  ∧ vectorMatrixMultiply 0%Z Z.add Z.mul [1; 0; 0]%Z [[1; 1]; [0; 1]]%Z
    = Throw TypeError.
Proof.
  assert (0 < 2) as H2 by lia.
  assert (is_matrix 2 2 [[1; 1]; [0; 1]]%Z) as HM
    by (split; [reflexivity|repeat constructor]).
  assert (2 < length [1; 0; 0]%Z) as Hlen by (simpl; lia).
  split; [by split_and!|].
  exact (proj1 (proj2 (vectorMatrixMultiply_outcomes 0%Z Z.add Z.mul 2 2
                         [1; 0; 0]%Z _ H2 HM)) Hlen H2).
Defined.

Lemma matrixPower_not_square_witness :
  (0 < 2 ∧ 2 ≠ 3 ∧ is_matrix 2 3 [[1; 2; 3]; [4; 5; 6]]%Z ∧ (0 < 2)%Q ∧ ¬ (2 == 1)%Q)
  ∧ matrixPower 0%Z 1%Z Z.add Z.mul [[1; 2; 3]; [4; 5; 6]]%Z (JNum 2)
    = Throw IncompatibleDimensions.
Proof.
  assert (0 < 2) as H2 by lia.
  assert (2 ≠ 3) as Hne by lia.
  assert (is_matrix 2 3 [[1; 2; 3]; [4; 5; 6]]%Z) as HM
    by (split; [reflexivity|repeat constructor]).
  assert (0 < 2)%Q as Hq by reflexivity.
  assert (¬ (2 == 1)%Q) as Hq1 by discriminate.
  split; [by split_and!|].
  exact (proj1 (matrixPower_not_square 0%Z 1%Z Z.add Z.mul 2 3 _ H2 Hne HM) 2%Q Hq Hq1).
Defined.

Lemma matrixPower_ends_witness :
  JNum (5 # 2) ≠ JPosInf
  ∧ matrixPower 0%Z 1%Z Z.add Z.mul [[1; 2; 3]; [4; 5; 6]]%Z (JNum (5 # 2)) ≠ Diverge.
Proof.
  assert (JNum (5 # 2) ≠ JPosInf) as Hk by discriminate.
  split; [exact Hk|].
  exact (proj1 (matrixPower_ends 0%Z 1%Z Z.add Z.mul [[1; 2; 3]; [4; 5; 6]]%Z
                  (JNum (5 # 2)) Hk)).
Defined.

Lemma power_loop_pass_count_witness :
  (0 < 2 ∧ is_matrix 2 2 [[1; 1]; [0; 1]]%Z ∧ (0 < 5)%Q)
  ∧ (power_loop 0%Z Z.add Z.mul 2 [[1; 1]; [0; 1]]%Z [[1; 1]; [0; 1]]%Z (JNum 5)
     = Diverge
     ↔ 2 < power_fuel (JNum 5)).
Proof.
  assert (0 < 2) as H2 by lia.
  assert (is_matrix 2 2 [[1; 1]; [0; 1]]%Z) as HM
    by (split; [reflexivity|repeat constructor]).
  assert (0 < 5)%Q as Hq by reflexivity.
  split; [by split_and!|].
  exact (power_loop_pass_count 0%Z Z.add Z.mul 2 2 _ _ 5%Q H2 HM HM Hq).
Defined.

Lemma advanceSteps_infinity_never_returns_witness :
  Ready 0%Qc 1%Qc Qcplus Qcmult Qcminus
    (resetSimulation 0%Qc 1%Qc Qcminus 2 1 (Q2Qc (1 # 2)))
  ∧ advanceSteps 0%Qc 1%Qc Qcplus Qcmult JPosInf
      (resetSimulation 0%Qc 1%Qc Qcminus 2 1 (Q2Qc (1 # 2)))
    = Diverge.
Proof.
  assert (1 ≤ 2) as H12 by lia.
  pose proof (Ready_reset 0%Qc 1%Qc Qcplus Qcmult Qcminus 2 1 (Q2Qc (1 # 2)) H12)
    as Hready.
  split; [exact Hready|].
  exact (proj2 (proj2 (advanceSteps_infinity_never_returns 0%Qc 1%Qc Qcplus Qcmult
                         Qcminus Qcopp Qcrt _ Hready))).
Defined.

Lemma first_step_from_interior_witness :
  (0 < 1 < Z.of_nat 2)%Z
  ∧ ∃ s', advanceSteps 0%Qc 1%Qc Qcplus Qcmult (js_int 1)
            (resetSimulation 0%Qc 1%Qc Qcminus 2 1 (Q2Qc (1 # 2))) = Ret s'
          ∧ currentStep s' = js_int 1
          ∧ length (currentVector s') = 2 + 1.
Proof.
  assert (0 < 1 < Z.of_nat 2)%Z as Hn by (simpl; lia).
  split; [exact Hn|].
  destruct (first_step_from_interior 0%Qc 1%Qc Qcplus Qcmult Qcminus Qcopp Qcrt
              2 1%Z (Q2Qc (1 # 2)) Hn) as (s' & Hrun & Hstep & Hlen & _).
  exists s'. by split_and!.
Defined.

Lemma absorbed_mass_never_decreases_witness :
  (Ready 0%Z 1%Z Z.add Z.mul Z.sub (resetSimulation 0%Z 1%Z Z.sub 2 1 1%Z)
   ∧ (0 ≤ 1)%Z ∧ (0 ≤ 1 - 1)%Z)
  ∧ ∃ s', advanceSteps 0%Z 1%Z Z.add Z.mul (js_int 1)
            (resetSimulation 0%Z 1%Z Z.sub 2 1 1%Z) = Ret s'
          ∧ (js_cell 0%Z (currentVector (resetSimulation 0%Z 1%Z Z.sub 2 1 1%Z)) 2
             ≤ js_cell 0%Z (currentVector s') 2)%Z.
Proof.
  assert (1 ≤ 2) as H12 by lia.
  pose proof (Ready_reset 0%Z 1%Z Z.add Z.mul Z.sub 2 1 1%Z H12) as Hready.
  assert (0 ≤ 1)%Z as Hp by lia.
  assert (0 ≤ 1 - 1)%Z as Hq by lia.
  split; [by split_and!|].
  eexists. split; [reflexivity|].
  exact (proj2 (absorbed_mass_never_decreases 0%Z 1%Z Z.add Z.mul Z.sub Z.opp Zth Z.le
                  Z.le_refl Z.le_trans Z.add_le_mono Z.mul_nonneg_nonneg Z.le_0_1
                  (js_int 1) _ _ Hready Hp Hq eq_refl)).
Defined.

Lemma getParams_negative_goal_witness :
  (-3 < 0)%Q
  ∧ ∃ p, getParams (JNum (-3)) (js_int 2) (JNum (1 # 2))
         = (JNum (-3), JNum (-3), p).
Proof.
  assert (-3 < 0)%Q as HN by reflexivity.
  split; [exact HN|].
  exact (getParams_negative_goal (-3)%Q (js_int 2) (JNum (1 # 2)) HN).
Defined.

Lemma getParams_start_vector_witness :
  (1 ≤ 5)%Z
  ∧ ∃ p, getParams (js_int 5) (js_int 99) (JNum (1 # 2)) = (js_int 5, js_int 5, p).
Proof.
  assert (1 ≤ 5)%Z as HN by lia.
  split; [exact HN|].
  exact (proj1 (getParams_start_vector 0%Z 1%Z Z.add Z.mul Z.sub Z.opp Zth
                  5 99 (JNum (1 # 2)) HN)).
Defined.

Lemma matrixPower_returned_array_witness :
  h_matrix [NumArray [1; 1]%Z; NumArray [0; 1]%Z; RefArray [0; 1]] 2
    [[1; 1]; [0; 1]]%Z
  ∧ ∃ h', h_matrixPower 0%Z 1%Z Z.add Z.mul 2 (js_int 1)
            [NumArray [1; 1]%Z; NumArray [0; 1]%Z; RefArray [0; 1]] = (h', Ret 2).
Proof.
  assert (h_matrix [NumArray [1; 1]%Z; NumArray [0; 1]%Z; RefArray [0; 1]] 2
            [[1; 1]; [0; 1]]%Z) as Hm
    by (exists [0; 1]; split; [reflexivity|repeat constructor]).
  split; [exact Hm|].
  exact (proj1 (matrixPower_returned_array 0%Z 1%Z Z.add Z.mul _ 2 _ Hm)).
Defined.

Lemma vectorMatrixMultiply_leaves_arguments_witness :
  ([NumArray [1; 1]%Z; NumArray [0; 1]%Z; RefArray [0; 1]; NumArray [1; 0]%Z] !! 3
     = Some (NumArray [1; 0]%Z)
   ∧ h_matrix [NumArray [1; 1]%Z; NumArray [0; 1]%Z; RefArray [0; 1];
               NumArray [1; 0]%Z] 2 [[1; 1]; [0; 1]]%Z
   ∧ 0 < 2 ∧ is_matrix 2 2 [[1; 1]; [0; 1]]%Z ∧ length [1; 0]%Z ≤ 2)
  ∧ ∃ h' res w,
      h_vectorMatrixMultiply 0%Z Z.add Z.mul 3 2
        [NumArray [1; 1]%Z; NumArray [0; 1]%Z; RefArray [0; 1]; NumArray [1; 0]%Z]
      = (h', Ret res)
      ∧ vectorMatrixMultiply 0%Z Z.add Z.mul [1; 0]%Z [[1; 1]; [0; 1]]%Z = Ret w
      ∧ h' !! res = Some (NumArray w).
Proof.
  assert ([NumArray [1; 1]%Z; NumArray [0; 1]%Z; RefArray [0; 1]; NumArray [1; 0]%Z]
            !! 3 = Some (NumArray [1; 0]%Z)) as Hv by reflexivity.
  assert (h_matrix [NumArray [1; 1]%Z; NumArray [0; 1]%Z; RefArray [0; 1];
                    NumArray [1; 0]%Z] 2 [[1; 1]; [0; 1]]%Z) as Hm
    by (exists [0; 1]; split; [reflexivity|repeat constructor]).
  assert (0 < 2) as H2 by lia.
  assert (is_matrix 2 2 [[1; 1]; [0; 1]]%Z) as HM
    by (split; [reflexivity|repeat constructor]).
  assert (length [1; 0]%Z ≤ 2) as Hlen by (simpl; lia).
  split; [by split_and!|].
  destruct (vectorMatrixMultiply_leaves_arguments 0%Z Z.add Z.mul _ 3 2 _ _ 2 2
              Hv Hm H2 HM Hlen) as (h' & res & w & Hrun & Hpure & Hres & _).
  exists h', res, w. by split_and!.
Defined.

(** ** Instances of the properties of doubles *)

(** Unrounded arithmetic is one arithmetic of the kind the results on
    doubles are stated for: it returns the exact result whenever that is a
    binary64 value. *)
Lemma unrounded_exact (op : Qc → Qc → Qc) (a b : Qc) :
  binary64 a = true → binary64 b = true → binary64 (op a b) = true →
  unrounded op (Some a) (Some b) = Some (op a b).
Proof. intros _ _ H. unfold unrounded. by rewrite H. Qed.

(** On doubles with N = 3, p = 1/2 and the start at 1 nothing rounds in
    three steps, and the one-shot advance and the three single steps
    return the same vector [0.625, 0, 0.125, 0.25]. *)
Lemma one_shot_equals_steps_half :
  advanceBySteps 0%float 1%float PrimFloat.add PrimFloat.mul [0; 1; 0; 0]%float
    (generateTransitionMatrix 0%float 1%float PrimFloat.sub 3 (1 / 2)%float) (js_int 3)
  = Ret [5 / 8; 0; 1 / 8; 1 / 4]%float
  ∧ advance_sequentially 0%float PrimFloat.add PrimFloat.mul 3 [0; 1; 0; 0]%float
      (generateTransitionMatrix 0%float 1%float PrimFloat.sub 3 (1 / 2)%float)
    = Ret [5 / 8; 0; 1 / 8; 1 / 4]%float.
Proof. split; vm_compute; reflexivity. Qed.




Lemma matrixMultiply_associative_unrounded_witness :
  (0 < 2
   ∧ is_matrix 2 2 [[Q2Qc (1 # 2); Q2Qc (1 # 2)]; [0; 1]]%Qc
   ∧ is_matrix 2 2 [[1; 0]; [Q2Qc (1 # 2); Q2Qc (1 # 2)]]%Qc
   ∧ is_matrix 2 2 [[Q2Qc (2 # 1); 0]; [0; 1]]%Qc
   ∧ Forall all_binary64 [[Q2Qc (1 # 2); Q2Qc (1 # 2)]; [0; 1]]%Qc
   ∧ Forall all_binary64 [[1; 0]; [Q2Qc (1 # 2); Q2Qc (1 # 2)]]%Qc
   ∧ Forall all_binary64 [[Q2Qc (2 # 1); 0]; [0; 1]]%Qc
   ∧ (X ← matrixMultiply (Some 0%Qc) (unrounded Qcplus) (unrounded Qcmult)
            (fmap (M:=list) Some <$> [[Q2Qc (1 # 2); Q2Qc (1 # 2)]; [0; 1]]%Qc)
            (fmap (M:=list) Some <$> [[1; 0]; [Q2Qc (1 # 2); Q2Qc (1 # 2)]]%Qc);
      matrixMultiply (Some 0%Qc) (unrounded Qcplus) (unrounded Qcmult) X
        (fmap (M:=list) Some <$> [[Q2Qc (2 # 1); 0]; [0; 1]]%Qc))
     = Ret (fmap (M:=list) Some <$>
              [[Q2Qc (3 # 2); Q2Qc (1 # 4)]; [1; Q2Qc (1 # 2)]]%Qc)
   ∧ (Y ← matrixMultiply (Some 0%Qc) (unrounded Qcplus) (unrounded Qcmult)
            (fmap (M:=list) Some <$> [[1; 0]; [Q2Qc (1 # 2); Q2Qc (1 # 2)]]%Qc)
            (fmap (M:=list) Some <$> [[Q2Qc (2 # 1); 0]; [0; 1]]%Qc);
      matrixMultiply (Some 0%Qc) (unrounded Qcplus) (unrounded Qcmult)
        (fmap (M:=list) Some <$> [[Q2Qc (1 # 2); Q2Qc (1 # 2)]; [0; 1]]%Qc) Y)
     = Ret (fmap (M:=list) Some <$>
              [[Q2Qc (6 # 4); Q2Qc (2 # 8)]; [1; Q2Qc (1 # 2)]]%Qc))
  ∧ [[Q2Qc (3 # 2); Q2Qc (1 # 4)]; [1; Q2Qc (1 # 2)]]%Qc
    = [[Q2Qc (6 # 4); Q2Qc (2 # 8)]; [1; Q2Qc (1 # 2)]]%Qc.
Proof.
  assert (0 < 2) as H2 by lia.
  assert (is_matrix 2 2 [[Q2Qc (1 # 2); Q2Qc (1 # 2)]; [0; 1]]%Qc) as HA
    by (split; [reflexivity|repeat constructor]).
  assert (is_matrix 2 2 [[1; 0]; [Q2Qc (1 # 2); Q2Qc (1 # 2)]]%Qc) as HB
    by (split; [reflexivity|repeat constructor]).
  assert (is_matrix 2 2 [[Q2Qc (2 # 1); 0]; [0; 1]]%Qc) as HC
    by (split; [reflexivity|repeat constructor]).
  assert (Forall all_binary64 [[Q2Qc (1 # 2); Q2Qc (1 # 2)]; [0; 1]]%Qc) as HbA
    by (repeat constructor).
  assert (Forall all_binary64 [[1; 0]; [Q2Qc (1 # 2); Q2Qc (1 # 2)]]%Qc) as HbB
    by (repeat constructor).
  assert (Forall all_binary64 [[Q2Qc (2 # 1); 0]; [0; 1]]%Qc) as HbC
    by (repeat constructor).
  assert ((X ← matrixMultiply (Some 0%Qc) (unrounded Qcplus) (unrounded Qcmult)
                 (fmap (M:=list) Some <$> [[Q2Qc (1 # 2); Q2Qc (1 # 2)]; [0; 1]]%Qc)
                 (fmap (M:=list) Some <$> [[1; 0]; [Q2Qc (1 # 2); Q2Qc (1 # 2)]]%Qc);
           matrixMultiply (Some 0%Qc) (unrounded Qcplus) (unrounded Qcmult) X
             (fmap (M:=list) Some <$> [[Q2Qc (2 # 1); 0]; [0; 1]]%Qc))
          = Ret (fmap (M:=list) Some <$>
                   [[Q2Qc (3 # 2); Q2Qc (1 # 4)]; [1; Q2Qc (1 # 2)]]%Qc)) as HP
    by (vm_compute;
        repeat first [apply Qc_is_canon; reflexivity | progress f_equal]).
  assert ((Y ← matrixMultiply (Some 0%Qc) (unrounded Qcplus) (unrounded Qcmult)
                 (fmap (M:=list) Some <$> [[1; 0]; [Q2Qc (1 # 2); Q2Qc (1 # 2)]]%Qc)
                 (fmap (M:=list) Some <$> [[Q2Qc (2 # 1); 0]; [0; 1]]%Qc);
           matrixMultiply (Some 0%Qc) (unrounded Qcplus) (unrounded Qcmult)
             (fmap (M:=list) Some <$> [[Q2Qc (1 # 2); Q2Qc (1 # 2)]; [0; 1]]%Qc) Y)
          = Ret (fmap (M:=list) Some <$>
                   [[Q2Qc (6 # 4); Q2Qc (2 # 8)]; [1; Q2Qc (1 # 2)]]%Qc)) as HQ
    by (vm_compute;
        repeat first [apply Qc_is_canon; reflexivity | progress f_equal]).
  split; [by split_and!|].
  exact (proj1 (matrixMultiply_associative_unrounded (Some 0%Qc)
                  (unrounded Qcplus) (unrounded Qcmult) Some eq_refl
                  (unrounded_exact Qcplus) (unrounded_exact Qcmult) 2 2 2 2
                  _ _ _ _ _ H2 H2 H2 HA HB HC HbA HbB HbC HP HQ)).
Defined.

Lemma matrixPower_never_rejects_witness :
  (0 < 2 ∧ is_matrix 2 2 [[1; 1 / 2]; [0; 1]]%float
   ∧ JNum (5 # 2) ≠ JPosInf ∧ (-1 <= 0)%Q)
  ∧ (∃ P, matrixPower 0%float 1%float PrimFloat.add PrimFloat.mul
            [[1; 1 / 2]; [0; 1]]%float (JNum (5 # 2)) = Ret P
          ∧ is_matrix 2 2 P)
  ∧ matrixPower 0%float 1%float PrimFloat.add PrimFloat.mul
      [[1; 1 / 2]; [0; 1]]%float (JNum (-1))
    = Ret (identity_matrix 0%float 1%float 2)
  ∧ matrixPower 0%float 1%float PrimFloat.add PrimFloat.mul
      [[1; 1 / 2]; [0; 1]]%float JNaN
    = Ret (identity_matrix 0%float 1%float 2).
Proof.
  assert (0 < 2) as H2 by lia.
  assert (is_matrix 2 2 [[1; 1 / 2]; [0; 1]]%float) as HM
    by (split; [reflexivity|repeat constructor]).
  assert (JNum (5 # 2) ≠ JPosInf) as Hk by discriminate.
  assert (-1 <= 0)%Q as Hq by discriminate.
  split; [by split_and!|].
  destruct (matrixPower_never_rejects 0%float 1%float PrimFloat.add PrimFloat.mul
              2 _ H2 HM) as (Hret & Hneg & _ & Hnan & _).
  split; [exact (Hret _ Hk)|]. split; [exact (Hneg _ Hq)|exact Hnan].
Defined.

Lemma advanceSteps_coerces_k_witness :
  (Ready 0%float 1%float PrimFloat.add PrimFloat.mul PrimFloat.sub
     (resetSimulation 0%float 1%float PrimFloat.sub 2 1 (1 / 2)%float)
   ∧ (js_lt (js_int 0) (js_int 1) = true ∨ js_int 0 = JNaN)
   ∧ 1 ≤ 3 ∧ (0 <= 0)%Z ∧ (0 + Z.of_nat 3 <= 2 ^ 53)%Z)
  ∧ advanceSteps 0%float 1%float PrimFloat.add PrimFloat.mul (js_int 0)
      (resetSimulation 0%float 1%float PrimFloat.sub 2 1 (1 / 2)%float)
    = advanceSteps 0%float 1%float PrimFloat.add PrimFloat.mul (js_int 1)
        (resetSimulation 0%float 1%float PrimFloat.sub 2 1 (1 / 2)%float)
  ∧ advanceSteps 0%float 1%float PrimFloat.add PrimFloat.mul JNaN
      (resetSimulation 0%float 1%float PrimFloat.sub 2 1 (1 / 2)%float)
    = advanceSteps 0%float 1%float PrimFloat.add PrimFloat.mul (js_int 1)
        (resetSimulation 0%float 1%float PrimFloat.sub 2 1 (1 / 2)%float)
  ∧ ∃ s', advanceSteps 0%float 1%float PrimFloat.add PrimFloat.mul
            (js_int (Z.of_nat 3))
            (resetSimulation 0%float 1%float PrimFloat.sub 2 1 (1 / 2)%float) = Ret s'
          ∧ length (currentVector s') = 2 + 1
          ∧ currentStep s' = js_int 3.
Proof.
  assert (1 ≤ 2) as H12 by lia.
  pose proof (Ready_reset 0%float 1%float PrimFloat.add PrimFloat.mul PrimFloat.sub
                2 1 (1 / 2)%float H12) as Hready.
  assert (js_lt (js_int 0) (js_int 1) = true ∨ js_int 0 = JNaN) as H0
    by (left; reflexivity).
  assert (1 ≤ 3) as H13 by lia.
  assert (0 <= 0)%Z as Hc by lia.
  assert (0 + Z.of_nat 3 <= 2 ^ 53)%Z as Hc3 by (vm_compute; discriminate).
  split; [by split_and!|].
  destruct (advanceSteps_coerces_k 0%float 1%float PrimFloat.add PrimFloat.mul
              PrimFloat.sub _ Hready) as (Hco & _ & Hk).
  split; [exact (Hco _ H0)|]. split; [exact (Hco JNaN (or_intror eq_refl))|].
  destruct (Hk 3 H13) as (s' & Hrun & Hlen & _ & Hcount).
  exists s'. split; [exact Hrun|]. split; [exact Hlen|].
  exact (Hcount 0%Z eq_refl Hc Hc3).
Defined.

Lemma matrixMultiply_identity_finite_witness :
  (0 < 2 ∧ is_matrix 2 2 [[1 / 2; 1 / 4]; [3; 0]]%float
   ∧ PrimFloat.add 0 0 = 0%float
   ∧ Forall (Forall (finite_like 0%float 1%float PrimFloat.add PrimFloat.mul))
       [[1 / 2; 1 / 4]; [3; 0]]%float)
  ∧ matrixMultiply 0%float PrimFloat.add PrimFloat.mul
      (identity_matrix 0%float 1%float 2) [[1 / 2; 1 / 4]; [3; 0]]%float
    = Ret [[1 / 2; 1 / 4]; [3; 0]]%float
  ∧ matrixMultiply 0%float PrimFloat.add PrimFloat.mul
      [[1 / 2; 1 / 4]; [3; 0]]%float (identity_matrix 0%float 1%float 2)
    = Ret [[1 / 2; 1 / 4]; [3; 0]]%float.
Proof.
  assert (0 < 2) as H2 by lia.
  assert (is_matrix 2 2 [[1 / 2; 1 / 4]; [3; 0]]%float) as HA
    by (split; [reflexivity|repeat constructor]).
  assert (PrimFloat.add 0 0 = 0%float) as H0 by reflexivity.
  assert (Forall (Forall (finite_like 0%float 1%float PrimFloat.add PrimFloat.mul))
            [[1 / 2; 1 / 4]; [3; 0]]%float) as Hfin
    by (repeat constructor; vm_compute; reflexivity).
  split; [by split_and!|].
  exact (matrixMultiply_identity_finite 0%float 1%float PrimFloat.add PrimFloat.mul
           2 2 _ H2 H2 HA H0 Hfin).
Defined.

Lemma generateTransitionMatrix_mirror_witness :
  (PrimFloat.sub 1 (PrimFloat.sub 1 (1 / 4)) = (1 / 4)%float ∧ 1 ≤ 3 ∧ 2 ≤ 3)
  ∧ entry 0%float (generateTransitionMatrix 0%float 1%float PrimFloat.sub 3
                     (1 / 4)%float) 1 2
    = entry 0%float (generateTransitionMatrix 0%float 1%float PrimFloat.sub 3
                       (PrimFloat.sub 1 (1 / 4))) (3 - 1) (3 - 2).
Proof.
  assert (PrimFloat.sub 1 (PrimFloat.sub 1 (1 / 4)) = (1 / 4)%float) as Hp
    by reflexivity.
  assert (1 ≤ 3) as Hi by lia.
  assert (2 ≤ 3) as Hj by lia.
  split; [by split_and!|].
  exact (generateTransitionMatrix_mirror 0%float 1%float PrimFloat.sub 3
           (1 / 4)%float 1 2
           Hp Hi Hj).
Defined.

Lemma advanceSteps_fractional_witness :
  (Ready 0%float 1%float PrimFloat.add PrimFloat.mul PrimFloat.sub
     (resetSimulation 0%float 1%float PrimFloat.sub 2 1 (1 / 2)%float)
   ∧ (1 < 3 # 2)%Q ∧ (3 # 2 < 2)%Q ∧ binary64 (3 # 2) = true
   ∧ PrimFloat.add 0 0 = 0%float
   ∧ Forall (finite_like 0%float 1%float PrimFloat.add PrimFloat.mul)
       (currentVector (resetSimulation 0%float 1%float PrimFloat.sub 2 1
                         (1 / 2)%float)))
  ∧ ∃ s', advanceSteps 0%float 1%float PrimFloat.add PrimFloat.mul (JNum (3 # 2))
            (resetSimulation 0%float 1%float PrimFloat.sub 2 1 (1 / 2)%float) = Ret s'
          ∧ currentStep s' = JNum (3 # 2)
          ∧ currentVector s' = [0; 1; 0]%float.
Proof.
  assert (1 ≤ 2) as H12 by lia.
  pose proof (Ready_reset 0%float 1%float PrimFloat.add PrimFloat.mul PrimFloat.sub
                2 1 (1 / 2)%float H12) as Hready.
  assert (1 < 3 # 2)%Q as Hq1 by reflexivity.
  assert (3 # 2 < 2)%Q as Hq2 by reflexivity.
  assert (binary64 (3 # 2) = true) as Hb by reflexivity.
  assert (PrimFloat.add 0 0 = 0%float) as H0 by reflexivity.
  assert (Forall (finite_like 0%float 1%float PrimFloat.add PrimFloat.mul)
            (currentVector (resetSimulation 0%float 1%float PrimFloat.sub 2 1
                              (1 / 2)%float))) as Hfin
    by (repeat constructor; vm_compute; reflexivity).
  split; [by split_and!|].
  destruct (proj2 (advanceSteps_fractional 0%float 1%float PrimFloat.add PrimFloat.mul
                     PrimFloat.sub _ (3 # 2)%Q Hready) Hq1 Hq2)
    as (s' & Hrun & _ & _ & Hcount & Hvec).
  exists s'. split; [exact Hrun|]. split.
  - exact (Hcount eq_refl Hb).
  - exact (Hvec H0 Hfin).
Defined.

Lemma Ready_absorbed_start_witness :
  ∃ s', advanceSteps 0%Qc 1%Qc Qcplus Qcmult (js_int 3)
          (resetSimulation 0%Qc 1%Qc Qcminus 2 2 (Q2Qc (1 # 2))) = Ret s'
        ∧ Ready 0%Qc 1%Qc Qcplus Qcmult Qcminus s'
        ∧ n_global s' = Z.of_nat (N_global s')
        ∧ currentStep s' = js_int 3
        ∧ currentVector s' = generateInitialVector 0%Qc 1%Qc 2 2.
Proof.
  assert (1 ≤ 2) as H12 by lia.
  pose proof (Ready_reset 0%Qc 1%Qc Qcplus Qcmult Qcminus 2 2 (Q2Qc (1 # 2)) H12)
    as Hready.
  eexists. split; [reflexivity|].
  match goal with |- Ready _ _ _ _ _ ?s ∧ _ =>
    assert (Ready 0%Qc 1%Qc Qcplus Qcmult Qcminus s) as Hready'
      by exact (Ready_advance 0%Qc 1%Qc Qcplus Qcmult Qcminus (js_int 3) _ s
                  Hready eq_refl);
    assert (n_global s = Z.of_nat (N_global s)) as Hn by reflexivity
  end.
  split; [exact Hready'|]. split; [exact Hn|]. split; [reflexivity|].
  exact (Ready_absorbed_start 0%Qc 1%Qc Qcplus Qcmult Qcminus Qcopp Qcrt _ Hready'
           (or_intror Hn)).
Defined.

Lemma Ready_nonnegative_witness :
  ∃ s', advanceSteps 0%Qc 1%Qc Qcplus Qcmult (js_int 2)
          (resetSimulation 0%Qc 1%Qc Qcminus 3 1 (Q2Qc (1 # 2))) = Ret s'
        ∧ Ready 0%Qc 1%Qc Qcplus Qcmult Qcminus s'
        ∧ (0 <= p_global s')%Qc ∧ (0 <= 1 - p_global s')%Qc
        ∧ currentStep s' = js_int 2
        ∧ Forall (Qcle 0%Qc) (currentVector s').
Proof.
  assert (1 ≤ 3) as H13 by lia.
  pose proof (Ready_reset 0%Qc 1%Qc Qcplus Qcmult Qcminus 3 1 (Q2Qc (1 # 2)) H13)
    as Hready.
  eexists. split; [reflexivity|].
  match goal with |- Ready _ _ _ _ _ ?s ∧ _ =>
    assert (Ready 0%Qc 1%Qc Qcplus Qcmult Qcminus s) as Hready'
      by exact (Ready_advance 0%Qc 1%Qc Qcplus Qcmult Qcminus (js_int 2) _ s
                  Hready eq_refl);
    assert (0 <= p_global s)%Qc as Hp by (vm_compute; discriminate);
    assert (0 <= 1 - p_global s)%Qc as Hq by (vm_compute; discriminate)
  end.
  split; [exact Hready'|]. split; [exact Hp|]. split; [exact Hq|].
  split; [reflexivity|].
  assert (0 <= 1)%Qc as H01 by (vm_compute; discriminate).
  exact (Ready_nonnegative 0%Qc 1%Qc Qcplus Qcmult Qcminus Qcopp Qcrt Qcle
           Qcle_refl Qcplus_le_compat Qcmult_nonneg_nonneg H01 _ Hready' Hp Hq).
Defined.
